(** * FMB/FiniteModelBuilder.cpp: the SAT encoding of finite model finding

    A shallow embedding of the encoder and of the search loop of the finite
    model builder.  [unsigned] values are integers in [Z] with the
    wrap-around modulo [2^32] written out; [DArray]s and [Stack]s are lists;
    the object's fields that the encoder mutates are threaded explicitly;
    [float] values are IEEE binary32 values.  Debug assertions ([ASS],
    [ASSERTION_VIOLATION]) are left out: the model is the release build,
    except for [ALWAYS], whose argument has an effect and which is modelled
    for both builds.  The two assertions of [onModelFound] on the assignment
    are stated apart ([constantAssertions]).  A call that does not return
    (a loop that never ends) and a read or write out of range are outcomes
    of their own. *)

From Stdlib Require Import ZArith QArith Qround Lia List Bool String SpecFloat.
From stdpp Require Import base list.
From Equations Require Import Equations.

Local Open Scope Z_scope.

(** ** Machine arithmetic *)

Definition UINT_MAX : Z := 4294967295.

(** The value an [unsigned] cell holds after an arithmetic operation. *)
Definition wrap (z : Z) : Z := z mod 2 ^ 32.

(** Conversion of a [double] (or [float]) holding the integer [z] to
    [unsigned].  In range it is exact; out of range the behaviour is undefined
    in C++, so the model takes what the platform does as a parameter. *)
Definition toUnsigned (outOfRange : Z -> Z) (z : Z) : Z :=
  if (0 <=? z) && (z <=? UINT_MAX) then z else outOfRange z.

(** ** Single precision

    [float] is IEEE binary32: the operations of [SpecFloat] at 24 bits of
    mantissa and greatest exponent 128, which round to nearest, ties to
    even.  An expression over [float]s is evaluated in single precision. *)

Definition float_prec : Z := 24.
Definition float_emax : Z := 128.

(** [(float)u] for an [unsigned] [u]: the nearest [float]. *)
Definition floatOfUnsigned (u : Z) : spec_float :=
  binary_normalize float_prec float_emax u 0 false.

(** The product of two [float]s. *)
Definition floatMul (x y : spec_float) : spec_float := SFmul float_prec float_emax x y.

(** Conversion of a [float] to [unsigned]: the fraction is discarded.  An
    infinity and a NaN, which have no value, are out of range as well; the
    platform's result for them is read off [outOfRange] at values no finite
    [float] has. *)
Definition floatToUnsigned (outOfRange : Z -> Z) (x : spec_float) : Z :=
  match x with
  | S754_zero _ => 0
  | S754_finite s m e => toUnsigned outOfRange (cond_Zopp s (Z.shiftl (Zpos m) e))
  | S754_infinity s => outOfRange (cond_Zopp s (2 ^ 128))
  | S754_nan => outOfRange (2 ^ 129)
  end.

(** ** Signature, sorted signature, options *)

(** [env.signature]: arities of the function and predicate symbols, the
    symbols being the indices of the two tables.  Predicate 0 is equality. *)
Record Signature := {
  functionArities : list nat;
  predicateArities : list nat
}.

Definition functions (sg : Signature) : nat := length (functionArities sg).
Definition predicates (sg : Signature) : nat := length (predicateArities sg).
Definition functionArity (sg : Signature) (f : nat) : nat :=
  nth f (functionArities sg) O.
Definition predicateArity (sg : Signature) (p : nat) : nat :=
  nth p (predicateArities sg) O.

(** [SortedSignature], the result of [SortInference::apply]. *)
Record SortedSignature := {
  sorts : nat;
  sortedConstants : list (list nat);
  sortedFunctions : list (list nat);
  functionBounds : list (list Z);
  predicateBounds : list (list Z)
}.

(** [functionBounds[f][i]] and [predicateBounds[p][i]]. *)
Definition fbound (ss : SortedSignature) (f i : nat) : Z :=
  nth i (nth f (functionBounds ss) []) 0.
Definition pbound (ss : SortedSignature) (p i : nat) : Z :=
  nth i (nth p (predicateBounds ss) []) 0.

Inductive FMBWidgetOrders := FUNCTION_FIRST | ARGUMENT_FIRST | DIAGONAL.

(** [Options::Proof]: only [OFF] is told apart from the other values. *)
Inductive ProofOption := PROOF_OFF | PROOF_ON.

(** The options the builder reads.  [fmbSymmetryRatio] is a [float]. *)
Record Options := {
  complete : bool;
  fmbStartSize : Z;
  fmbStartWithConstants : bool;
  fmbSymmetryRatio : spec_float;
  fmbSymmetryWidgetOrders : FMBWidgetOrders;
  proof : ProofOption
}.

(** A SAT literal: a propositional variable and a polarity. *)
Record SATLiteral := mkSATLiteral {
  lit_var : Z;
  lit_polarity : bool
}.

Definition SATClause := list SATLiteral.

(** [GroundedTerm]: a symbol and the value all its arguments take. *)
Record GroundedTerm := mkGroundedTerm {
  gt_f : nat;
  gt_grounding : Z
}.

(** The fields of the builder that [reset] rebuilds for every size: the two
    offset arrays, the solver (here the variable count it was created with,
    [None] while there is no solver) and the grounded terms of every sort. *)
Record Layout := {
  f_offsets : list Z;
  p_offsets : list Z;
  solverVarCount : option Z;
  sortedGroundedTerms : list (list GroundedTerm)
}.

(** ** getSATLiteral *)

(** The loop body of [getSATLiteral]: [var += mult*(grounding[i]-1);
    mult *= size]. *)
Definition satVarStep (size : Z) (acc : Z * Z) (g : Z) : Z * Z :=
  let '(var, mult) := acc in
  (wrap (var + wrap (mult * wrap (g - 1))), wrap (mult * size)).

(** [isFunction ? f_offsets[f] : p_offsets[f]]. *)
Definition offsetOf (lay : Layout) (f : nat) (isFunction : bool) : Z :=
  if isFunction then f_offsets lay !!! f else p_offsets lay !!! f.

Definition getSATLiteral (lay : Layout) (f : nat) (grounding : list Z)
    (polarity isFunction : bool) (size : Z) : SATLiteral :=
  let offset := offsetOf lay f isFunction in
  let '(var, _) := fold_left (satVarStep size) grounding (offset, 1) in
  mkSATLiteral var polarity.

(** The sum of the spec: [Σᵢ (tupleᵢ − 1) · n^i] over the positions of the
    tuple, position 0 first. *)
Definition tupleSum (n : Z) (tuple : list Z) : Z :=
  foldr Z.add 0 (imap (fun i d => (d - 1) * n ^ Z.of_nat i) tuple).

(** ** Flat clauses *)

(** The three shapes of literal a flattened clause has: [x = y] between two
    variables, [f(x̄) = y], and [p(x̄)]; each with a polarity.  Variables are
    numbered from 0 in every clause. *)
Inductive Literal :=
| TwoVarEquality (polarity : bool) (x y : nat)
| FunctionEquality (polarity : bool) (functor : nat) (args : list nat) (y : nat)
| PredicateAtom (polarity : bool) (functor : nat) (args : list nat).

Record Clause := {
  varCnt : nat;
  literals : list Literal
}.

Definition isTwoVarEquality (l : Literal) : bool :=
  match l with TwoVarEquality _ _ _ => true | _ => false end.

Definition isEquality (l : Literal) : bool :=
  match l with PredicateAtom _ _ _ => false | _ => true end.

Definition polarity (l : Literal) : bool :=
  match l with
  | TwoVarEquality p _ _ => p
  | FunctionEquality p _ _ _ => p
  | PredicateAtom p _ _ => p
  end.

(** [Literal::functor()]: equality is predicate 0. *)
Definition functor (l : Literal) : nat :=
  match l with PredicateAtom _ p _ => p | _ => O end.

(** ** The builder after [init] *)

(** Terms and formulas, as far as [onModelFound] looks into the definitions
    of eliminated symbols: the head of a term and its arguments, the
    connective of a formula and its immediate subformulas.  [OTHER] stands
    for every connective the code does not name. *)
#[warnings="-register-all"] Inductive Term :=
| Var (v : nat)
| App (f : nat) (args : list Term).

Inductive Formula :=
| LITERAL (positive : bool) (p : nat) (args : list Term)
| NOT (uarg : Formula)
| IFF (lhs rhs : Formula)
| FORALL (qarg : Formula)
| TRUE
| FALSE
| OTHER.

(** What the constructor and [init] leave in the object and in the
    environment, and what the encoder and the search loop only read.
    [flattened] are the clauses as [ClauseFlattening::flatten] returns them,
    [clauses] the non-ground ones after [GeneralSplitting] and normalisation,
    [groundClauses] the ground ones.
    [removeDuplicateLiterals] is [Preprocess::removeDuplicateLiterals] and
    [outOfRange] the platform's conversion of an out-of-range floating value
    to [unsigned]; [vdebug] tells a debug build, where [ALWAYS] asserts.
    [deletedFunctions], [deletedPredicates] and [partialDefinitions] are what
    [_deletedFunctions.get], [_deletedPredicates.get] and
    [_partiallyDeletedPredicates.get] return: the two sides of the equality
    that defines an eliminated function and the formula that defines an
    eliminated or partially eliminated predicate. *)
Record Builder := {
  signature : Signature;
  opt : Options;
  del_f : list bool;
  del_p : list bool;
  sortedSignature : SortedSignature;
  flattened : list Clause;
  clauses : list Clause;
  groundClauses : list Clause;
  isEPR : bool;
  introducedFunctions : list bool;
  introducedPredicates : list bool;
  partiallyDeletedPredicates : list bool;
  trivialPredicates : list (option bool);
  removeDuplicateLiterals : SATClause -> option SATClause;
  outOfRange : Z -> Z;
  vdebug : bool;
  deletedFunctions : nat -> Term * Term;
  deletedPredicates : nat -> Formula;
  partialDefinitions : nat -> Formula
}.

Definition deletedFunction (b : Builder) (f : nat) : bool := nth f (del_f b) false.
Definition deletedPredicate (b : Builder) (p : nat) : bool := nth p (del_p b) false.

(** [_maxArity], set by the constructor. *)
Definition maxArity (b : Builder) : nat :=
  fold_left (fun m arity => if (m <? arity)%nat then arity else m)
    (functionArities (signature b)) O.

(** [_constantCount], counted in [init] over the functions that are not
    deleted. *)
Definition constantCount (b : Builder) : Z :=
  fold_left (fun cnt f =>
      if deletedFunction b f then cnt
      else if (functionArity (signature b) f =? 0)%nat then wrap (cnt + 1) else cnt)
    (seq 0 (functions (signature b))) 0.

(** The part of [init] that derives [_maxModelSize] from the flattened
    clauses: [posEqs] counts the leading literals that are positive
    equalities between two different variables; a non-ground clause made of
    such literals only lowers [_maxModelSize] to its number of variables. *)
Fixpoint posEqs (ls : list Literal) : nat :=
  match ls with
  | TwoVarEquality true x y :: rest =>
      if negb (x =? y)%nat then S (posEqs rest) else O
  | _ => O
  end.

Definition initMaxModelSizeStep (maxModelSize : Z) (c : Clause) : Z :=
  if (varCnt c =? 0)%nat then maxModelSize
  else if (posEqs (literals c) =? length (literals c))%nat
          && (Z.of_nat (varCnt c) <? maxModelSize)
       then Z.of_nat (varCnt c) else maxModelSize.

Definition initMaxModelSize (b : Builder) : Z :=
  fold_left initMaxModelSizeStep (flattened b) UINT_MAX.

(** The part of [init] that sets up [_clauseBounds]: the bound of a variable
    is the bound of the first symbol position it occurs at; variables that
    occur in two-variable equalities only keep 0. *)
Definition setBound (bounds : list Z) (var : nat) (bound : Z) : list Z :=
  if negb (bounds !!! var =? 0) then bounds else <[var := bound]> bounds.

Definition setArgBounds (bound : nat -> Z) (args : list nat) (bounds : list Z) : list Z :=
  fold_left (fun bs '(j, avar) => setBound bs avar (bound j))
    (imap (fun j avar => (j, avar)) args) bounds.

Definition clauseBoundsStep (ss : SortedSignature) (bounds : list Z) (lit : Literal) : list Z :=
  match lit with
  | TwoVarEquality _ _ _ => bounds
  | FunctionEquality _ f args y =>
      setArgBounds (fun j => fbound ss f (S j)) args (setBound bounds y (fbound ss f 0))
  | PredicateAtom _ p args =>
      setArgBounds (fun j => pbound ss p j) args bounds
  end.

Definition clauseBounds (b : Builder) (c : Clause) : list Z :=
  fold_left (clauseBoundsStep (sortedSignature b)) (literals c) (replicate (varCnt c) 0).

(** ** reset *)

(** [pow(size, e)] stored into an [unsigned]. *)
Definition powUnsigned (b : Builder) (size : Z) (e : nat) : Z :=
  toUnsigned (outOfRange b) (size ^ Z.of_nat e).

(** One of the two offset loops of [reset], over the symbols [syms] in order:
    a symbol that is not deleted gets the current offset and a block of
    [pow(size, blockExp s)] variables.  The result is [None] for the offset
    when the loop returns [false]; the offsets written so far stay. *)
Fixpoint layoutBlocks (b : Builder) (deleted : nat -> bool) (blockExp : nat -> nat)
    (size : Z) (syms : list nat) (offsets : Z) (table : list Z) : option Z * list Z :=
  match syms with
  | [] => (Some offsets, table)
  | s :: rest =>
      if deleted s then layoutBlocks b deleted blockExp size rest offsets table
      else
        let table' := <[s := offsets]> table in
        let add := powUnsigned b size (blockExp s) in
        if UINT_MAX - add <? offsets then (None, table')
        else layoutBlocks b deleted blockExp size rest (wrap (offsets + add)) table'
  end.

Definition functionSymbols (b : Builder) : list nat := seq 0 (functions (signature b)).
Definition predicateSymbols (b : Builder) : list nat := seq 1 (predicates (signature b) - 1).

Definition functionBlockExp (b : Builder) (f : nat) : nat := (functionArity (signature b) f + 2)%nat.
Definition predicateBlockExp (b : Builder) (p : nat) : nat := (predicateArity (signature b) p + 1)%nat.

(** The values [1, 2, ..., size] of a loop [for(m=1; m<=size; m++)], which
    ends for a [size] below [UINT_MAX]. *)
Definition upTo (size : Z) : list Z := map Z.of_nat (seq 1 (Z.to_nat size)).

(** "We skip f if its domain is bounded to less than g.grounding". *)
Definition outOfBounds (b : Builder) (f : nat) (grounding : Z) : bool :=
  existsb (fun i => fbound (sortedSignature b) f (S i) <? grounding)
    (seq 0 (functionArity (signature b) f)).

(** The body shared by the widget loops: push [(f, grounding)] unless the
    range of [f] is bounded below [size] or an argument below [grounding]. *)
Definition widget (b : Builder) (size : Z) (f : nat) (grounding : Z) : list GroundedTerm :=
  if fbound (sortedSignature b) f 0 <? size then []
  else if outOfBounds b f grounding then []
  else [mkGroundedTerm f grounding].

Definition groundedTermsOfSort (b : Builder) (size : Z) (s : nat) : list GroundedTerm :=
  let constants := nth s (sortedConstants (sortedSignature b)) [] in
  let funs := nth s (sortedFunctions (sortedSignature b)) [] in
  map (fun c => mkGroundedTerm c 0) constants ++
  match fmbSymmetryWidgetOrders (opt b) with
  | FUNCTION_FIRST =>
      flat_map (fun f => flat_map (fun m => widget b size f m) (upTo size)) funs
  | ARGUMENT_FIRST =>
      flat_map (fun m => flat_map (fun f => widget b size f m) funs) (upTo size)
  | DIAGONAL =>
      flat_map (fun m =>
        flat_map (fun '(i, f) =>
            widget b size f (wrap (1 + wrap (m + Z.of_nat i) mod size)))
          (imap (fun i f => (i, f)) funs))
        (upTo size)
  end.

(** The loops [for(unsigned m=1;m<=size;m++)] end for a size below
    [UINT_MAX] only: at [UINT_MAX] the test holds for every [unsigned].
    [reachesWidgetLoop] tells whether [reset] gets to such a loop once the
    offsets are set: under [FUNCTION_FIRST] when some sort has a function,
    under the two other orders when there is a sort.  [upTo],
    [groundedTermsOfSort] and [reset] give what the loops compute when they
    end; a caller of [reset] asks [resetNeverReturns] first. *)
Definition reachesWidgetLoop (b : Builder) : bool :=
  match fmbSymmetryWidgetOrders (opt b) with
  | FUNCTION_FIRST =>
      existsb (fun s =>
          negb (length (nth s (sortedFunctions (sortedSignature b)) []) =? 0)%nat)
        (seq 0 (sorts (sortedSignature b)))
  | ARGUMENT_FIRST | DIAGONAL => negb (sorts (sortedSignature b) =? 0)%nat
  end.

(** A call [reset(size)] that has set the offsets never returns. *)
Definition resetNeverReturns (b : Builder) (size : Z) : bool :=
  (UINT_MAX <=? size) && reachesWidgetLoop b.

(** [reset(size)]: the Boolean result and the fields afterwards.  When an
    offset loop returns [false] the solver and the grounded terms are left as
    they were. *)
Definition reset (b : Builder) (lay : Layout) (size : Z) : bool * Layout :=
  match layoutBlocks b (deletedFunction b) (functionBlockExp b) size
          (functionSymbols b) 1 (f_offsets lay) with
  | (None, f_off) =>
      (false, {| f_offsets := f_off; p_offsets := p_offsets lay;
                 solverVarCount := solverVarCount lay;
                 sortedGroundedTerms := sortedGroundedTerms lay |})
  | (Some offsets, f_off) =>
      match layoutBlocks b (deletedPredicate b) (predicateBlockExp b) size
              (predicateSymbols b) offsets (p_offsets lay) with
      | (None, p_off) =>
          (false, {| f_offsets := f_off; p_offsets := p_off;
                     solverVarCount := solverVarCount lay;
                     sortedGroundedTerms := sortedGroundedTerms lay |})
      | (Some offsets', p_off) =>
          (true, {| f_offsets := f_off; p_offsets := p_off;
                    solverVarCount := Some (wrap (offsets' + 1));
                    sortedGroundedTerms :=
                      map (groundedTermsOfSort b size) (seq 0 (sorts (sortedSignature b))) |})
      end
  end.

(** The fields after [init]: both offset arrays have one cell per symbol, no
    solver has been created and there are no grounded terms. *)
Definition initialLayout (b : Builder) : Layout :=
  {| f_offsets := replicate (functions (signature b)) 0;
     p_offsets := replicate (predicates (signature b)) 0;
     solverVarCount := None;
     sortedGroundedTerms := [] |}.

(** ** The clause buffer *)

(** [addSATClause]: the clause goes through [removeDuplicateLiterals]; when
    that yields no clause nothing is pushed on [_clausesToBeAdded]. *)
Definition addSATClause (b : Builder) (cl : SATClause) (clausesToBeAdded : list SATClause)
    : list SATClause :=
  match removeDuplicateLiterals b cl with
  | None => clausesToBeAdded
  | Some cl' => clausesToBeAdded ++ [cl']
  end.

(** ** The mixed-radix counters of the encoder

    Every enumeration of the encoder is the same labelled loop:
<<
    label:
      for(unsigned i=k-1; i+1!=0; i--){
        if(grounding[i]==mins[i]){ grounding[i]=1; }
        else{ grounding[i]++; body; goto label; }
      }
>>
    [advance] is one run of the [for] loop on the arrays read from the last
    cell to the first: [None] when the loop falls through, otherwise the
    counters at the moment the body runs. *)
Fixpoint advance (rmins rgrounding : list Z) : option (list Z) :=
  match rgrounding, rmins with
  | g :: rest, m :: rmins' =>
      if g =? m then option_map (cons 1) (advance rmins' rest)
      else Some (wrap (g + 1) :: rest)
  | _, _ => None
  end.

Definition nextGrounding (mins grounding : list Z) : option (list Z) :=
  option_map (@rev Z) (advance (rev mins) (rev grounding)).

Fixpoint groundingsFrom (fuel : nat) (mins grounding : list Z) : list (list Z) :=
  match fuel with
  | O => []
  | S fuel' =>
      match nextGrounding mins grounding with
      | None => []
      | Some g => g :: groundingsFrom fuel' mins g
      end
  end.

(** The counters before the loop: all 1, the last one 0. *)
Definition initialGrounding (k : nat) : list Z := <[(k - 1)%nat := 0]> (replicate k 1).

(** A counter with bound 0 runs through all [2^32] values of its cell before
    it is reset, any other one through [1 .. bound]; the product of these
    periods is the number of runs of the body the model allows for.  The
    loop falls through within that many runs ([groundings_enough_fuel]). *)
Definition counterPeriod (m : Z) : Z := if m =? 0 then 2 ^ 32 else m.

Definition period (mins : list Z) : Z :=
  fold_right (fun m acc => counterPeriod m * acc) 1 mins.

(** The groundings at which the body of the loop runs, in order. *)
Definition groundings (mins : list Z) : list (list Z) :=
  groundingsFrom (Z.to_nat (period mins)) mins (initialGrounding (length mins)).

(** ** addGroundClauses *)

Definition addGroundClauses (b : Builder) (lay : Layout) (buf : list SATClause) : list SATClause :=
  fold_left (fun buf c =>
      addSATClause b
        (map (fun lit => getSATLiteral lay (functor lit) [] (polarity lit) false 0) (literals c))
        buf)
    (groundClauses b) buf.

(** ** addNewInstances *)

(** [grounding[v]] for a variable [v] of the clause. *)
Definition valueOf (grounding : list Z) (v : nat) : Z := grounding !!! v.

(** The loop over the literals of a clause for one grounding: [None] when
    the instance is skipped ([goto instanceLabel] before the clause is
    built), otherwise the literals pushed on [satClauseLits].  For [x = y]
    the source tests "skip instance" and then "skip literal"; the second
    test is the negation of the first, so a two-variable equality never
    reaches the translation below it. *)
Fixpoint groundLiterals (lay : Layout) (size : Z) (grounding : list Z)
    (lits : list Literal) (satClauseLits : list SATLiteral) : option (list SATLiteral) :=
  match lits with
  | [] => Some satClauseLits
  | TwoVarEquality positive x y :: rest =>
      let equal := valueOf grounding x =? valueOf grounding y in
      if (positive && equal) || (negb positive && negb equal) then None
      else groundLiterals lay size grounding rest satClauseLits
  | FunctionEquality pol f args y :: rest =>
      let use := map (valueOf grounding) args ++ [valueOf grounding y] in
      groundLiterals lay size grounding rest
        (satClauseLits ++ [getSATLiteral lay f use pol true size])
  | PredicateAtom pol p args :: rest =>
      let use := map (valueOf grounding) args in
      groundLiterals lay size grounding rest
        (satClauseLits ++ [getSATLiteral lay p use pol false size])
  end.

Definition instanceMins (b : Builder) (size : Z) (c : Clause) : list Z :=
  map (fun bound => Z.min bound size) (clauseBounds b c).

Definition addInstance (b : Builder) (lay : Layout) (size : Z) (c : Clause)
    (buf : list SATClause) (grounding : list Z) : list SATClause :=
  match groundLiterals lay size grounding (literals c) [] with
  | None => buf
  | Some satClauseLits => addSATClause b satClauseLits buf
  end.

Definition addNewInstances (b : Builder) (lay : Layout) (size : Z) (buf : list SATClause)
    : list SATClause :=
  fold_left (fun buf c =>
      fold_left (addInstance b lay size c) (groundings (instanceMins b size c)) buf)
    (clauses b) buf.

(** ** addNewFunctionalDefs *)

(** [mins] of the functionality loop: cells 0 and 1 are the two images,
    cell [i+2] the [i]-th argument. *)
Definition functionalMins (b : Builder) (size : Z) (f : nat) : list Z :=
  let bounds := fbound (sortedSignature b) f in
  Z.min (bounds O) size :: Z.min (bounds O) size ::
  map (fun i => Z.min (bounds (S i)) size) (seq 0 (functionArity (signature b) f)).

Definition addFunctionalDef (b : Builder) (lay : Layout) (size : Z) (f : nat)
    (buf : list SATClause) (grounding : list Z) : list SATClause :=
  if grounding !!! 1%nat <=? grounding !!! O then buf
  else
    let use := drop 2 grounding in
    addSATClause b
      [getSATLiteral lay f (use ++ [grounding !!! O]) false true size;
       getSATLiteral lay f (use ++ [grounding !!! 1%nat]) false true size]
      buf.

Definition addNewFunctionalDefs (b : Builder) (lay : Layout) (size : Z) (buf : list SATClause)
    : list SATClause :=
  fold_left (fun buf f =>
      if deletedFunction b f then buf
      else fold_left (addFunctionalDef b lay size f) (groundings (functionalMins b size f)) buf)
    (functionSymbols b) buf.

(** ** addNewTotalityDefs *)

(** The clause [f(grounding) = 1 | ... | f(grounding) = min(size, bounds[0])]. *)
Definition totalityClause (b : Builder) (lay : Layout) (size : Z) (f : nat)
    (grounding : list Z) : SATClause :=
  map (fun e => getSATLiteral lay f (grounding ++ [e]) true true size)
    (upTo (Z.min size (fbound (sortedSignature b) f 0))).

Definition totalityMins (b : Builder) (size : Z) (f : nat) : list Z :=
  map (fun i => Z.min (fbound (sortedSignature b) f (S i)) size)
    (seq 0 (functionArity (signature b) f)).

Definition addNewTotalityDefs (b : Builder) (lay : Layout) (size : Z) (buf : list SATClause)
    : list SATClause :=
  fold_left (fun buf f =>
      if deletedFunction b f then buf
      else if (functionArity (signature b) f =? 0)%nat then
        addSATClause b (totalityClause b lay size f []) buf
      else
        fold_left (fun buf grounding => addSATClause b (totalityClause b lay size f grounding) buf)
          (groundings (totalityMins b size f)) buf)
    (functionSymbols b) buf.

(** ** Symmetry breaking *)

Definition dummyGroundedTerm : GroundedTerm := mkGroundedTerm O 0.

(** The array [grounding] of the symmetry axioms: [arity] cells holding the
    grounding of the term, then the image. *)
Definition termGrounding (arity : nat) (grounding image : Z) : list Z :=
  replicate arity grounding ++ [image].

(** [addNewSymmetryOrderingAxioms] on a stack of at least [size] terms reads
    [groundedTerms[size-1]], which is past the end of the stack when [size]
    is 0, and runs the loop [for(unsigned i=1;i<=size;i++)], which never ends
    when [size] is [UINT_MAX].  The function below gives the clause added in
    the other cases; a round asks these two tests first. *)
Definition orderingReadsPastEnd (size : Z) (groundedTerms : list GroundedTerm) : bool :=
  (size =? 0) && (Z.of_nat (length groundedTerms) <=? UINT_MAX).

Definition orderingNeverReturns (size : Z) (groundedTerms : list GroundedTerm) : bool :=
  (UINT_MAX <=? size) && negb (Z.of_nat (length groundedTerms) <? size).

Definition addNewSymmetryOrderingAxioms (b : Builder) (lay : Layout) (size : Z)
    (groundedTerms : list GroundedTerm) (buf : list SATClause) : list SATClause :=
  if Z.of_nat (length groundedTerms) <? size then buf
  else
    let gt := nth (Z.to_nat (wrap (size - 1))) groundedTerms dummyGroundedTerm in
    let arity := functionArity (signature b) (gt_f gt) in
    addSATClause b
      (map (fun i => getSATLiteral lay (gt_f gt) (termGrounding arity (gt_grounding gt) i)
                       true true size)
           (upTo size))
      buf.

(** [unsigned w = _symmetryRatio * maxSize], lowered to the length of the
    stack: [maxSize] is converted to [float], the product is a [float]
    product, and the result is converted to [unsigned]. *)
Definition canonicityWidth (b : Builder) (maxSize : Z) (len : nat) : Z :=
  let w := floatToUnsigned (outOfRange b)
             (floatMul (fmbSymmetryRatio (opt b)) (floatOfUnsigned maxSize)) in
  if Z.of_nat len <? w then Z.of_nat len else w.

Section Canonicity.
(** The canonicity encoder over the function it addresses variables with,
    so that what it passes can be inspected. *)
Context {L : Type} (getLiteral : nat -> list Z -> bool -> bool -> Z -> L).

(** The body of the loop over [i]: the literals pushed on [satClauseLits]. *)
Definition canonicityLits (sg : Signature) (size : Z)
    (groundedTerms : list GroundedTerm) (i : nat) : list L :=
  let gti := nth i groundedTerms dummyGroundedTerm in
  let arityi := functionArity sg (gt_f gti) in
  let grounding_i := termGrounding arityi (gt_grounding gti) size in
  fold_left (fun satClauseLits j =>
      let gtj := nth j groundedTerms dummyGroundedTerm in
      let arityj := functionArity sg (gt_f gtj) in
      let grounding_j := termGrounding arityj (gt_grounding gtj) (wrap (size - 1)) in
      satClauseLits ++ [getLiteral (gt_f gtj) grounding_j true true size])
    (seq 0 i)
    [getLiteral (gt_f gti) grounding_i false true size].

(** The clauses handed to [addSATClause], in order. *)
Definition canonicityClauses (b : Builder) (size : Z)
    (groundedTerms : list GroundedTerm) (maxSize : Z) : list (list L) :=
  if size <=? 1 then []
  else
    let w := canonicityWidth b maxSize (length groundedTerms) in
    fold_left (fun acc i => acc ++ [canonicityLits (signature b) size groundedTerms i])
      (seq 1 (Z.to_nat w - 1)) [].
End Canonicity.

Definition addNewSymmetryCanonicityAxioms (b : Builder) (lay : Layout) (size : Z)
    (groundedTerms : list GroundedTerm) (maxSize : Z) (buf : list SATClause)
    : list SATClause :=
  fold_left (fun buf cl => addSATClause b cl buf)
    (canonicityClauses (getSATLiteral lay) b size groundedTerms maxSize) buf.

(** A call of [getSATLiteral] by the canonicity encoder: the symbol and the
    grounding array it passes. *)
Record LiteralCall := mkLiteralCall {
  call_f : nat;
  call_grounding : list Z;
  call_polarity : bool;
  call_isFunction : bool;
  call_size : Z
}.

Definition canonicityCalls (b : Builder) (size : Z) (groundedTerms : list GroundedTerm)
    (maxSize : Z) : list LiteralCall :=
  concat (canonicityClauses mkLiteralCall b size groundedTerms maxSize).

(** Modelled from the spec: [addNewSymmetryAxioms] is defined in the header
    FiniteModelBuilder.hpp, which is missing.  For every sort it emits the
    ordered-totality clause and then the canonicity clauses of the sort's
    grounded terms, with the current upper bound on the model size as
    [maxSize]. *)
Definition addNewSymmetryAxioms (b : Builder) (lay : Layout) (size maxModelSize : Z)
    (buf : list SATClause) : list SATClause :=
  fold_left (fun buf groundedTerms =>
      addNewSymmetryCanonicityAxioms b lay size groundedTerms maxModelSize
        (addNewSymmetryOrderingAxioms b lay size groundedTerms buf))
    (sortedGroundedTerms lay) buf.

(** The clauses on [_clausesToBeAdded] when a round calls the solver. *)
Definition encode (b : Builder) (lay : Layout) (size maxModelSize : Z) : list SATClause :=
  addNewTotalityDefs b lay size
    (addNewSymmetryAxioms b lay size maxModelSize
      (addNewFunctionalDefs b lay size
        (addNewInstances b lay size
          (addGroundClauses b lay [])))).

(** ** The search loop *)

Module SATSolver.
Inductive Status := SATISFIABLE | UNSATISFIABLE | UNKNOWN.
End SATSolver.

Module Statistics.
Inductive TerminationReason := SATISFIABLE | REFUTATION | TIME_LIMIT | UNKNOWN.
End Statistics.

(** The first-order clause a refutation carries; the loop only ever builds
    the empty one, with inference [MODEL_NOT_FOUND]. *)
Inductive Inference := MODEL_NOT_FOUND.
Record FOClause := { fo_literals : list Literal; fo_inference : Inference }.

Definition emptyClause : FOClause := {| fo_literals := []; fo_inference := MODEL_NOT_FOUND |}.

Record MainLoopResult := mkMainLoopResult {
  terminationReason : Statistics.TerminationReason;
  refutation : option FOClause
}.

(** [FiniteModel]: the definitions [onModelFound] records. *)
Record FiniteModel := {
  fm_size : Z;
  fm_constants : list (nat * Z);
  fm_functions : list (nat * list Z * Z);
  fm_propositions : list (nat * bool);
  fm_predicates : list (nat * list Z * bool)
}.

(** The collaborators of the loop: the clock, the SAT solver created by
    [reset] (its answer and its assignment for the clauses it was given),
    [FiniteModel]'s evaluation of a term and of a formula under a
    substitution of domain elements for variables ([None] when it throws a
    [UserErrorException]) and the printing of a model. *)
Record External := {
  timeLimitReached : Z -> bool;
  solve : Z -> list SATClause -> SATSolver.Status;
  trueInAssignment : Z -> list SATClause -> SATLiteral -> bool;
  evaluateGroundTerm : FiniteModel -> Term -> list (nat * Z) -> option Z;
  evaluate : FiniteModel -> Formula -> list (nat * Z) -> option bool;
  toString : FiniteModel -> string
}.

(** What a call of [runImpl] ends in: a result and the model text left in
    [env.statistics->model] ([None] when it was not set); a violated
    assertion; undefined behaviour (a use of the solver before any was
    created, a read or write out of range); or nothing, the call never
    returning. *)
Inductive Outcome :=
| Finished (result : MainLoopResult) (model : option string)
| AssertionViolation
| UndefinedBehaviour
| NeverReturns.

(** What a call of [onModelFound] ends in: it returns, with the model text
    in [env.statistics->model]; it reads or writes out of range; or it never
    returns. *)
Inductive ModelOutcome :=
| ModelRecorded (model : option string)
| ModelUndefined
| ModelNeverReturns.

(** The symbols [onModelFound] records: not introduced, not deleted. *)
Definition recordedFunction (b : Builder) (f : nat) : bool :=
  negb (nth f (introducedFunctions b) false) && negb (deletedFunction b f).

Definition recordedPredicate (b : Builder) (p : nat) : bool :=
  negb (nth p (introducedPredicates b) false) && negb (deletedPredicate b p)
  && negb (nth p (partiallyDeletedPredicates b) false).

Definition predicateValue (b : Builder) (holds : SATLiteral -> bool) (lay : Layout)
    (modelSize : Z) (p : nat) (grounding : list Z) : bool :=
  match nth p (trivialPredicates b) None with
  | Some res => res
  | None => holds (getSATLiteral lay p grounding true false modelSize)
  end.

(** The interpretation read off the assignment [holds], before the
    eliminated symbols are evaluated (the loops over [c] end for a model size
    below [UINT_MAX], see [recordingNeverReturns]). *)
Definition recordModel (b : Builder) (holds : SATLiteral -> bool) (lay : Layout)
    (modelSize : Z) : FiniteModel :=
  let sg := signature b in
  let images f args :=
    filter (fun c => holds (getSATLiteral lay f (args ++ [c]) true true modelSize) = true)
      (upTo modelSize) in
  {| fm_size := modelSize;
     fm_constants :=
       flat_map (fun f =>
           if (0 <? functionArity sg f)%nat then []
           else if recordedFunction b f then map (fun c => (f, c)) (images f [])
           else [])
         (functionSymbols b);
     fm_functions :=
       flat_map (fun f =>
           if (functionArity sg f =? 0)%nat then []
           else if recordedFunction b f then
             flat_map (fun args => map (fun c => (f, args, c)) (images f args))
               (groundings (replicate (functionArity sg f) modelSize))
           else [])
         (functionSymbols b);
     fm_propositions :=
       flat_map (fun p =>
           if (0 <? predicateArity sg p)%nat then []
           else if recordedPredicate b p then [(p, predicateValue b holds lay modelSize p [])]
           else [])
         (predicateSymbols b);
     fm_predicates :=
       flat_map (fun p =>
           if (predicateArity sg p =? 0)%nat then []
           else if recordedPredicate b p then
             map (fun args => (p, args, predicateValue b holds lay modelSize p args))
               (groundings (replicate (predicateArity sg p) modelSize))
           else [])
         (predicateSymbols b) |}.

(** The loop that records a constant [f], with its assertions: [ASS(!found)]
    at every image that is true in the assignment and [ASS(found)] after the
    loop.  The result tells whether all of them hold. *)
Definition constantAssertions (holds : SATLiteral -> bool) (lay : Layout) (modelSize : Z)
    (f : nat) : bool :=
  let '(found, asserted) :=
    fold_left (fun '(found, asserted) c =>
        if holds (getSATLiteral lay f [c] true true modelSize)
        then (true, asserted && negb found)
        else (found, asserted))
      (upTo modelSize) (false, true) in
  asserted && found.

(** The loops [for(unsigned c=1;c<=modelSize;c++)] that record a constant or
    the image of an argument tuple never end when [modelSize] is [UINT_MAX];
    they are entered as soon as a function symbol is recorded. *)
Definition recordingNeverReturns (b : Builder) (modelSize : Z) : bool :=
  (UINT_MAX <=? modelSize) && existsb (recordedFunction b) (functionSymbols b).

Definition addFunctionDefinition (model : FiniteModel) (f : nat) (args : list Z) (res : Z)
    : FiniteModel :=
  {| fm_size := fm_size model; fm_constants := fm_constants model;
     fm_functions := fm_functions model ++ [(f, args, res)];
     fm_propositions := fm_propositions model; fm_predicates := fm_predicates model |}.

Definition addPredicateDefinition (model : FiniteModel) (p : nat) (args : list Z) (res : bool)
    : FiniteModel :=
  {| fm_size := fm_size model; fm_constants := fm_constants model;
     fm_functions := fm_functions model;
     fm_propositions := fm_propositions model;
     fm_predicates := fm_predicates model ++ [(p, args, res)] |}.

(** [vars[i] = app->nthArgument(i)->var()] for [i < arity]: [None] when an
    argument is read past the last one or when [var()] is called on an
    argument that is not a variable. *)
Definition variablesOf (arity : nat) (args : list Term) : option (list nat) :=
  if (length args <? arity)%nat then None
  else mapM (fun t => match t with Var v => Some v | App _ _ => None end) (take arity args).

(** The definition of an eliminated function [f] as lines 1251-1275 read it
    off the equality: the side headed by [f] is the application, whose
    variables are stored in [vars]; the other side is the definition.
    [None] when [term()] is called on a variable. *)
Definition functionDefinition (f arity : nat) (def : Term * Term) : option (list nat * Term) :=
  match fst def, snd def with
  | App g args0, App g1 args1 =>
      if (g =? f)%nat
      then option_map (fun vars => (vars, snd def)) (variablesOf arity args0)
      else option_map (fun vars => (vars, fst def)) (variablesOf arity args1)
  | _, _ => None
  end.

(** One run of the loop over the eliminated functions, lines 1247-1308, on
    the model built so far; [None] when the run reads or writes out of
    range.  With arity 0 the cells [grounding[i]] for [i < arity-1] and
    [grounding[arity-1]] lie outside the array. *)
Definition evaluateRemovedFunction (b : Builder) (ext : External) (modelSize : Z)
    (model : option FiniteModel) (f : nat) : option FiniteModel :=
  match model with
  | None => None
  | Some model =>
      let arity := functionArity (signature b) f in
      if nth f (introducedFunctions b) false then Some model
      else if negb (deletedFunction b f) then Some model
      else
        match functionDefinition f arity (deletedFunctions b f) with
        | None => None
        | Some (vars, funDef) =>
            if (arity =? 0)%nat then None
            else
              Some (fold_left (fun model grounding =>
                        match evaluateGroundTerm ext model funDef (combine vars grounding) with
                        | Some res => addFunctionDefinition model f grounding res
                        | None => model
                        end)
                      (groundings (replicate arity modelSize)) model)
        end
  end.

(** The symbols of a loop [for(unsigned f=count-1;f>1;f--)], for a [count]
    other than 0. *)
Definition downToTwo (count : nat) : list nat := rev (seq 2 (count - 2)).

(** The loop over the eliminated functions.  With no function symbol at all
    [functions()-1] is [UINT_MAX], and the first run reads the signature at
    that index. *)
Definition evaluateRemovedFunctions (b : Builder) (ext : External) (modelSize : Z)
    (model : FiniteModel) : option FiniteModel :=
  if (functions (signature b) =? 0)%nat then None
  else fold_left (evaluateRemovedFunction b ext modelSize)
         (downToTwo (functions (signature b))) (Some model).

(** What lines 1322-1376 make of the definition of a predicate [f]: a
    constant truth value, a formula to evaluate with the variables of the
    atom of [f] and the polarity to apply, or nothing. *)
Inductive PredicateDefinition :=
| Pure (polarity : bool)
| Defined (polarity : bool) (vars : list nat) (predDef : Formula)
| Ignored.

(** [None] when [left()] is called on a formula that is not an equivalence,
    [literal()] on one that is not a literal, or when the variables cannot be
    read. *)
Definition predicateDefinition (f arity : nat) (def : Formula) : option PredicateDefinition :=
  match def with
  | FORALL (IFF lhs rhs) =>
      let '(polarity, lhs) :=
        match lhs with NOT uarg => (false, uarg) | _ => (true, lhs) end in
      let '(polarity, rhs) :=
        match rhs with NOT uarg => (negb polarity, uarg) | _ => (polarity, rhs) end in
      let '(predApp, predDef) :=
        match lhs with
        | LITERAL _ p _ => if (p =? f)%nat then (lhs, rhs) else (rhs, lhs)
        | _ => (rhs, lhs)
        end in
      match predApp with
      | LITERAL positive _ args =>
          option_map (fun vars => Defined (if positive then polarity else negb polarity)
                                    vars predDef)
            (variablesOf arity args)
      | _ => None
      end
  | FORALL _ => None
  | TRUE => Some (Pure true)
  | FALSE => Some (Pure false)
  | _ => Some Ignored
  end.

(** One run of the loop over the eliminated predicates, lines 1312-1420.
    With arity 0 the cell [grounding[arity-1]] lies outside the array. *)
Definition evaluateRemovedPredicate (b : Builder) (ext : External) (modelSize : Z)
    (model : option FiniteModel) (f : nat) : option FiniteModel :=
  match model with
  | None => None
  | Some model =>
      let arity := predicateArity (signature b) f in
      let partial := nth f (partiallyDeletedPredicates b) false in
      if nth f (introducedPredicates b) false then Some model
      else if negb (deletedPredicate b f) && negb partial then Some model
      else
        let def := if deletedPredicate b f then deletedPredicates b f
                   else partialDefinitions b f in
        match predicateDefinition f arity def with
        | None => None
        | Some Ignored => Some model
        | Some (Pure polarity) =>
            if (arity =? 0)%nat then None
            else
              Some (fold_left (fun model grounding =>
                        addPredicateDefinition model f grounding polarity)
                      (groundings (replicate arity modelSize)) model)
        | Some (Defined polarity vars predDef) =>
            if (arity =? 0)%nat then None
            else
              Some (fold_left (fun model grounding =>
                        match evaluate ext model predDef (combine vars grounding) with
                        | Some res =>
                            addPredicateDefinition model f grounding
                              (if polarity then res else negb res)
                        | None => model
                        end)
                      (groundings (replicate arity modelSize)) model)
        end
  end.

Definition evaluateRemovedPredicates (b : Builder) (ext : External) (modelSize : Z)
    (model : FiniteModel) : option FiniteModel :=
  if (predicates (signature b) =? 0)%nat then None
  else fold_left (evaluateRemovedPredicate b ext modelSize)
         (downToTwo (predicates (signature b))) (Some model).

(** [onModelFound]: nothing is done when proof output is off; otherwise the
    interpretation is read off the assignment, the eliminated functions and
    then the eliminated predicates are evaluated in it, and the text of the
    model is stored in [env.statistics->model]. *)
Definition onModelFound (b : Builder) (ext : External) (lay : Layout) (varCount : Z)
    (clausesToBeAdded : list SATClause) (modelSize : Z) (model : option string)
    : ModelOutcome :=
  match proof (opt b) with
  | PROOF_OFF => ModelRecorded model
  | PROOF_ON =>
      if recordingNeverReturns b modelSize then ModelNeverReturns
      else
        let recorded :=
          recordModel b (trueInAssignment ext varCount clausesToBeAdded) lay modelSize in
        match evaluateRemovedFunctions b ext modelSize recorded with
        | None => ModelUndefined
        | Some withFunctions =>
            match evaluateRemovedPredicates b ext modelSize withFunctions with
            | None => ModelUndefined
            | Some evaluated => ModelRecorded (Some (toString ext evaluated))
            end
        end
  end.

(** The part of [runImpl] before the loop that lowers [_maxModelSize]. *)
Definition largestConstantSort (ss : SortedSignature) : Z :=
  fold_left (fun max s =>
      let c := Z.of_nat (length (nth s (sortedConstants ss) [])) in
      if max <? c then c else max)
    (seq 0 (sorts ss)) 1.

Definition maxModelSize (b : Builder) : Z :=
  let fromInit := initMaxModelSize b in
  if isEPR b || (maxArity b =? 0)%nat then
    let max := largestConstantSort (sortedSignature b) in
    if max <? fromInit then max else fromInit
  else fromInit.

Definition startModelSize (b : Builder) : Z :=
  wrap (if fmbStartWithConstants (opt b) then constantCount b else fmbStartSize (opt b)).

(** The [while(true)] loop of [runImpl], entered with the fields [lay] that
    the last [reset] left.  [modelSize] is an [unsigned], so the test
    [modelSize == UINT_MAX] is [UINT_MAX <= modelSize].  The symmetry axioms
    are asked first whether they read past a stack or never return. *)
Equations? searchLoop (b : Builder) (ext : External) (modelSize : Z) (lay : Layout)
    : Outcome by wf (Z.to_nat (UINT_MAX - modelSize)) lt :=
  searchLoop b ext modelSize lay :=
    if timeLimitReached ext modelSize
    then Finished (mkMainLoopResult Statistics.TIME_LIMIT None) None
    else if existsb (orderingReadsPastEnd modelSize) (sortedGroundedTerms lay)
    then UndefinedBehaviour
    else if existsb (orderingNeverReturns modelSize) (sortedGroundedTerms lay)
    then NeverReturns
    else
      let clausesToBeAdded := encode b lay modelSize (maxModelSize b) in
      match solverVarCount lay with
      | None => UndefinedBehaviour
      | Some varCount =>
          match solve ext varCount clausesToBeAdded with
          | SATSolver.SATISFIABLE =>
              match onModelFound b ext lay varCount clausesToBeAdded modelSize None with
              | ModelRecorded model =>
                  Finished (mkMainLoopResult Statistics.SATISFIABLE None) model
              | ModelUndefined => UndefinedBehaviour
              | ModelNeverReturns => NeverReturns
              end
          | _ =>
              match Z_le_gt_dec UINT_MAX modelSize with
              | left _ => Finished (mkMainLoopResult Statistics.UNKNOWN None) None
              | right _ =>
                  if maxModelSize b <=? modelSize
                  then Finished (mkMainLoopResult Statistics.REFUTATION (Some emptyClause)) None
                  else
                    let (ok, lay') := reset b lay (modelSize + 1) in
                    if ok then
                      if resetNeverReturns b (modelSize + 1) then NeverReturns
                      else searchLoop b ext (modelSize + 1) lay'
                    else Finished (mkMainLoopResult Statistics.UNKNOWN None) None
              end
          end
      end.
Proof. all: lia. Qed.

(** [runImpl].  [ALWAYS(reset(modelSize))] asserts in a debug build and only
    evaluates the call otherwise; in both it waits for the call to return. *)
Definition runImpl (b : Builder) (ext : External) : Outcome :=
  if negb (complete (opt b))
  then Finished (mkMainLoopResult Statistics.UNKNOWN None) None
  else
    let modelSize := startModelSize b in
    let (ok, lay) := reset b (initialLayout b) modelSize in
    if ok && resetNeverReturns b modelSize then NeverReturns
    else if vdebug b && negb ok then AssertionViolation
    else searchLoop b ext modelSize lay.

(** ** Vocabulary of the statements *)

(** Truth of literals, clauses and clause sets under an assignment of the
    propositional variables. *)
Definition evalLit (a : Z -> bool) (l : SATLiteral) : bool :=
  Bool.eqb (a (lit_var l)) (lit_polarity l).

Definition evalClause (a : Z -> bool) (cl : SATClause) : bool := existsb (evalLit a) cl.

Definition evalCNF (a : Z -> bool) (cnf : list SATClause) : bool := forallb (evalClause a) cnf.

(** What the encoder relies on from [removeDuplicateLiterals]: a clause it
    returns has the literals of the clause it was given, and it returns no
    clause only for a clause that holds a variable in both polarities. *)
Definition keepsLiterals (rdl : SATClause -> option SATClause) : Prop :=
  forall cl,
    match rdl cl with
    | Some cl' => forall l, In l cl' <-> In l cl
    | None => exists v, In (mkSATLiteral v true) cl /\ In (mkSATLiteral v false) cl
    end.

(** A two-variable (dis)equality that holds under the grounding whatever the
    model: [x = y] with equal values, [x ≠ y] with different ones. *)
Definition triviallyTrue (grounding : list Z) (lit : Literal) : bool :=
  match lit with
  | TwoVarEquality positive x y =>
      let equal := valueOf grounding x =? valueOf grounding y in
      (positive && equal) || (negb positive && negb equal)
  | _ => false
  end.

(** The SAT literal of a definition equality or of a predicate atom under a
    grounding; a two-variable equality has none. *)
Definition translateLiteral (lay : Layout) (size : Z) (grounding : list Z) (lit : Literal)
    : option SATLiteral :=
  match lit with
  | TwoVarEquality _ _ _ => None
  | FunctionEquality pol f args y =>
      Some (getSATLiteral lay f (map (valueOf grounding) args ++ [valueOf grounding y])
              pol true size)
  | PredicateAtom pol p args =>
      Some (getSATLiteral lay p (map (valueOf grounding) args) pol false size)
  end.

(** The literal [[t = image]] (or its negation) of a grounded term [t]. *)
Definition termLiteral (lay : Layout) (sg : Signature) (size : Z) (gt : GroundedTerm)
    (image : Z) (pol : bool) : SATLiteral :=
  getSATLiteral lay (gt_f gt)
    (termGrounding (functionArity sg (gt_f gt)) (gt_grounding gt) image) pol true size.

(** A [float] that is a number: a zero or a finite value. *)
Definition finiteFloat (x : spec_float) : bool :=
  match x with
  | S754_zero _ | S754_finite _ _ _ => true
  | S754_infinity _ | S754_nan => false
  end.

(** The real number a [float] stands for (0 for an infinity and a NaN). *)
Definition floatValue (x : spec_float) : Q :=
  match x with
  | S754_finite s m e =>
      if 0 <=? e then inject_Z (cond_Zopp s (Zpos m) * 2 ^ e)
      else Qmake (cond_Zopp s (Zpos m)) (Z.to_pos (2 ^ (- e)))
  | _ => 0%Q
  end.

(** A mantissa that is not negative and has at most [d] binary digits. *)
Definition mantissaWithin (d : Z) (m : Z) : Prop := 0 <= m /\ Zdigits2 m <= d.

(** The integer part of a rational, the fraction being discarded. *)
Definition integerPart (q : Q) : Z := Z.quot (Qnum q) (Zpos (Qden q)).

(** The clause [¬[G[i] = n] ∨ ⋁_{j<i} [G[j] = n − 1]]. *)
Definition canonicityClause (lay : Layout) (sg : Signature) (n : Z)
    (G : list GroundedTerm) (i : nat) : SATClause :=
  termLiteral lay sg n (nth i G dummyGroundedTerm) n false
  :: map (fun j => termLiteral lay sg n (nth j G dummyGroundedTerm) (n - 1) true) (seq 0 i).

(** The clauses for [i] in [[1 .. w − 1]]. *)
Definition canonicityLayer (lay : Layout) (sg : Signature) (n : Z)
    (G : list GroundedTerm) (w : Z) : list SATClause :=
  map (canonicityClause lay sg n G) (seq 1 (Z.to_nat w - 1)).

(** The buffer after a list of clauses has gone through [addSATClause]. *)
Definition emitted (b : Builder) (cls : list SATClause) (buf : list SATClause)
    : list SATClause :=
  buf ++ omap (removeDuplicateLiterals b) cls.

(** The total size of the blocks that the symbols of [syms] which are not
    deleted get at size [n], a block being [n ^ blockExp s] variables. *)
Definition blocks (deleted : nat -> bool) (blockExp : nat -> nat) (n : Z) (syms : list nat) : Z :=
  foldr (fun s acc => if deleted s then acc else n ^ Z.of_nat (blockExp s) + acc) 0 syms.

Definition functionBlocks (b : Builder) (n : Z) (syms : list nat) : Z :=
  blocks (deletedFunction b) (functionBlockExp b) n syms.

Definition predicateBlocks (b : Builder) (n : Z) (syms : list nat) : Z :=
  blocks (deletedPredicate b) (predicateBlockExp b) n syms.

(** Every block of a live symbol of the list is an unsigned value, so that
    [pow(size, e)] is converted exactly. *)
Definition blocksFit (deleted : nat -> bool) (blockExp : nat -> nat) (n : Z)
    (syms : list nat) : Prop :=
  forall s, In s syms -> deleted s = false -> n ^ Z.of_nat (blockExp s) <= UINT_MAX.

(** The last offset of [reset]: 1 plus all blocks. *)
Definition totalVars (b : Builder) (n : Z) : Z :=
  1 + functionBlocks b n (functionSymbols b) + predicateBlocks b n (predicateSymbols b).

(** The count of the spec: [1 + Σ_f n^(arity(f)+1) + Σ_p n^(arity(p))] over
    the live symbols. *)
Definition specTotalVars (b : Builder) (n : Z) : Z :=
  1 + blocks (deletedFunction b) (fun f => S (functionArity (signature b) f)) n (functionSymbols b)
    + blocks (deletedPredicate b) (predicateArity (signature b)) n (predicateSymbols b).

(** Where the block of a live symbol starts and how long it is. *)
Definition blockStart (b : Builder) (n : Z) (isFunction : bool) (s : nat) : Z :=
  if isFunction then 1 + functionBlocks b n (seq 0 s)
  else 1 + functionBlocks b n (functionSymbols b) + predicateBlocks b n (seq 1 (s - 1)).

Definition blockSize (b : Builder) (n : Z) (isFunction : bool) (s : nat) : Z :=
  if isFunction then n ^ Z.of_nat (functionBlockExp b s) else n ^ Z.of_nat (predicateBlockExp b s).

(** A live symbol with an in-bounds tuple: a function with its arguments and
    image, or a predicate other than equality with its arguments, all in
    [[1..n]]. *)
Definition liveSymbol (b : Builder) (isFunction : bool) (s : nat) : Prop :=
  if isFunction
  then (s < functions (signature b))%nat /\ deletedFunction b s = false
  else (1 <= s < predicates (signature b))%nat /\ deletedPredicate b s = false.

Definition tupleLength (b : Builder) (isFunction : bool) (s : nat) : nat :=
  if isFunction then S (functionArity (signature b) s) else predicateArity (signature b) s.

Definition inBounds (b : Builder) (n : Z) (isFunction : bool) (s : nat) (tuple : list Z) : Prop :=
  liveSymbol b isFunction s
  /\ length tuple = tupleLength b isFunction s
  /\ Forall (fun d => 1 <= d <= n) tuple.

(** The place of a counter in its cycle, from 0: a counter with a bound
    [m >= 1] runs 1, 2, ..., [m]; one with bound 0 runs 1, 2, ...,
    [UINT_MAX], 0. *)
Definition counterIndex (m g : Z) : Z := if m =? 0 then wrap (g - 1) else g - 1.

(** The position of a state of the counters in the enumeration, the arrays
    being read from the last cell to the first: the mixed-radix number whose
    digits are the places of the counters. *)
Fixpoint rank (rmins rgrounding : list Z) : Z :=
  match rgrounding, rmins with
  | g :: rest, m :: rmins' => counterIndex m g + counterPeriod m * rank rmins' rest
  | _, _ => 0
  end.

(** All counters within [[1 .. bound]]. *)
Definition withinBounds (grounding mins : list Z) : Prop :=
  Forall2 (fun g m => 1 <= g <= m) grounding mins.

(** All counters on their cycles. *)
Definition onCycle (g m : Z) : Prop :=
  if m =? 0 then 0 <= g <= UINT_MAX else 1 <= g <= m.

Definition onCycles (grounding mins : list Z) : Prop := Forall2 onCycle grounding mins.

(** The counters between two runs of the body: on their cycles, except that
    the last counter is 0 before the first run. *)
Definition counterState (rmins rgrounding : list Z) : Prop :=
  match rgrounding, rmins with
  | g :: rest, m :: rmins' => (onCycle g m \/ g = 0) /\ onCycles rest rmins'
  | [], [] => True
  | _, _ => False
  end.

Definition product (l : list Z) : Z := fold_right Z.mul 1 l.

(** The answer of the solver in the round of size [n] entered with the
    fields [lay]: none when the time limit is reached, when the symmetry
    axioms read past a stack or never return, or when no solver exists. *)
Definition roundAnswer (b : Builder) (ext : External) (n : Z) (lay : Layout)
    : option SATSolver.Status :=
  if timeLimitReached ext n then None
  else if existsb (orderingReadsPastEnd n) (sortedGroundedTerms lay) then None
  else if existsb (orderingNeverReturns n) (sortedGroundedTerms lay) then None
  else match solverVarCount lay with
       | None => None
       | Some varCount => Some (solve ext varCount (encode b lay n (maxModelSize b)))
       end.

(** [roundsFrom b ext n lay n' lay']: starting with the round of size [n],
    the loop gets to the round of size [n'] through rounds that are
    unsatisfiable, below [UINT_MAX] and below [_maxModelSize], each followed
    by a successful [reset] of the next size. *)
Inductive roundsFrom (b : Builder) (ext : External) : Z -> Layout -> Z -> Layout -> Prop :=
| rounds_here n lay : roundsFrom b ext n lay n lay
| rounds_next n lay lay1 n' lay' :
    roundAnswer b ext n lay = Some SATSolver.UNSATISFIABLE ->
    n < UINT_MAX ->
    n < maxModelSize b ->
    reset b lay (n + 1) = (true, lay1) ->
    roundsFrom b ext (n + 1) lay1 n' lay' ->
    roundsFrom b ext n lay n' lay'.



Definition refuted : Outcome :=
  Finished (mkMainLoopResult Statistics.REFUTATION (Some emptyClause)) None.

Definition gaveUp : Outcome :=
  Finished (mkMainLoopResult Statistics.UNKNOWN None) None.

(** The reason an outcome carries, if the call returned. *)
Definition reasonOf (o : Outcome) : option Statistics.TerminationReason :=
  match o with
  | Finished res _ => Some (terminationReason res)
  | _ => None
  end.

(** ** Reference instances of the parameters and small problems *)

(** Modelled from the spec: [Preprocess::removeDuplicateLiterals]
    (SAT/Preprocess.cpp is missing).  "Duplicate-literal removal": every
    literal is kept once; the caller's test for a null result is met by
    returning no clause for a clause that holds a variable in both
    polarities. *)
Definition sameLiteral (l1 l2 : SATLiteral) : bool :=
  (lit_var l1 =? lit_var l2) && Bool.eqb (lit_polarity l1) (lit_polarity l2).

Definition complementary (l1 l2 : SATLiteral) : bool :=
  (lit_var l1 =? lit_var l2) && negb (Bool.eqb (lit_polarity l1) (lit_polarity l2)).

Fixpoint dedup (cl : SATClause) : SATClause :=
  match cl with
  | [] => []
  | l :: rest => if existsb (sameLiteral l) rest then dedup rest else l :: dedup rest
  end.

Definition removeDuplicateLiterals_ref (cl : SATClause) : option SATClause :=
  if existsb (fun l => existsb (complementary l) cl) cl then None else Some (dedup cl).

(** A builder for a small problem: nothing deleted or introduced, the
    reference duplicate removal, release build. *)
Definition problem (functionArities predicateArities : list nat)
    (ss : SortedSignature) (o : Options) (cls ground : list Clause) (epr : bool) : Builder :=
  {| signature := {| functionArities := functionArities;
                     predicateArities := predicateArities |};
     opt := o;
     del_f := map (fun _ => false) functionArities;
     del_p := map (fun _ => false) predicateArities;
     sortedSignature := ss;
     flattened := cls ++ ground;
     clauses := cls;
     groundClauses := ground;
     isEPR := epr;
     introducedFunctions := [];
     introducedPredicates := [];
     partiallyDeletedPredicates := [];
     trivialPredicates := [];
     removeDuplicateLiterals := removeDuplicateLiterals_ref;
     outOfRange := fun _ => 0;
     vdebug := false;
     deletedFunctions := fun _ => (Var 0, Var 0);
     deletedPredicates := fun _ => OTHER;
     partialDefinitions := fun _ => OTHER |}.

Definition debugBuild (b : Builder) : Builder :=
  {| signature := signature b; opt := opt b; del_f := del_f b; del_p := del_p b;
     sortedSignature := sortedSignature b; flattened := flattened b;
     clauses := clauses b; groundClauses := groundClauses b; isEPR := isEPR b;
     introducedFunctions := introducedFunctions b;
     introducedPredicates := introducedPredicates b;
     partiallyDeletedPredicates := partiallyDeletedPredicates b;
     trivialPredicates := trivialPredicates b;
     removeDuplicateLiterals := removeDuplicateLiterals b;
     outOfRange := outOfRange b; vdebug := true;
     deletedFunctions := deletedFunctions b;
     deletedPredicates := deletedPredicates b;
     partialDefinitions := partialDefinitions b |}.

(** The [float] nearest to a ratio given as a fraction of two integers that
    are [float]s themselves. *)
Definition floatOfRatio (ratio : Q) : spec_float :=
  SFdiv float_prec float_emax
    (binary_normalize float_prec float_emax (Qnum ratio) 0 false)
    (binary_normalize float_prec float_emax (Zpos (Qden ratio)) 0 false).

Definition options (start : Z) (ratio : Q) (p : ProofOption) : Options :=
  {| complete := true; fmbStartSize := start; fmbStartWithConstants := false;
     fmbSymmetryRatio := floatOfRatio ratio;
     fmbSymmetryWidgetOrders := FUNCTION_FIRST; proof := p |}.

(** One sort with the constant [a] (function 0) and the unary function [f]
    (function 1), the predicate [p] (predicate 1), no bound below [UINT_MAX],
    and the clause [f(x0) = x1 | ~p(x1) | x0 != x1]. *)
Definition oneSort : Builder :=
  problem [O; 1%nat] [2%nat; 1%nat]
    {| sorts := 1; sortedConstants := [[O]]; sortedFunctions := [[1%nat]];
       functionBounds := [[UINT_MAX]; [UINT_MAX; UINT_MAX]];
       predicateBounds := [[]; [UINT_MAX]] |}
    (options 1 1 PROOF_ON)
    [ {| varCnt := 2;
         literals := [FunctionEquality true 1 [O] 1%nat; PredicateAtom false 1 [1%nat];
                      TwoVarEquality false 0 1] |} ]
    [] false.

(** The fields of [oneSort] after [reset(2)]. *)
Definition oneSortLayout : Layout := snd (reset oneSort (initialLayout oneSort) 2).

(** Two sorts: the constant [a] (function 0) alone in a sort bounded by 1;
    the constant [b] (function 1) and the unary function [f] (function 2) in
    an unbounded sort; and the clause [f(x0) != x1 | x0 != x1], which has no
    model of size 1. *)
Definition boundedSort : Builder :=
  problem [O; O; 1%nat] [2%nat]
    {| sorts := 2; sortedConstants := [[O]; [1%nat]]; sortedFunctions := [[]; [2%nat]];
       functionBounds := [[1]; [UINT_MAX]; [UINT_MAX; UINT_MAX]];
       predicateBounds := [[]] |}
    (options 1 1 PROOF_ON)
    [ {| varCnt := 2;
         literals := [FunctionEquality false 2 [O] 1%nat; TwoVarEquality false 0 1] |} ]
    [] false.

Definition boundedSortLayout : Layout :=
  snd (reset boundedSort (initialLayout boundedSort) 2).

(** Two constants of one sort, with a symmetry ratio. *)
Definition twoConstants (start : Z) (ratio : Q) (p : ProofOption) : Builder :=
  problem [O; O] [2%nat]
    {| sorts := 1; sortedConstants := [[O; 1%nat]]; sortedFunctions := [[]];
       functionBounds := [[UINT_MAX]; [UINT_MAX]]; predicateBounds := [[]] |}
    (options start ratio p) [] [] true.

(** Three constants in two sorts, an EPR problem. *)
Definition threeConstants : Builder :=
  problem [O; O; O] [2%nat]
    {| sorts := 2; sortedConstants := [[O]; [1%nat; 2%nat]]; sortedFunctions := [[]; []];
       functionBounds := [[UINT_MAX]; [UINT_MAX]; [UINT_MAX]]; predicateBounds := [[]] |}
    (options 1 1 PROOF_ON) [] [] true.

(** One constant [a] and a unary predicate [p] (predicate 1) of one sort, and
    the clause [p(x0) | ~p(x1) | x0 != x1]. *)
Definition congruence : Builder :=
  problem [O] [2%nat; 1%nat]
    {| sorts := 1; sortedConstants := [[O]]; sortedFunctions := [[]];
       functionBounds := [[UINT_MAX]]; predicateBounds := [[]; [UINT_MAX]] |}
    (options 1 1 PROOF_ON)
    [ {| varCnt := 2;
         literals := [PredicateAtom true 1 [O]; PredicateAtom false 1 [1%nat];
                      TwoVarEquality false 0 1] |} ]
    [] false.

(** Collaborators: a clock that never runs out, a solver with a fixed answer
    and a fixed assignment. *)
Definition oracle (answer : SATSolver.Status) (a : Z -> bool) : External :=
  {| timeLimitReached := fun _ => false;
     solve := fun _ _ => answer;
     trueInAssignment := fun _ _ l => evalLit a l;
     evaluateGroundTerm := fun _ _ _ => None;
     evaluate := fun _ _ _ => None;
     toString := fun _ => "model"%string |}.

(** A solver that only tries the assignment [a]: a clause set that [a]
    satisfies is SATISFIABLE with [a], any other one counts as
    UNSATISFIABLE. *)
Definition trying (a : Z -> bool) : External :=
  {| timeLimitReached := fun _ => false;
     solve := fun _ cnf =>
       if evalCNF a cnf then SATSolver.SATISFIABLE else SATSolver.UNSATISFIABLE;
     trueInAssignment := fun _ _ l => evalLit a l;
     evaluateGroundTerm := fun _ _ _ => None;
     evaluate := fun _ _ _ => None;
     toString := fun _ => "model"%string |}.

(** The assignment that makes exactly the listed variables true. *)
Definition trueAt (vars : list Z) (v : Z) : bool := existsb (Z.eqb v) vars.

(** No symbol besides equality: an EPR problem started at [UINT_MAX]. *)
Definition noSymbols (start : Z) : Builder :=
  problem [] [2%nat]
    {| sorts := 0; sortedConstants := []; sortedFunctions := [];
       functionBounds := []; predicateBounds := [[]] |}
    (options start 1 PROOF_ON) [] [] true.

(** Two unary functions of one sort. *)
Definition twoUnary (start : Z) : Builder :=
  problem [1%nat; 1%nat] [2%nat]
    {| sorts := 1; sortedConstants := [[]]; sortedFunctions := [[O; 1%nat]];
       functionBounds := [[UINT_MAX; UINT_MAX]; [UINT_MAX; UINT_MAX]];
       predicateBounds := [[]] |}
    (options start 1 PROOF_ON) [] [] false.

(** The canonicity layer as the spec words it, with
    [w = min(⌈ratio · maxSize⌉, |G|)] and no guard on the size. *)
Definition specCanonicityLayer (b : Builder) (lay : Layout) (n : Z)
    (G : list GroundedTerm) (maxSize : Z) : list SATClause :=
  canonicityLayer lay (signature b) n G
    (Z.min (Qceiling (floatValue (fmbSymmetryRatio (opt b)) * inject_Z maxSize))
       (Z.of_nat (length G))).

(** ** Vocabulary of the further properties

    The loops of the source that run while [m <= size] do not end for
    [size = UINT_MAX]; a property that rests on such a loop is stated for the
    sizes below [UINT_MAX]. *)

(** The tuples within the bounds in the order in which nested [for] loops
    visit them, the first cell in the outermost loop. *)
Fixpoint tuples (mins : list Z) : list (list Z) :=
  match mins with
  | [] => [[]]
  | m :: rest => flat_map (fun d => map (cons d) (tuples rest)) (upTo m)
  end.

(** A list whose elements come in strictly increasing order of a measure. *)
Fixpoint increasing {A : Type} (r : A -> Z) (l : list A) : Prop :=
  match l with
  | [] => True
  | x :: rest => Forall (fun y => r x < r y) rest /\ increasing r rest
  end.

(** The place of a grounding in the enumeration of the counters. *)
Definition place (mins grounding : list Z) : Z := rank (rev mins) (rev grounding).

(** An instance of a flat clause holds under an assignment of the
    propositional variables: one of its two-variable (dis)equalities is true
    under the grounding, or one of its other literals is true in the
    assignment. *)
Definition instanceHolds (a : Z -> bool) (lay : Layout) (size : Z) (c : Clause)
    (grounding : list Z) : bool :=
  existsb (triviallyTrue grounding) (literals c)
  || evalClause a (omap (translateLiteral lay size grounding) (literals c)).

(** A ground clause holds under an assignment: the variable of one of its
    propositional symbols, the cell of the symbol in [p_offsets], has the
    value of the literal's polarity. *)
Definition groundClauseHolds (a : Z -> bool) (lay : Layout) (c : Clause) : bool :=
  existsb (fun lit => Bool.eqb (a (p_offsets lay !!! functor lit)) (polarity lit)) (literals c).

(** The first value other than 0 of a list, 0 if there is none. *)
Definition firstNonZero (l : list Z) : Z :=
  hd 0 (List.filter (fun bound => negb (bound =? 0)) l).

(** Closes a goal by cases on the tests for 0 it holds. *)
Ltac by_cases_on_zero :=
  repeat match goal with
         | |- context [?x =? 0] => destruct (Z.eqb_spec x 0)
         end;
  try reflexivity; try congruence; try lia.

(** The bounds of the symbol positions at which the variable [v] occurs in
    a literal, in the order in which [init] looks at them: the result of a
    function, then its arguments; the arguments of a predicate.  A
    two-variable equality has no symbol position. *)
Definition occurrences (v : nat) (bound : nat -> Z) (args : list nat) : list Z :=
  omap (fun '(j, avar) => if (avar =? v)%nat then Some (bound j) else None)
    (imap (fun j avar => (j, avar)) args).

Definition positionBounds (ss : SortedSignature) (v : nat) (lit : Literal) : list Z :=
  match lit with
  | TwoVarEquality _ _ _ => []
  | FunctionEquality _ f args y =>
      (if (y =? v)%nat then [fbound ss f 0] else [])
      ++ occurrences v (fun j => fbound ss f (S j)) args
  | PredicateAtom _ p args => occurrences v (pbound ss p) args
  end.

(** A positive equality between two different variables. *)
Definition distinctVariables (l : Literal) : bool :=
  match l with
  | TwoVarEquality true x y => negb (x =? y)%nat
  | _ => false
  end.

(** A non-ground clause made of such equalities only. *)
Definition limitsModelSize (c : Clause) : bool :=
  negb (varCnt c =? 0)%nat && forallb distinctVariables (literals c).

(** A function term [(f, grounding)] that respects the bounds of [f] at
    size [size]: the range of [f] is not bounded below [size] and no argument
    of [f] is bounded below [grounding]. *)
Definition respectsBounds (b : Builder) (size : Z) (gt : GroundedTerm) : Prop :=
  size <= fbound (sortedSignature b) (gt_f gt) 0
  /\ forall i, (i < functionArity (signature b) (gt_f gt))%nat ->
               gt_grounding gt <= fbound (sortedSignature b) (gt_f gt) (S i).

(** The propositional variable of [f(args) = e] at size [n]. *)
Definition imageVar (lay : Layout) (n : Z) (f : nat) (args : list Z) (e : Z) : Z :=
  lit_var (getSATLiteral lay f (args ++ [e]) true true n).

(** In the assignment [a] the function [f] has exactly one image for
    [args] among [1 .. min(n, fbounds[f][0])]. *)
Definition oneImage (b : Builder) (a : Z -> bool) (lay : Layout) (n : Z) (f : nat)
    (args : list Z) : Prop :=
  exists e,
    (1 <= e <= Z.min n (fbound (sortedSignature b) f 0) /\ a (imageVar lay n f args e) = true)
    /\ forall e',
         1 <= e' <= Z.min n (fbound (sortedSignature b) f 0) ->
         a (imageVar lay n f args e') = true -> e' = e.

(** The fields at the round of size [n0 + k] of a run that entered the
    loop at size [n0] with the fields [lay0]: [reset] has been called once
    for every size in between. *)
Fixpoint layoutAt (b : Builder) (n0 : Z) (lay0 : Layout) (k : nat) : Layout :=
  match k with
  | O => lay0
  | S k' => snd (reset b (layoutAt b n0 lay0 k') (n0 + Z.of_nat k' + 1))
  end.

(** The round of size [n] is followed by the round of size [n + 1]: the
    solver did not answer SATISFIABLE, [n] is below [UINT_MAX] and below
    [_maxModelSize], and [reset] returns [true] for [n + 1]. *)
Definition continues (b : Builder) (ext : External) (n : Z) (lay : Layout) : Prop :=
  (exists answer, roundAnswer b ext n lay = Some answer /\ answer <> SATSolver.SATISFIABLE)
  /\ n < UINT_MAX /\ n < maxModelSize b /\ fst (reset b lay (n + 1)) = true
  /\ resetNeverReturns b (n + 1) = false.

(** What a round that is not followed by another one ends the loop with. *)
Definition verdict (b : Builder) (ext : External) (n : Z) (lay : Layout) : Outcome :=
  match roundAnswer b ext n lay with
  | None =>
      if timeLimitReached ext n
      then Finished (mkMainLoopResult Statistics.TIME_LIMIT None) None
      else if existsb (orderingReadsPastEnd n) (sortedGroundedTerms lay)
      then UndefinedBehaviour
      else if existsb (orderingNeverReturns n) (sortedGroundedTerms lay)
      then NeverReturns
      else UndefinedBehaviour
  | Some SATSolver.SATISFIABLE =>
      match solverVarCount lay with
      | Some varCount =>
          match onModelFound b ext lay varCount (encode b lay n (maxModelSize b)) n None with
          | ModelRecorded model =>
              Finished (mkMainLoopResult Statistics.SATISFIABLE None) model
          | ModelUndefined => UndefinedBehaviour
          | ModelNeverReturns => NeverReturns
          end
      | None => UndefinedBehaviour
      end
  | Some _ =>
      if UINT_MAX <=? n then gaveUp
      else if maxModelSize b <=? n then refuted
      else if fst (reset b lay (n + 1)) then NeverReturns
      else gaveUp
  end.

(** The model extractor returns in the round of size [n]. *)
Definition extracts (b : Builder) (ext : External) (n : Z) (lay : Layout) : Prop :=
  exists varCount model,
    solverVarCount lay = Some varCount
    /\ onModelFound b ext lay varCount (encode b lay n (maxModelSize b)) n None
       = ModelRecorded model.


(** ** addUseModelSize

    The function is not called: its call in [runImpl] is commented out. *)

(** The literals pushed for one grounded term: [c = size] for a constant
    and [f(m) = size] for every [m] in [1 .. size] for a unary function,
    whatever the grounding of the term.  (An arity above 1 does not occur,
    the function returning at once when [_maxArity > 1].) *)
Definition useModelSizeLits (b : Builder) (lay : Layout) (size : Z) (gt : GroundedTerm)
    : list SATLiteral :=
  if (functionArity (signature b) (gt_f gt) =? 0)%nat
  then [getSATLiteral lay (gt_f gt) [size] true true size]
  else map (fun m => getSATLiteral lay (gt_f gt) [m; size] true true size) (upTo size).

Definition addUseModelSize (b : Builder) (lay : Layout) (size : Z) (buf : list SATClause)
    : list SATClause :=
  if (1 <? maxArity b)%nat then buf
  else
    addSATClause b
      (flat_map (fun s =>
           flat_map (useModelSizeLits b lay size) (nth s (sortedGroundedTerms lay) []))
         (seq 0 (sorts (sortedSignature b))))
      buf.

(** A clause of two variables made of positive equalities between them. *)
Definition equatesTwoVariables (c : Clause) : Prop :=
  varCnt c = 2%nat
  /\ Forall (fun lit => lit = TwoVarEquality true 0 1 \/ lit = TwoVarEquality true 1 0)
       (literals c).

(** A literal whose variable is in [1 .. bound - 1], and a buffer all of
    whose literals are. *)
Definition addressed (bound : Z) (l : SATLiteral) : Prop := 1 <= lit_var l < bound.

Definition addresses (bound : Z) (buf : list SATClause) : Prop :=
  Forall (Forall (addressed bound)) buf.

(** A literal of a flat clause of [varCnt] variables over the live symbols:
    the symbol is live, it has as many arguments as its arity, and the
    variables are variables of the clause. *)
Definition wellFormedLiteral (b : Builder) (varCnt : nat) (lit : Literal) : Prop :=
  match lit with
  | TwoVarEquality _ _ _ => True
  | FunctionEquality _ f args y =>
      liveSymbol b true f /\ length args = functionArity (signature b) f
      /\ (y < varCnt)%nat /\ Forall (fun v => (v < varCnt)%nat) args
  | PredicateAtom _ p args =>
      liveSymbol b false p /\ length args = predicateArity (signature b) p
      /\ Forall (fun v => (v < varCnt)%nat) args
  end.

(** ** Further small problems *)

(** The same problem with another widget order. *)
Definition withWidgetOrder (order : FMBWidgetOrders) (b : Builder) : Builder :=
  {| signature := signature b;
     opt := {| complete := complete (opt b); fmbStartSize := fmbStartSize (opt b);
               fmbStartWithConstants := fmbStartWithConstants (opt b);
               fmbSymmetryRatio := fmbSymmetryRatio (opt b);
               fmbSymmetryWidgetOrders := order; proof := proof (opt b) |};
     del_f := del_f b; del_p := del_p b;
     sortedSignature := sortedSignature b; flattened := flattened b;
     clauses := clauses b; groundClauses := groundClauses b; isEPR := isEPR b;
     introducedFunctions := introducedFunctions b;
     introducedPredicates := introducedPredicates b;
     partiallyDeletedPredicates := partiallyDeletedPredicates b;
     trivialPredicates := trivialPredicates b;
     removeDuplicateLiterals := removeDuplicateLiterals b;
     outOfRange := outOfRange b; vdebug := vdebug b;
     deletedFunctions := deletedFunctions b;
     deletedPredicates := deletedPredicates b;
     partialDefinitions := partialDefinitions b |}.

(** Two propositional symbols [p] and [q] (predicates 1 and 2) and the
    ground clause [p | ~q]. *)
Definition propositional : Builder :=
  problem [] [2%nat; O; O]
    {| sorts := 0; sortedConstants := []; sortedFunctions := [];
       functionBounds := []; predicateBounds := [[]; []; []] |}
    (options 1 1 PROOF_ON)
    []
    [ {| varCnt := 0; literals := [PredicateAtom true 1 []; PredicateAtom false 2 []] |} ]
    true.

(** One constant and the clause [x0 = x1]. *)
Definition allEqual : Builder :=
  problem [O] [2%nat]
    {| sorts := 1; sortedConstants := [[O]]; sortedFunctions := [[]];
       functionBounds := [[UINT_MAX]]; predicateBounds := [[]] |}
    (options 1 1 PROOF_ON)
    [ {| varCnt := 2; literals := [TwoVarEquality true 0 1] |} ]
    [] false.

(** * Properties *)

(** ** Unsigned arithmetic *)

Lemma wrap_range z : 0 <= wrap z <= UINT_MAX.
Proof. unfold wrap, UINT_MAX. pose proof (Z.mod_pos_bound z (2 ^ 32)). lia. Qed.

Lemma wrap_small z : 0 <= z <= UINT_MAX -> wrap z = z.
Proof. unfold wrap, UINT_MAX. intros. apply Z.mod_small. lia. Qed.

Lemma wrap_add_l a c : wrap (wrap a + c) = wrap (a + c).
Proof. unfold wrap. apply Zplus_mod_idemp_l. Qed.

Lemma wrap_add_r a c : wrap (a + wrap c) = wrap (a + c).
Proof. unfold wrap. apply Zplus_mod_idemp_r. Qed.

Lemma wrap_mul_l a c : wrap (wrap a * c) = wrap (a * c).
Proof. unfold wrap. apply Zmult_mod_idemp_l. Qed.

Lemma wrap_mul_r a c : wrap (a * wrap c) = wrap (a * c).
Proof. unfold wrap. apply Zmult_mod_idemp_r. Qed.

Lemma wrap_wrap a : wrap (wrap a) = wrap a.
Proof. unfold wrap. apply Zmod_mod. Qed.

(** ** The variable of a literal *)

Lemma foldr_imap_scale (n : Z) (l : list Z) (f g : nat -> Z -> Z) :
  (forall i d, f i d = n * g i d) ->
  foldr Z.add 0 (imap f l) = n * foldr Z.add 0 (imap g l).
Proof.
  revert f g. induction l as [|d l IH]; intros f g Hfg; simpl; [lia|].
  rewrite Hfg, (IH (f ∘ S) (g ∘ S)); [lia|]. intros i e. apply Hfg.
Qed.

Lemma tupleSum_nil n : tupleSum n [] = 0.
Proof. reflexivity. Qed.

Lemma tupleSum_cons n d tuple :
  tupleSum n (d :: tuple) = (d - 1) + n * tupleSum n tuple.
Proof.
  unfold tupleSum. simpl. rewrite Z.mul_1_r. f_equal.
  apply foldr_imap_scale. intros i e. unfold compose.
  rewrite Nat2Z.inj_succ, Z.pow_succ_r by lia. lia.
Qed.

Lemma satVar_fold size grounding var mult :
  wrap (fst (fold_left (satVarStep size) grounding (var, mult)))
  = wrap (var + mult * tupleSum size grounding).
Proof.
  revert var mult. induction grounding as [|g gs IH]; intros var mult.
  - simpl. rewrite tupleSum_nil. f_equal. lia.
  - simpl. rewrite IH, tupleSum_cons.
    set (T := tupleSum size gs).
    rewrite wrap_add_l.
    replace (var + wrap (mult * wrap (g - 1)) + wrap (mult * size) * T)
      with ((var + wrap (mult * size) * T) + wrap (mult * wrap (g - 1))) by ring.
    rewrite wrap_add_r, <- wrap_add_r, wrap_mul_r, wrap_add_r.
    replace (var + wrap (mult * size) * T + mult * (g - 1))
      with ((var + mult * (g - 1)) + wrap (mult * size) * T) by ring.
    rewrite <- wrap_add_r, wrap_mul_l, wrap_add_r. f_equal. ring.
Qed.

Lemma satVar_fold_wrapped size grounding var mult :
  0 <= var <= UINT_MAX ->
  wrap (fst (fold_left (satVarStep size) grounding (var, mult)))
  = fst (fold_left (satVarStep size) grounding (var, mult)).
Proof.
  intros Hvar. destruct grounding as [|g gs].
  - simpl. apply wrap_small, Hvar.
  - simpl. generalize (wrap (var + wrap (mult * wrap (g - 1)))) (wrap (mult * size))
      (wrap_range (var + wrap (mult * wrap (g - 1)))).
    induction gs as [|g' gs IH]; intros v m Hv; simpl.
    + apply wrap_small, Hv.
    + apply IH, wrap_range.
Qed.

Lemma getSATLiteral_eq lay f grounding pol isFunction size :
  getSATLiteral lay f grounding pol isFunction size
  = mkSATLiteral (fst (fold_left (satVarStep size) grounding (offsetOf lay f isFunction, 1))) pol.
Proof.
  unfold getSATLiteral.
  destruct (fold_left _ _ _) as [var mult]. reflexivity.
Qed.

Lemma getSATLiteral_formula lay f grounding pol isFunction size :
  0 <= offsetOf lay f isFunction <= UINT_MAX ->
  lit_var (getSATLiteral lay f grounding pol isFunction size)
  = wrap (offsetOf lay f isFunction + tupleSum size grounding)
  /\ lit_polarity (getSATLiteral lay f grounding pol isFunction size) = pol.
Proof.
  intros Hoff. rewrite getSATLiteral_eq. simpl. split; [|reflexivity].
  rewrite <- satVar_fold_wrapped by exact Hoff.
  rewrite satVar_fold. f_equal. lia.
Qed.

Lemma getSATLiteral_exact lay f grounding pol isFunction size :
  0 <= offsetOf lay f isFunction <= UINT_MAX ->
  0 <= offsetOf lay f isFunction + tupleSum size grounding <= UINT_MAX ->
  lit_var (getSATLiteral lay f grounding pol isFunction size)
  = offsetOf lay f isFunction + tupleSum size grounding.
Proof.
  intros Hoff Hrange.
  rewrite (proj1 (getSATLiteral_formula lay f grounding pol isFunction size Hoff)).
  apply wrap_small, Hrange.
Qed.

(** C3. [getSATLiteral] computes, in unsigned arithmetic, the variable
    [offset[symbol] + Σᵢ (groundingᵢ − 1)·size^i] over the positions of the
    grounding array in order, and tags it with the polarity it is given;
    whenever the value of that formula is itself an unsigned value, the
    variable is that value. *)
Theorem getSATLiteral_var :
  forall (lay : Layout) (f : nat) (grounding : list Z) (pol isFunction : bool) (size : Z),
    0 <= offsetOf lay f isFunction <= UINT_MAX ->
    let formula := offsetOf lay f isFunction + tupleSum size grounding in
    lit_var (getSATLiteral lay f grounding pol isFunction size) = wrap formula
    /\ lit_polarity (getSATLiteral lay f grounding pol isFunction size) = pol
    /\ (0 <= formula <= UINT_MAX ->
        lit_var (getSATLiteral lay f grounding pol isFunction size) = formula).
Proof.
  intros lay f grounding pol isFunction size Hoff formula.
  destruct (getSATLiteral_formula lay f grounding pol isFunction size Hoff) as [Hvar Hpol].
  split; [exact Hvar|]. split; [exact Hpol|].
  intros Hrange. now apply getSATLiteral_exact.
Qed.

(** ** The clause buffer *)

Lemma fold_addSATClause b cls buf :
  fold_left (fun buf cl => addSATClause b cl buf) cls buf = emitted b cls buf.
Proof.
  unfold emitted. revert buf. induction cls as [|cl cls IH]; intros buf; simpl.
  - now rewrite app_nil_r.
  - rewrite IH. unfold addSATClause.
    destruct (removeDuplicateLiterals b cl); simpl; [|reflexivity].
    now rewrite <- app_assoc.
Qed.

(** ** Clause instances *)

Lemma groundLiterals_spec lay size grounding lits acc :
  groundLiterals lay size grounding lits acc
  = if existsb (triviallyTrue grounding) lits then None
    else Some (acc ++ omap (translateLiteral lay size grounding) lits).
Proof.
  revert acc. induction lits as [|lit lits IH]; intros acc; simpl.
  - now rewrite app_nil_r.
  - destruct lit as [positive x y|pol f args y|pol p args]; simpl.
    + destruct (_ || _); [reflexivity|]. apply IH.
    + rewrite IH. destruct (existsb _ lits); [reflexivity|].
      now rewrite <- app_assoc.
    + rewrite IH. destruct (existsb _ lits); [reflexivity|].
      now rewrite <- app_assoc.
Qed.

(** What [addSATClause] does with a clause, given the contract of
    [removeDuplicateLiterals]: it pushes a clause with the same literals, or
    it pushes nothing, and that only for a clause that holds a variable in
    both polarities. *)
Lemma addSATClause_emits b cl buf :
  keepsLiterals (removeDuplicateLiterals b) ->
  (exists cl', addSATClause b cl buf = buf ++ [cl'] /\ forall l, In l cl' <-> In l cl)
  \/ (addSATClause b cl buf = buf
      /\ exists v, In (mkSATLiteral v true) cl /\ In (mkSATLiteral v false) cl).
Proof.
  intros Hrdl. unfold addSATClause. specialize (Hrdl cl).
  destruct (removeDuplicateLiterals b cl) as [cl'|].
  - left. exists cl'. split; [reflexivity|exact Hrdl].
  - right. split; [reflexivity|exact Hrdl].
Qed.

(** C4 (amended). For a clause and a grounding, the instance is skipped (the
    buffer is left as it is) as soon as one two-variable (dis)equality is
    trivially true.  Otherwise the two-variable (dis)equalities, all
    trivially false, are dropped and the SAT literals of the definition
    equalities and predicate atoms, each with the polarity of its source
    literal, go to [addSATClause]: one clause with exactly these literals is
    emitted, unless they hold a variable in both polarities, in which case
    duplicate-literal removal may return no clause and nothing is emitted. *)
Theorem addInstance_two_variable_equalities :
  forall (b : Builder) (lay : Layout) (size : Z) (c : Clause)
         (buf : list SATClause) (grounding : list Z),
    keepsLiterals (removeDuplicateLiterals b) ->
    let rest := omap (translateLiteral lay size grounding) (literals c) in
    (existsb (triviallyTrue grounding) (literals c) = true ->
     addInstance b lay size c buf grounding = buf)
    /\ (existsb (triviallyTrue grounding) (literals c) = false ->
        (exists cl, addInstance b lay size c buf grounding = buf ++ [cl]
                    /\ forall l, In l cl <-> In l rest)
        \/ (addInstance b lay size c buf grounding = buf
            /\ exists v, In (mkSATLiteral v true) rest /\ In (mkSATLiteral v false) rest))
    /\ (forall sl, In sl rest <->
          exists lit, In lit (literals c) /\ isTwoVarEquality lit = false
                      /\ translateLiteral lay size grounding lit = Some sl
                      /\ lit_polarity sl = polarity lit)
    /\ (forall positive x y,
          triviallyTrue grounding (TwoVarEquality positive x y)
          = Bool.eqb positive (valueOf grounding x =? valueOf grounding y))
    /\ (forall lit, isTwoVarEquality lit = true ->
          translateLiteral lay size grounding lit = None).
Proof.
  intros b lay size c buf grounding Hrdl rest.
  assert (Heq : addInstance b lay size c buf grounding
                = if existsb (triviallyTrue grounding) (literals c) then buf
                  else addSATClause b rest buf).
  { unfold addInstance. rewrite groundLiterals_spec.
    destruct (existsb _ _); reflexivity. }
  split; [|split; [|split; [|split]]].
  - intros Htrue. now rewrite Heq, Htrue.
  - intros Hfalse. rewrite Heq, Hfalse. now apply addSATClause_emits.
  - intros sl. unfold rest. rewrite <- list_elem_of_In, list_elem_of_omap. split.
    + intros (lit & Hin & Htr). exists lit. apply list_elem_of_In in Hin.
      split; [exact Hin|].
      destruct lit as [positive x y|pol f args y|pol p args];
        [discriminate| |]; (split; [reflexivity|]); (split; [exact Htr|]);
        simpl in Htr; injection Htr as <-; now rewrite getSATLiteral_eq.
    + intros (lit & Hin & _ & Htr & _). exists lit.
      split; [now apply list_elem_of_In|exact Htr].
  - intros positive x y. simpl.
    destruct positive, (valueOf grounding x =? valueOf grounding y); reflexivity.
  - intros [positive x y|pol f args y|pol p args]; simpl; intros H;
      [reflexivity|discriminate|discriminate].
Qed.

(** ** Canonicity *)

Lemma fold_left_snoc_map {A B : Type} (f : A -> B) (l : list A) (acc : list B) :
  fold_left (fun acc i => acc ++ [f i]) l acc = acc ++ map f l.
Proof.
  revert acc. induction l as [|x l IH]; intros acc; simpl.
  - now rewrite app_nil_r.
  - rewrite IH. now rewrite <- app_assoc.
Qed.

Section CanonicityShape.
Context {L : Type} (getLiteral : nat -> list Z -> bool -> bool -> Z -> L).

Lemma canonicityLits_shape sg size G i :
  canonicityLits getLiteral sg size G i
  = getLiteral (gt_f (nth i G dummyGroundedTerm))
      (termGrounding (functionArity sg (gt_f (nth i G dummyGroundedTerm)))
         (gt_grounding (nth i G dummyGroundedTerm)) size) false true size
    :: map (fun j =>
              getLiteral (gt_f (nth j G dummyGroundedTerm))
                (termGrounding (functionArity sg (gt_f (nth j G dummyGroundedTerm)))
                   (gt_grounding (nth j G dummyGroundedTerm)) (wrap (size - 1)))
                true true size)
         (seq 0 i).
Proof.
  unfold canonicityLits.
  exact (fold_left_snoc_map _ (seq 0 i) [_]).
Qed.

Lemma canonicityClauses_shape b size G maxSize :
  canonicityClauses getLiteral b size G maxSize
  = if size <=? 1 then []
    else map (canonicityLits getLiteral (signature b) size G)
           (seq 1 (Z.to_nat (canonicityWidth b maxSize (length G)) - 1)).
Proof.
  unfold canonicityClauses. destruct (size <=? 1); [reflexivity|].
  exact (fold_left_snoc_map _ _ []).
Qed.
End CanonicityShape.

Lemma canonicityWidth_le b maxSize len :
  canonicityWidth b maxSize len <= Z.of_nat len.
Proof.
  unfold canonicityWidth.
  match goal with |- context [Z.of_nat len <? ?w] =>
    destruct (Z.ltb_spec (Z.of_nat len) w); lia end.
Qed.

(** *** Single precision *)

Lemma iter_pos_invariant {A : Type} (P : A -> Prop) (f : A -> A) :
  (forall x, P x -> P (f x)) -> forall n x, P x -> P (SpecFloat.iter_pos f n x).
Proof.
  intros Hf n. induction n as [n IH|n IH|]; intros x Hx; simpl.
  - apply IH, IH, Hf, Hx.
  - apply IH, IH, Hx.
  - apply Hf, Hx.
Qed.

Lemma digits2_pos_lower p : 2 ^ (Zpos (digits2_pos p) - 1) <= Zpos p.
Proof.
  induction p as [p IH|p IH|]; simpl digits2_pos.
  - rewrite Pos2Z.inj_succ. replace (Z.succ (Zpos (digits2_pos p)) - 1)
      with (Z.succ (Zpos (digits2_pos p) - 1)) by lia.
    rewrite Z.pow_succ_r by lia. lia.
  - rewrite Pos2Z.inj_succ. replace (Z.succ (Zpos (digits2_pos p)) - 1)
      with (Z.succ (Zpos (digits2_pos p) - 1)) by lia.
    rewrite Z.pow_succ_r by lia. lia.
  - simpl. lia.
Qed.

Lemma digits2_pos_unsigned p : Zpos p <= UINT_MAX -> Zpos (digits2_pos p) <= 32.
Proof.
  intros Hp. pose proof (digits2_pos_lower p) as Hlow.
  destruct (Z_le_gt_dec (Zpos (digits2_pos p)) 32) as [|Hgt]; [assumption|exfalso].
  assert (2 ^ 32 <= 2 ^ (Zpos (digits2_pos p) - 1)) by (apply Z.pow_le_mono_r; lia).
  unfold UINT_MAX in Hp. change (2 ^ 32) with 4294967296 in *. lia.
Qed.

Lemma digits2_pos_succ p : Zpos (digits2_pos (Pos.succ p)) <= Zpos (digits2_pos p) + 1.
Proof.
  induction p as [p IH|p IH|]; simpl; rewrite ?Pos2Z.inj_succ; lia.
Qed.

Lemma digits2_pos_shift p k :
  Zpos (digits2_pos (Pos.iter xO p k)) = Zpos (digits2_pos p) + Zpos k.
Proof.
  induction k as [|k IH] using Pos.peano_ind.
  - simpl. rewrite Pos2Z.inj_succ. lia.
  - rewrite Pos.iter_succ. simpl digits2_pos. rewrite !Pos2Z.inj_succ, IH. lia.
Qed.

Lemma shr_1_within d mrs :
  mantissaWithin d (shr_m mrs) -> mantissaWithin d (shr_m (shr_1 mrs)).
Proof.
  destruct mrs as [m r s]. unfold mantissaWithin. simpl.
  destruct m as [|[p|p|]|p]; simpl; rewrite ?Pos2Z.inj_succ; lia.
Qed.

Lemma shr_fexp_within d m e l :
  mantissaWithin d m ->
  let '(mrs, e') := shr_fexp float_prec float_emax m e l in
  mantissaWithin d (shr_m mrs)
  /\ (e' = e \/ e' = fexp float_prec float_emax (Zdigits2 m + e)).
Proof.
  intros Hm. unfold shr_fexp, shr.
  assert (H0 : mantissaWithin d (shr_m (shr_record_of_loc m l))).
  { destruct l as [|[]]; exact Hm. }
  destruct (fexp float_prec float_emax (Zdigits2 m + e) - e) as [|n|n] eqn:Hn.
  - split; [exact H0|now left].
  - split.
    + apply (iter_pos_invariant (fun mrs => mantissaWithin d (shr_m mrs))); [|exact H0].
      intros x. apply shr_1_within.
    + right. lia.
  - split; [exact H0|now left].
Qed.

Lemma round_nearest_even_within d m l :
  mantissaWithin d m -> mantissaWithin (d + 1) (round_nearest_even m l).
Proof.
  intros [Hm Hd]. unfold mantissaWithin.
  assert (Hsucc : 0 <= m + 1 /\ Zdigits2 (m + 1) <= d + 1).
  { split; [lia|]. destruct m as [|p|p]; [simpl in *; lia| |lia].
    change (Zpos p + 1) with (Zpos (p + 1)). rewrite Pos.add_1_r. simpl in *.
    pose proof (digits2_pos_succ p). lia. }
  destruct l as [|[]]; simpl; try destruct (Z.even m);
    first [exact Hsucc | split; lia].
Qed.

Lemma binary_round_aux_finite sx mx ex lx d :
  mantissaWithin d mx -> ex <= 0 -> d <= 64 ->
  finiteFloat (binary_round_aux float_prec float_emax sx mx ex lx) = true.
Proof.
  intros Hm Hex Hd. unfold binary_round_aux.
  pose proof (shr_fexp_within d mx ex lx Hm) as H1.
  destruct (shr_fexp float_prec float_emax mx ex lx) as [mrs' e'].
  destruct H1 as [Hm1 He1].
  pose proof (round_nearest_even_within d (shr_m mrs') (loc_of_shr_record mrs') Hm1) as Hm2.
  pose proof (shr_fexp_within (d + 1) _ e' loc_Exact Hm2) as H2.
  destruct (shr_fexp float_prec float_emax _ e' loc_Exact) as [mrs'' e''].
  destruct H2 as [[Hm3 _] He2].
  destruct (shr_m mrs'') as [|m|m]; [reflexivity| |lia].
  assert (He' : e' <= 40).
  { destruct Hm as [_ Hdm]. destruct He1 as [->| ->]; [lia|].
    unfold fexp, emin, float_prec, float_emax. lia. }
  assert (He'' : e'' <= float_emax - float_prec).
  { destruct Hm2 as [_ Hdm]. unfold float_emax, float_prec.
    destruct He2 as [->| ->]; [lia|].
    unfold fexp, emin, float_prec, float_emax. lia. }
  apply Z.leb_le in He''. now rewrite He''.
Qed.

Lemma floatOfUnsigned_finite u :
  0 <= u <= UINT_MAX -> finiteFloat (floatOfUnsigned u) = true.
Proof.
  intros Hu. unfold floatOfUnsigned, binary_normalize.
  destruct u as [|p|p]; [reflexivity| |lia].
  unfold binary_round.
  pose proof (digits2_pos_unsigned p (proj2 Hu)) as Hd.
  destruct (shl_align p 0 (fexp float_prec float_emax (Zpos (digits2_pos p) + 0)))
    as [mz ez] eqn:Hal.
  unfold shl_align in Hal.
  assert (Hmz : mantissaWithin 64 (Zpos mz) /\ ez <= 0).
  { unfold mantissaWithin. unfold fexp, emin, float_prec, float_emax in Hal.
    destruct (Z.max (Zpos (digits2_pos p) + 0 - 24) (3 - 128 - 24) - 0) as [|k|k] eqn:Hk;
      inversion Hal; subst; simpl Zdigits2.
    - split; [split; lia|lia].
    - split; [split; lia|lia].
    - rewrite digits2_pos_shift. split; [split; lia|lia]. }
  destruct Hmz as [Hmz Hez].
  apply (binary_round_aux_finite false (Zpos mz) ez loc_Exact 64 Hmz Hez). lia.
Qed.

(** In range, the conversion to [unsigned] gives the integer part of the
    value. *)
Lemma floatToUnsigned_value outOfRange x :
  finiteFloat x = true ->
  0 <= integerPart (floatValue x) <= UINT_MAX ->
  floatToUnsigned outOfRange x = integerPart (floatValue x).
Proof.
  intros Hfin Hrange.
  assert (Hvalue : match x with
                   | S754_finite s m e =>
                       integerPart (floatValue x) = cond_Zopp s (Z.shiftl (Zpos m) e)
                   | _ => integerPart (floatValue x) = 0
                   end).
  { destruct x as [s|s| |s m e]; try reflexivity.
    unfold floatValue, integerPart.
    destruct (Z.leb_spec 0 e) as [He|He].
    - simpl Qnum. simpl Qden. rewrite Z.quot_1_r, Z.shiftl_mul_pow2 by assumption.
      destruct s; simpl cond_Zopp; [|reflexivity].
      now rewrite Z.mul_opp_l.
    - simpl Qnum. simpl Qden.
      assert (Hpow : 0 < 2 ^ (- e)) by (apply Z.pow_pos_nonneg; lia).
      rewrite Z2Pos.id by assumption.
      replace (Z.shiftl (Zpos m) e) with (Z.shiftr (Zpos m) (- e))
        by (unfold Z.shiftr; now rewrite Z.opp_involutive).
      rewrite Z.shiftr_div_pow2 by lia.
      destruct s; simpl cond_Zopp.
      + change (Z.neg m) with (- Z.pos m).
        rewrite Z.quot_opp_l by lia. f_equal. apply Z.quot_div_nonneg; lia.
      + apply Z.quot_div_nonneg; lia. }
  destruct x as [s|s| |s m e]; try discriminate; cbv beta iota in Hvalue.
  - now rewrite Hvalue.
  - rewrite Hvalue in Hrange |- *. cbn [floatToUnsigned]. unfold toUnsigned.
    destruct (Z.leb_spec 0 (cond_Zopp s (Z.shiftl (Z.pos m) e))); [|lia].
    destruct (Z.leb_spec (cond_Zopp s (Z.shiftl (Z.pos m) e)) UINT_MAX); [|lia].
    reflexivity.
Qed.

Lemma canonicityWidth_value b maxSize len :
  let product := floatMul (fmbSymmetryRatio (opt b)) (floatOfUnsigned maxSize) in
  finiteFloat product = true ->
  0 <= integerPart (floatValue product) <= UINT_MAX ->
  canonicityWidth b maxSize len
  = Z.min (integerPart (floatValue product)) (Z.of_nat len).
Proof.
  intros product Hfin Hrange. unfold canonicityWidth. fold product.
  rewrite (floatToUnsigned_value _ product Hfin Hrange).
  destruct (Z.ltb_spec (Z.of_nat len) (integerPart (floatValue product))); lia.
Qed.

(** The product of a zero and an [unsigned] is a zero. *)
Lemma canonicityWidth_zero b maxSize len s :
  0 <= maxSize <= UINT_MAX ->
  fmbSymmetryRatio (opt b) = S754_zero s ->
  canonicityWidth b maxSize len <= 0.
Proof.
  intros Hm Hzero. unfold canonicityWidth. rewrite Hzero.
  pose proof (floatOfUnsigned_finite maxSize Hm) as Hfin.
  destruct (floatOfUnsigned maxSize) as [s'|s'| |s' m e]; try discriminate; simpl;
    destruct (Z.ltb_spec (Z.of_nat len) 0); lia.
Qed.

Lemma canonicityLits_clause lay sg size G i :
  0 <= size - 1 <= UINT_MAX ->
  canonicityLits (getSATLiteral lay) sg size G i = canonicityClause lay sg size G i.
Proof.
  intros Hsize. rewrite canonicityLits_shape.
  unfold canonicityClause, termLiteral. now rewrite (wrap_small (size - 1)).
Qed.

(** C5 (amended). For every size [n] that is an unsigned value and every
    upper bound [maxSize]: for [n ≤ 1] the canonicity layer emits nothing;
    for [n > 1], when the single-precision product of the ratio and of
    [maxSize] converted to [float] is a number whose integer part [t] is an
    unsigned value, the layer passes to [addSATClause] exactly the clauses
    [¬[G[i]=n] ∨ ⋁_{j<i}[G[j]=n−1]] for [i] in [[1..w−1]], in this order,
    where [w = min(t, |G|)]; and when the ratio is 0 it emits nothing. *)
Theorem addNewSymmetryCanonicityAxioms_layer :
  forall (b : Builder) (lay : Layout) (n : Z) (G : list GroundedTerm)
         (maxSize : Z) (buf : list SATClause),
    0 <= n <= UINT_MAX ->
    0 <= maxSize <= UINT_MAX ->
    let product := floatMul (fmbSymmetryRatio (opt b)) (floatOfUnsigned maxSize) in
    let w := Z.min (integerPart (floatValue product)) (Z.of_nat (length G)) in
    (n <= 1 -> addNewSymmetryCanonicityAxioms b lay n G maxSize buf = buf)
    /\ (1 < n ->
        finiteFloat product = true ->
        0 <= integerPart (floatValue product) <= UINT_MAX ->
        addNewSymmetryCanonicityAxioms b lay n G maxSize buf
        = emitted b (canonicityLayer lay (signature b) n G w) buf)
    /\ (forall s, fmbSymmetryRatio (opt b) = S754_zero s ->
        addNewSymmetryCanonicityAxioms b lay n G maxSize buf = buf).
Proof.
  intros b lay n G maxSize buf Hn Hm product w.
  assert (Heq : addNewSymmetryCanonicityAxioms b lay n G maxSize buf
                = if n <=? 1 then buf
                  else emitted b
                         (map (canonicityClause lay (signature b) n G)
                            (seq 1 (Z.to_nat (canonicityWidth b maxSize (length G)) - 1)))
                         buf).
  { unfold addNewSymmetryCanonicityAxioms.
    rewrite fold_addSATClause, canonicityClauses_shape.
    destruct (Z.leb_spec n 1) as [Hle|Hgt].
    - unfold emitted. simpl. now rewrite app_nil_r.
    - f_equal. apply map_ext. intros i. apply canonicityLits_clause. clear - Hn Hgt. lia. }
  split; [|split].
  - intros Hle. rewrite Heq. apply Z.leb_le in Hle. now rewrite Hle.
  - intros Hgt Hfin Hrange. rewrite Heq.
    destruct (Z.leb_spec n 1); [lia|].
    rewrite (canonicityWidth_value b maxSize (length G) Hfin Hrange).
    reflexivity.
  - intros s Hzero. rewrite Heq. destruct (n <=? 1); [reflexivity|].
    pose proof (canonicityWidth_zero b maxSize (length G) s Hm Hzero) as Hw.
    replace (Z.to_nat (canonicityWidth b maxSize (length G)) - 1)%nat with O by lia.
    unfold emitted. simpl. now rewrite app_nil_r.
Qed.

(** ** The groundings the canonicity encoder passes on *)

Lemma upTo_In size m : In m (upTo size) <-> 1 <= m <= size.
Proof.
  unfold upTo. rewrite in_map_iff. split.
  - intros [k [<- Hk]]. apply in_seq in Hk. lia.
  - intros Hm. exists (Z.to_nat m). split; [lia|]. apply in_seq. lia.
Qed.

Lemma widget_In b size f g gt :
  In gt (widget b size f g) -> gt = mkGroundedTerm f g.
Proof.
  unfold widget. destruct (_ <? size); [intros []|].
  destruct (outOfBounds b f g); [intros []|].
  intros [<-|[]]. reflexivity.
Qed.

Lemma groundedTermsOfSort_grounding b size s gt :
  0 <= size <= UINT_MAX ->
  (forall c, In c (nth s (sortedConstants (sortedSignature b)) []) ->
             functionArity (signature b) c = O) ->
  In gt (groundedTermsOfSort b size s) ->
  functionArity (signature b) (gt_f gt) = O \/ 1 <= gt_grounding gt <= size.
Proof.
  intros Hsize Hconst. unfold groundedTermsOfSort. rewrite in_app_iff.
  intros [Hin|Hin].
  - apply in_map_iff in Hin. destruct Hin as [c [<- Hc]]. left. simpl. now apply Hconst.
  - right. destruct (fmbSymmetryWidgetOrders (opt b)).
    + apply in_flat_map in Hin. destruct Hin as [f [_ Hin]].
      apply in_flat_map in Hin. destruct Hin as [m [Hm Hin]].
      apply widget_In in Hin. subst gt. simpl. now apply upTo_In.
    + apply in_flat_map in Hin. destruct Hin as [m [Hm Hin]].
      apply in_flat_map in Hin. destruct Hin as [f [_ Hin]].
      apply widget_In in Hin. subst gt. simpl. now apply upTo_In.
    + apply in_flat_map in Hin. destruct Hin as [m [Hm Hin]].
      apply in_flat_map in Hin. destruct Hin as [[i f] [_ Hin]].
      apply widget_In in Hin. subst gt. simpl.
      apply upTo_In in Hm.
      pose proof (Z.mod_pos_bound (wrap (m + Z.of_nat i)) size ltac:(lia)) as Hmod.
      rewrite wrap_small by lia. lia.
Qed.

Lemma termGrounding_positive arity grounding image :
  (arity = O \/ 1 <= grounding <= UINT_MAX) -> 1 <= image <= UINT_MAX ->
  Forall (fun g => 1 <= g /\ wrap (g - 1) = g - 1) (termGrounding arity grounding image).
Proof.
  intros Hg Himage. unfold termGrounding. apply Forall_app. split.
  - destruct Hg as [->|Hg]; [constructor|].
    apply Forall_forall. intros g Hin. apply elem_of_replicate in Hin.
    destruct Hin as [-> _]. split; [lia|]. apply wrap_small. lia.
  - constructor; [|constructor]. split; [lia|]. apply wrap_small. lia.
Qed.

(** C10. For every size [n ≤ 1] the canonicity encoder emits no clause and
    builds no literal.  For the grounded terms that [reset] builds for a sort
    whose constants are nullary, every grounding array the encoder passes to
    [getSATLiteral] has all its entries at least 1, so that [grounding[i]-1]
    does not wrap around, and the image of every positive literal is
    [n − 1 ≥ 1]. *)
Theorem canonicity_groundings_positive :
  forall (b : Builder) (n maxSize : Z),
    0 <= n <= UINT_MAX ->
    (n <= 1 ->
     forall (lay : Layout) (G : list GroundedTerm) (buf : list SATClause),
       canonicityCalls b n G maxSize = []
       /\ addNewSymmetryCanonicityAxioms b lay n G maxSize buf = buf)
    /\ (forall (s : nat),
          (forall c, In c (nth s (sortedConstants (sortedSignature b)) []) ->
                     functionArity (signature b) c = O) ->
          forall call,
            In call (canonicityCalls b n (groundedTermsOfSort b n s) maxSize) ->
            Forall (fun g => 1 <= g /\ wrap (g - 1) = g - 1) (call_grounding call)
            /\ (call_polarity call = true ->
                last (call_grounding call) = Some (n - 1) /\ 1 <= n - 1)).
Proof.
  intros b n maxSize Hn. split.
  - intros Hle lay G buf. unfold addNewSymmetryCanonicityAxioms, canonicityCalls.
    rewrite !canonicityClauses_shape.
    destruct (Z.leb_spec n 1); [|lia]. split; reflexivity.
  - intros s Hconst call. unfold canonicityCalls.
    rewrite canonicityClauses_shape.
    destruct (Z.leb_spec n 1) as [|Hgt]; [intros []|].
    set (G := groundedTermsOfSort b n s).
    rewrite <- flat_map_concat_map. intros Hin.
    apply in_flat_map in Hin. destruct Hin as [i [Hi Hin]].
    apply in_seq in Hi.
    pose proof (canonicityWidth_le b maxSize (length G)) as Hw.
    assert (Hterm : forall j, (j <= i)%nat ->
              functionArity (signature b) (gt_f (nth j G dummyGroundedTerm)) = O
              \/ 1 <= gt_grounding (nth j G dummyGroundedTerm) <= UINT_MAX).
    { intros j Hj.
      destruct (groundedTermsOfSort_grounding b n s (nth j G dummyGroundedTerm) Hn Hconst)
        as [H0|H1]; [apply nth_In; fold G; lia|now left|right; lia]. }
    rewrite canonicityLits_shape in Hin. destruct Hin as [<-|Hin]; simpl.
    + split; [|discriminate].
      apply termGrounding_positive; [apply Hterm; lia|lia].
    + apply in_map_iff in Hin. destruct Hin as [j [<- Hj]]. apply in_seq in Hj. simpl.
      rewrite (wrap_small (n - 1)) by lia. split.
      * apply termGrounding_positive; [apply Hterm; lia|lia].
      * intros _. split; [|lia]. unfold termGrounding. apply last_snoc.
Qed.

(** ** The variable layout of [reset] *)

Lemma tupleSum_range n tuple :
  1 <= n -> Forall (fun d => 1 <= d <= n) tuple ->
  0 <= tupleSum n tuple < n ^ Z.of_nat (length tuple).
Proof.
  intros Hn. induction 1 as [|d tuple Hd _ IH].
  - rewrite tupleSum_nil. simpl. lia.
  - rewrite tupleSum_cons. cbn [length]. rewrite Nat2Z.inj_succ, Z.pow_succ_r by lia.
    nia.
Qed.

Lemma tupleSum_inj n t1 t2 :
  1 <= n -> length t1 = length t2 ->
  Forall (fun d => 1 <= d <= n) t1 -> Forall (fun d => 1 <= d <= n) t2 ->
  tupleSum n t1 = tupleSum n t2 -> t1 = t2.
Proof.
  intros Hn Hlen H1. revert t2 Hlen.
  induction H1 as [|d1 t1 Hd1 Ht1 IH]; intros [|d2 t2] Hlen H2 Hsum;
    try discriminate; [reflexivity|].
  inversion H2 as [|? ? Hd2 Ht2]; subst.
  rewrite !tupleSum_cons in Hsum.
  pose proof (tupleSum_range n t1 Hn Ht1) as R1.
  pose proof (tupleSum_range n t2 Hn Ht2) as R2.
  assert (Hs : tupleSum n t1 = tupleSum n t2) by nia.
  f_equal; [lia|]. apply IH; [now injection Hlen|assumption|assumption].
Qed.

Lemma blocks_app del exp n l1 l2 :
  blocks del exp n (l1 ++ l2) = blocks del exp n l1 + blocks del exp n l2.
Proof.
  unfold blocks. induction l1 as [|s l1 IH]; simpl; [reflexivity|].
  rewrite IH. destruct (del s); lia.
Qed.

Lemma blocks_nonneg del exp n l : 0 <= n -> 0 <= blocks del exp n l.
Proof.
  intros Hn. unfold blocks. induction l as [|s l IH]; simpl; [lia|].
  destruct (del s); [assumption|].
  pose proof (Z.pow_nonneg n (Z.of_nat (exp s)) Hn). lia.
Qed.

Lemma blocks_cons_live del exp n s l :
  del s = false -> blocks del exp n (s :: l) = n ^ Z.of_nat (exp s) + blocks del exp n l.
Proof. intros H. unfold blocks. simpl. now rewrite H. Qed.

Section LayoutBlocks.
Context (b : Builder) (del : nat -> bool) (exp : nat -> nat) (n : Z).
Hypothesis Hn : 0 <= n.

Lemma layoutBlocks_offset syms : forall off tbl off' tbl',
  blocksFit del exp n syms -> 0 <= off <= UINT_MAX ->
  layoutBlocks b del exp n syms off tbl = (Some off', tbl') ->
  off' = off + blocks del exp n syms /\ off' <= UINT_MAX /\ length tbl' = length tbl.
Proof.
  induction syms as [|s syms IH]; intros off tbl off' tbl' Hfit Hoff Hrun; simpl in Hrun.
  - injection Hrun as <- <-. unfold blocks. simpl. lia.
  - assert (Hfit' : blocksFit del exp n syms) by (intros s' Hs'; apply Hfit; now right).
    destruct (del s) eqn:Hdel.
    + destruct (IH _ _ _ _ Hfit' Hoff Hrun) as (-> & Hle & Hlen).
      unfold blocks at 2. simpl. rewrite Hdel. fold (blocks del exp n syms). lia.
    + assert (Hadd : powUnsigned b n (exp s) = n ^ Z.of_nat (exp s)).
      { unfold powUnsigned, toUnsigned.
        pose proof (Hfit s (or_introl eq_refl) Hdel).
        pose proof (Z.pow_nonneg n (Z.of_nat (exp s)) Hn).
        destruct (Z.leb_spec 0 (n ^ Z.of_nat (exp s))); [|lia].
        destruct (Z.leb_spec (n ^ Z.of_nat (exp s)) UINT_MAX); [|lia]. reflexivity. }
      rewrite Hadd in Hrun.
      pose proof (Z.pow_nonneg n (Z.of_nat (exp s)) Hn) as Hpow.
      destruct (Z.ltb_spec (UINT_MAX - n ^ Z.of_nat (exp s)) off) as [|Hok];
        [discriminate|].
      rewrite wrap_small in Hrun by lia.
      assert (Hoff' : 0 <= off + n ^ Z.of_nat (exp s) <= UINT_MAX) by lia.
      destruct (IH _ _ _ _ Hfit' Hoff' Hrun) as (-> & Hle & Hlen).
      rewrite blocks_cons_live by assumption.
      rewrite length_insert in Hlen. lia.
Qed.

Lemma layoutBlocks_other syms : forall off tbl res tbl' s,
  layoutBlocks b del exp n syms off tbl = (res, tbl') ->
  ~ In s syms -> tbl' !!! s = tbl !!! s.
Proof.
  induction syms as [|s0 syms IH]; intros off tbl res tbl' s Hrun Hnotin; simpl in Hrun.
  - now injection Hrun as _ <-.
  - assert (Hne : s0 <> s) by (intros ->; apply Hnotin; now left).
    assert (Hnotin' : ~ In s syms) by (intros H; apply Hnotin; now right).
    destruct (del s0); [now apply (IH _ _ _ _ _ Hrun)|].
    destruct (_ <? off).
    + injection Hrun as _ <-. now apply list_lookup_total_insert_ne.
    + rewrite (IH _ _ _ _ _ Hrun Hnotin'). now apply list_lookup_total_insert_ne.
Qed.

Lemma layoutBlocks_lookup pre s post : forall off tbl off' tbl',
  blocksFit del exp n (pre ++ s :: post) -> 0 <= off <= UINT_MAX ->
  layoutBlocks b del exp n (pre ++ s :: post) off tbl = (Some off', tbl') ->
  del s = false -> ~ In s post -> (s < length tbl)%nat ->
  tbl' !!! s = off + blocks del exp n pre.
Proof.
  induction pre as [|s0 pre IH]; intros off tbl off' tbl' Hfit Hoff Hrun Hlive Hpost Hlen.
  - simpl in Hrun. rewrite Hlive in Hrun.
    destruct (_ <? off); [discriminate|].
    rewrite (layoutBlocks_other _ _ _ _ _ _ Hrun Hpost).
    rewrite list_lookup_total_insert_eq by assumption. unfold blocks. simpl. lia.
  - assert (Hfit' : blocksFit del exp n (pre ++ s :: post)) by (intros s' Hs'; apply Hfit; now right).
    simpl in Hrun. destruct (del s0) eqn:Hdel.
    + rewrite (IH _ _ _ _ Hfit' Hoff Hrun Hlive Hpost Hlen).
      unfold blocks at 2. simpl. now rewrite Hdel.
    + assert (Hadd : powUnsigned b n (exp s0) = n ^ Z.of_nat (exp s0)).
      { unfold powUnsigned, toUnsigned.
        pose proof (Hfit s0 (or_introl eq_refl) Hdel).
        pose proof (Z.pow_nonneg n (Z.of_nat (exp s0)) Hn).
        destruct (Z.leb_spec 0 (n ^ Z.of_nat (exp s0))); [|lia].
        destruct (Z.leb_spec (n ^ Z.of_nat (exp s0)) UINT_MAX); [|lia]. reflexivity. }
      rewrite Hadd in Hrun.
      pose proof (Z.pow_nonneg n (Z.of_nat (exp s0)) Hn) as Hpow.
      destruct (Z.ltb_spec (UINT_MAX - n ^ Z.of_nat (exp s0)) off) as [|Hok];
        [discriminate|].
      rewrite wrap_small in Hrun by lia.
      assert (Hoff' : 0 <= off + n ^ Z.of_nat (exp s0) <= UINT_MAX) by lia.
      rewrite (IH _ _ _ _ Hfit' Hoff' Hrun Hlive Hpost);
        [|now rewrite length_insert].
      rewrite blocks_cons_live by assumption. lia.
Qed.
End LayoutBlocks.

Lemma seq_split_at start len k :
  (k < len)%nat ->
  seq start len = seq start k ++ (start + k)%nat :: seq (S (start + k)) (len - k - 1).
Proof.
  intros Hk. replace len with (k + S (len - k - 1))%nat at 1 by lia.
  rewrite seq_app. reflexivity.
Qed.

Lemma functionSymbols_split b f :
  (f < functions (signature b))%nat ->
  functionSymbols b = seq 0 f ++ f :: seq (S f) (functions (signature b) - f - 1).
Proof. intros Hf. unfold functionSymbols. now rewrite (seq_split_at 0 _ f). Qed.

Lemma predicateSymbols_split b p :
  (1 <= p < predicates (signature b))%nat ->
  predicateSymbols b
  = seq 1 (p - 1) ++ p :: seq (S p) (predicates (signature b) - 1 - (p - 1) - 1).
Proof.
  intros Hp. unfold predicateSymbols. rewrite (seq_split_at 1 _ (p - 1)) by lia.
  replace (1 + (p - 1))%nat with p by lia. reflexivity.
Qed.

Section Blocks.
Context (b : Builder) (n : Z).
Hypothesis Hn : 1 <= n.

Lemma blockSize_pos isF s : 1 <= blockSize b n isF s.
Proof.
  unfold blockSize. destruct isF;
    match goal with |- 1 <= n ^ ?e => pose proof (Z.pow_pos_nonneg n e) end; lia.
Qed.

Lemma tuple_fits isF s : n ^ Z.of_nat (tupleLength b isF s) <= blockSize b n isF s.
Proof.
  unfold blockSize, tupleLength, functionBlockExp, predicateBlockExp.
  destruct isF; apply Z.pow_le_mono_r; lia.
Qed.

Lemma block_end isF s :
  liveSymbol b isF s -> blockStart b n isF s + blockSize b n isF s <= totalVars b n.
Proof.
  unfold liveSymbol, blockStart, blockSize, totalVars, functionBlocks, predicateBlocks.
  destruct isF; intros [Hs Hlive].
  - rewrite (functionSymbols_split b s Hs), blocks_app, blocks_cons_live by assumption.
    pose proof (blocks_nonneg (deletedFunction b) (functionBlockExp b) n
                  (seq (S s) (functions (signature b) - s - 1)) ltac:(lia)).
    pose proof (blocks_nonneg (deletedPredicate b) (predicateBlockExp b) n
                  (predicateSymbols b) ltac:(lia)).
    lia.
  - rewrite (predicateSymbols_split b s Hs), blocks_app, blocks_cons_live by assumption.
    pose proof (blocks_nonneg (deletedPredicate b) (predicateBlockExp b) n
                  (seq (S s) (predicates (signature b) - 1 - (s - 1) - 1)) ltac:(lia)).
    lia.
Qed.

(** The address [(isF1, s1)] comes before [(isF2, s2)] in the layout. *)
Lemma block_order isF1 s1 isF2 s2 :
  liveSymbol b isF1 s1 -> liveSymbol b isF2 s2 ->
  (isF1 = true /\ isF2 = false) \/ (isF1 = isF2 /\ (s1 < s2)%nat) ->
  blockStart b n isF1 s1 + blockSize b n isF1 s1 <= blockStart b n isF2 s2.
Proof.
  intros H1 H2 Hbefore.
  destruct Hbefore as [[-> ->]|[<- Hlt]].
  - pose proof (block_end true s1 H1) as Hend.
    unfold totalVars in Hend. unfold blockStart at 2.
    pose proof (blocks_nonneg (deletedPredicate b) (predicateBlockExp b) n
                  (seq 1 (s2 - 1)) ltac:(lia)) as Hp.
    unfold predicateBlocks.
    unfold liveSymbol, blockStart, blockSize, functionBlocks in *.
    destruct H1 as [Hs Hlive].
    rewrite (functionSymbols_split b s1 Hs), blocks_app, blocks_cons_live by assumption.
    pose proof (blocks_nonneg (deletedFunction b) (functionBlockExp b) n
                  (seq (S s1) (functions (signature b) - s1 - 1)) ltac:(lia)).
    lia.
  - unfold liveSymbol, blockStart, blockSize, functionBlocks, predicateBlocks in *.
    destruct isF1; destruct H1 as [Hs1 Hlive1].
    + rewrite (seq_split_at 0 s2 s1 Hlt), blocks_app, blocks_cons_live by assumption.
      pose proof (blocks_nonneg (deletedFunction b) (functionBlockExp b) n
                    (seq (S (0 + s1)) (s2 - s1 - 1)) ltac:(lia)).
      simpl in *. lia.
    + rewrite (seq_split_at 1 (s2 - 1) (s1 - 1)) by lia.
      replace (1 + (s1 - 1))%nat with s1 by lia.
      rewrite blocks_app, blocks_cons_live by assumption.
      pose proof (blocks_nonneg (deletedPredicate b) (predicateBlockExp b) n
                    (seq (S s1) (s2 - 1 - (s1 - 1) - 1)) ltac:(lia)).
      lia.
Qed.
End Blocks.

Lemma reset_true b lay0 n lay :
  reset b lay0 n = (true, lay) ->
  exists off1 off2,
    layoutBlocks b (deletedFunction b) (functionBlockExp b) n (functionSymbols b) 1
      (f_offsets lay0) = (Some off1, f_offsets lay)
    /\ layoutBlocks b (deletedPredicate b) (predicateBlockExp b) n (predicateSymbols b) off1
         (p_offsets lay0) = (Some off2, p_offsets lay)
    /\ solverVarCount lay = Some (wrap (off2 + 1))
    /\ sortedGroundedTerms lay
       = map (groundedTermsOfSort b n) (seq 0 (sorts (sortedSignature b))).
Proof.
  unfold reset.
  destruct (layoutBlocks b (deletedFunction b) _ n _ 1 _) as [[off1|] f_off] eqn:Hf;
    [|discriminate].
  destruct (layoutBlocks b (deletedPredicate b) _ n _ off1 _) as [[off2|] p_off] eqn:Hp;
    [|discriminate].
  intros H. injection H as <-. exists off1, off2. simpl.
  split; [reflexivity|]. split; [exact Hp|]. split; reflexivity.
Qed.

Lemma reset_offsets b lay0 n lay :
  1 <= n ->
  length (f_offsets lay0) = functions (signature b) ->
  length (p_offsets lay0) = predicates (signature b) ->
  blocksFit (deletedFunction b) (functionBlockExp b) n (functionSymbols b) ->
  blocksFit (deletedPredicate b) (predicateBlockExp b) n (predicateSymbols b) ->
  reset b lay0 n = (true, lay) ->
  (forall isF s, liveSymbol b isF s -> offsetOf lay s isF = blockStart b n isF s)
  /\ totalVars b n <= UINT_MAX
  /\ solverVarCount lay = Some (wrap (totalVars b n + 1)).
Proof.
  intros Hn Hlenf Hlenp Hfitf Hfitp Hreset.
  destruct (reset_true _ _ _ _ Hreset) as (off1 & off2 & Hf & Hp & Hsolver & _).
  assert (Hn0 : 0 <= n) by lia.
  assert (Hone : 0 <= 1 <= UINT_MAX) by (unfold UINT_MAX; lia).
  destruct (layoutBlocks_offset b _ _ n Hn0 _ _ _ _ _ Hfitf Hone Hf)
    as (Hoff1 & Hle1 & _).
  assert (Hoff1' : 0 <= off1 <= UINT_MAX).
  { pose proof (blocks_nonneg (deletedFunction b) (functionBlockExp b) n
                  (functionSymbols b) Hn0). lia. }
  destruct (layoutBlocks_offset b _ _ n Hn0 _ _ _ _ _ Hfitp Hoff1' Hp) as (Hoff2 & Hle2 & _).
  assert (Htotal : off2 = totalVars b n).
  { unfold totalVars, functionBlocks, predicateBlocks. lia. }
  split; [|split; [lia|now rewrite <- Htotal]].
  intros [|] s [Hs Hlive]; unfold offsetOf, blockStart.
  - rewrite (functionSymbols_split b s Hs) in Hf, Hfitf.
    rewrite (layoutBlocks_lookup b _ _ n Hn0 _ _ _ _ _ _ _ Hfitf Hone Hf Hlive);
      [reflexivity| |lia].
    rewrite in_seq. lia.
  - rewrite (predicateSymbols_split b s Hs) in Hp, Hfitp.
    rewrite (layoutBlocks_lookup b _ _ n Hn0 _ _ _ _ _ _ _ Hfitp Hoff1' Hp Hlive);
      [unfold functionBlocks, predicateBlocks; lia| |lia].
    rewrite in_seq. lia.
Qed.

(** C2 (amended). For every size [n ≥ 1] for which [reset] succeeds, the
    block sizes being unsigned values: the offset of every live function and
    of every live predicate is 1 plus the sizes of the blocks of the live
    symbols before it (functions first), a function of arity [k] having a
    block of [n^(k+2)] variables and a predicate of arity [k] one of
    [n^(k+1)]; the last offset [1 + Σ_f n^(arity(f)+2) + Σ_p n^(arity(p)+1)]
    is an unsigned value and the solver is handed that offset plus one; the
    variable of every live symbol and in-bounds tuple is its block start
    plus [Σᵢ (tupleᵢ − 1)·n^i], lies in its block and so in
    [[1 .. last offset − 1]]; and two different (symbol, tuple) pairs get
    different variables. *)
Theorem reset_layout :
  forall (b : Builder) (lay0 lay : Layout) (n : Z),
    1 <= n ->
    length (f_offsets lay0) = functions (signature b) ->
    length (p_offsets lay0) = predicates (signature b) ->
    blocksFit (deletedFunction b) (functionBlockExp b) n (functionSymbols b) ->
    blocksFit (deletedPredicate b) (predicateBlockExp b) n (predicateSymbols b) ->
    reset b lay0 n = (true, lay) ->
    (forall isF s, liveSymbol b isF s ->
       offsetOf lay s isF = blockStart b n isF s
       /\ blockStart b n isF s + blockSize b n isF s <= totalVars b n)
    /\ totalVars b n <= UINT_MAX
    /\ solverVarCount lay = Some (wrap (totalVars b n + 1))
    /\ (forall isF s tuple pol,
          inBounds b n isF s tuple ->
          let var := lit_var (getSATLiteral lay s tuple pol isF n) in
          var = blockStart b n isF s + tupleSum n tuple
          /\ blockStart b n isF s <= var < blockStart b n isF s + blockSize b n isF s
          /\ 1 <= var < totalVars b n)
    /\ (forall isF1 s1 tuple1 pol1 isF2 s2 tuple2 pol2,
          inBounds b n isF1 s1 tuple1 -> inBounds b n isF2 s2 tuple2 ->
          lit_var (getSATLiteral lay s1 tuple1 pol1 isF1 n)
          = lit_var (getSATLiteral lay s2 tuple2 pol2 isF2 n) ->
          isF1 = isF2 /\ s1 = s2 /\ tuple1 = tuple2).
Proof.
  intros b lay0 lay n Hn Hlenf Hlenp Hfitf Hfitp Hreset.
  destruct (reset_offsets b lay0 n lay Hn Hlenf Hlenp Hfitf Hfitp Hreset)
    as (Hoff & Htotal & Hsolver).
  assert (Hstart : forall isF s, 1 <= blockStart b n isF s).
  { intros isF s. unfold blockStart, functionBlocks, predicateBlocks.
    pose proof (blocks_nonneg (deletedFunction b) (functionBlockExp b) n (seq 0 s)
                  ltac:(lia)).
    pose proof (blocks_nonneg (deletedFunction b) (functionBlockExp b) n
                  (functionSymbols b) ltac:(lia)).
    pose proof (blocks_nonneg (deletedPredicate b) (predicateBlockExp b) n
                  (seq 1 (s - 1)) ltac:(lia)).
    destruct isF; lia. }
  assert (Hvar : forall isF s tuple pol,
            inBounds b n isF s tuple ->
            lit_var (getSATLiteral lay s tuple pol isF n)
            = blockStart b n isF s + tupleSum n tuple
            /\ 0 <= tupleSum n tuple < blockSize b n isF s).
  { intros isF s tuple pol (Hlive & Hlen & Hin).
    pose proof (tupleSum_range n tuple Hn Hin) as Hrange.
    rewrite Hlen in Hrange.
    pose proof (tuple_fits b n Hn isF s) as Hfits.
    pose proof (block_end b n Hn isF s Hlive) as Hend.
    pose proof (Hstart isF s) as H1.
    split; [|lia].
    rewrite <- (Hoff isF s Hlive).
    apply getSATLiteral_exact; rewrite (Hoff isF s Hlive); lia. }
  split; [|split; [exact Htotal|split; [exact Hsolver|split]]].
  - intros isF s Hlive. split; [now apply Hoff|now apply block_end].
  - intros isF s tuple pol Hin var.
    destruct (Hvar isF s tuple pol Hin) as [Heq Hrange]. fold var in Heq.
    pose proof (block_end b n Hn isF s (proj1 Hin)).
    pose proof (Hstart isF s). lia.
  - intros isF1 s1 tuple1 pol1 isF2 s2 tuple2 pol2 Hin1 Hin2 Heq.
    destruct (Hvar isF1 s1 tuple1 pol1 Hin1) as [Hv1 Hr1].
    destruct (Hvar isF2 s2 tuple2 pol2 Hin2) as [Hv2 Hr2].
    rewrite Hv1, Hv2 in Heq.
    pose proof (block_order b n Hn isF1 s1 isF2 s2 (proj1 Hin1) (proj1 Hin2)) as H12.
    pose proof (block_order b n Hn isF2 s2 isF1 s1 (proj1 Hin2) (proj1 Hin1)) as H21.
    assert (Hsame : isF1 = isF2 /\ s1 = s2).
    { destruct isF1, isF2.
      - split; [reflexivity|].
        destruct (Nat.lt_trichotomy s1 s2) as [Hlt|[Heqs|Hlt]]; [|assumption|].
        + specialize (H12 (or_intror (conj eq_refl Hlt))). lia.
        + specialize (H21 (or_intror (conj eq_refl Hlt))). lia.
      - specialize (H12 (or_introl (conj eq_refl eq_refl))). lia.
      - specialize (H21 (or_introl (conj eq_refl eq_refl))). lia.
      - split; [reflexivity|].
        destruct (Nat.lt_trichotomy s1 s2) as [Hlt|[Heqs|Hlt]]; [|assumption|].
        + specialize (H12 (or_intror (conj eq_refl Hlt))). lia.
        + specialize (H21 (or_intror (conj eq_refl Hlt))). lia. }
    destruct Hsame as [<- <-]. repeat split.
    destruct Hin1 as (_ & Hlen1 & Hall1), Hin2 as (_ & Hlen2 & Hall2).
    apply (tupleSum_inj n); [assumption|congruence|assumption|assumption|lia].
Qed.

(** ** The mixed-radix enumeration is exhaustive and ends by itself *)

Lemma counterPeriod_pos m : 0 <= m -> 1 <= counterPeriod m.
Proof. unfold counterPeriod. destruct (Z.eqb_spec m 0); lia. Qed.

Lemma wrap_pred g :
  0 <= g <= UINT_MAX -> wrap (g - 1) = if g =? 0 then UINT_MAX else g - 1.
Proof.
  intros Hg. destruct (Z.eqb_spec g 0) as [->|Hne].
  - reflexivity.
  - apply wrap_small. lia.
Qed.

Lemma counterIndex_range m g :
  0 <= m <= UINT_MAX -> onCycle g m -> 0 <= counterIndex m g < counterPeriod m.
Proof.
  unfold onCycle, counterIndex, counterPeriod. intros Hm.
  destruct (Z.eqb_spec m 0); intros Hg; [|lia].
  rewrite wrap_pred by assumption. unfold UINT_MAX in *.
  destruct (Z.eqb_spec g 0); lia.
Qed.

Lemma counterIndex_inj m g1 g2 :
  onCycle g1 m -> onCycle g2 m -> counterIndex m g1 = counterIndex m g2 -> g1 = g2.
Proof.
  unfold onCycle, counterIndex.
  destruct (Z.eqb_spec m 0); intros H1 H2; [|lia].
  rewrite !wrap_pred by assumption. unfold UINT_MAX in *.
  destruct (Z.eqb_spec g1 0), (Z.eqb_spec g2 0); lia.
Qed.

Lemma withinBounds_onCycles g mins : withinBounds g mins -> onCycles g mins.
Proof.
  induction 1 as [|d m g mins Hd _ IH]; constructor; [|assumption].
  unfold onCycle. destruct (Z.eqb_spec m 0); lia.
Qed.

Lemma onCycles_withinBounds g mins :
  Forall (fun m => 1 <= m) mins -> onCycles g mins -> withinBounds g mins.
Proof.
  intros Hm H. revert Hm. induction H as [|d m g mins Hd _ IH]; intros Hm; constructor.
  - inversion Hm; subst. unfold onCycle in Hd. destruct (Z.eqb_spec m 0); lia.
  - apply IH. now inversion Hm.
Qed.

Lemma onCycles_counterState rg rm : onCycles rg rm -> counterState rm rg.
Proof.
  destruct 1 as [|g m rg rm Hg Hrest]; simpl; [exact I|]. split; [now left|assumption].
Qed.

Lemma period_product mins : period mins = product (map counterPeriod mins).
Proof.
  unfold period, product. induction mins as [|m mins IH]; simpl; [reflexivity|].
  now rewrite IH.
Qed.

Lemma rank_range rm rg :
  Forall (fun m => 0 <= m <= UINT_MAX) rm ->
  onCycles rg rm -> 0 <= rank rm rg < period rm.
Proof.
  intros Hm H. revert Hm. induction H as [|g m rg rm Hg _ IH]; intros Hm.
  - unfold period. simpl. lia.
  - inversion Hm as [|? ? Hm1 Hm']; subst. specialize (IH Hm').
    pose proof (counterIndex_range m g Hm1 Hg).
    unfold period in *. simpl. nia.
Qed.

Lemma rank_inj rm rg1 rg2 :
  Forall (fun m => 0 <= m <= UINT_MAX) rm ->
  onCycles rg1 rm -> onCycles rg2 rm -> rank rm rg1 = rank rm rg2 -> rg1 = rg2.
Proof.
  intros Hm H1. revert rg2 Hm.
  induction H1 as [|g1 m rg1 rm Hg1 Hrest1 IH]; intros rg2 Hm H2 Heq.
  - now inversion H2.
  - inversion H2 as [|g2 ? rg2' ? Hg2 Hrest2]; subst.
    inversion Hm as [|? ? Hm1 Hm']; subst. simpl in Heq.
    pose proof (rank_range _ _ Hm' Hrest1). pose proof (rank_range _ _ Hm' Hrest2).
    pose proof (counterIndex_range m g1 Hm1 Hg1).
    pose proof (counterIndex_range m g2 Hm1 Hg2).
    assert (rank rm rg1 = rank rm rg2') by nia.
    f_equal; [apply (counterIndex_inj m); [assumption|assumption|nia]|].
    now apply IH.
Qed.

(** A run of the body moves the counters one place on. *)
Lemma advance_Some rm : forall rg rg',
  Forall (fun m => 0 <= m <= UINT_MAX) rm ->
  counterState rm rg -> advance rm rg = Some rg' ->
  onCycles rg' rm /\ rank rm rg' = rank rm rg + 1.
Proof.
  induction rm as [|m rm IH]; intros rg rg' Hm Hstate Hadv.
  - destruct rg; discriminate.
  - destruct rg as [|g rest]; [discriminate|].
    simpl in Hstate. destruct Hstate as [Hg Hrest].
    inversion Hm as [|? ? Hm1 Hm']; subst. simpl in Hadv.
    destruct (Z.eqb_spec g m) as [->|Hne].
    + destruct (advance rm rest) as [r'|] eqn:Hr; [|discriminate].
      injection Hadv as <-.
      destruct (IH rest r' Hm' (onCycles_counterState _ _ Hrest) Hr) as [Hw Hrank].
      assert (Hone : onCycle 1 m /\ counterIndex m 1 = 0
                     /\ counterIndex m m = counterPeriod m - 1).
      { unfold onCycle, counterIndex, counterPeriod, UINT_MAX in *.
        destruct (Z.eqb_spec m 0) as [->|]; [split; [lia|split; reflexivity]|lia]. }
      destruct Hone as (Hone & Hi1 & Him).
      split; [constructor; assumption|]. simpl. rewrite Hrank, Hi1, Him. lia.
    + injection Hadv as <-.
      assert (Hnext : onCycle (wrap (g + 1)) m
                      /\ counterIndex m (wrap (g + 1)) = counterIndex m g + 1).
      { unfold onCycle, counterIndex, UINT_MAX in *.
        destruct (Z.eqb_spec m 0) as [->|Hm0].
        - assert (Hg' : 1 <= g <= 4294967295) by lia.
          pose proof (wrap_range (g + 1)) as Hr. unfold UINT_MAX in Hr.
          split; [lia|].
          rewrite (wrap_small (g - 1)) by (unfold UINT_MAX; lia).
          destruct (Z.eq_dec g 4294967295) as [->|Hlt]; [reflexivity|].
          rewrite (wrap_small (g + 1)) by (unfold UINT_MAX; lia).
          rewrite wrap_small by (unfold UINT_MAX; lia). lia.
        - rewrite wrap_small by (unfold UINT_MAX; lia). lia. }
      destruct Hnext as [Hon Hidx].
      split; [constructor; assumption|]. simpl. rewrite Hidx. lia.
Qed.

(** When the loop falls through, the counters are at the last place. *)
Lemma advance_None rm : forall rg,
  Forall (fun m => 0 <= m <= UINT_MAX) rm ->
  counterState rm rg -> advance rm rg = None ->
  forall t, onCycles t rm -> rank rm t <= rank rm rg.
Proof.
  induction rm as [|m rm IH]; intros rg Hm Hstate Hadv t Ht.
  - inversion Ht. destruct rg; simpl; lia.
  - destruct rg as [|g rest]; [contradiction|].
    simpl in Hstate. destruct Hstate as [Hg Hrest]. simpl in Hadv.
    inversion Hm as [|? ? Hm1 Hm']; subst.
    destruct (Z.eqb_spec g m) as [->|Hne]; [|discriminate].
    destruct (advance rm rest) eqn:Hr; [discriminate|].
    inversion Ht as [|d ? t' ? Hd Ht']; subst. simpl.
    pose proof (IH rest Hm' (onCycles_counterState _ _ Hrest) Hr t' Ht').
    pose proof (rank_range _ _ Hm' Ht').
    pose proof (counterIndex_range m d Hm1 Hd).
    assert (counterIndex m m = counterPeriod m - 1).
    { unfold counterIndex, counterPeriod. destruct (Z.eqb_spec m 0) as [->|]; reflexivity. }
    nia.
Qed.

Lemma onCycles_rev g mins : onCycles g mins -> onCycles (rev g) (rev mins).
Proof.
  induction 1 as [|d m g mins Hd Hrest IH]; simpl; [constructor|].
  apply Forall2_app; [assumption|]. constructor; [assumption|constructor].
Qed.

Lemma period_rev mins : period (rev mins) = period mins.
Proof.
  assert (Happ : forall l1 l2, period (l1 ++ l2) = period l1 * period l2).
  { intros l1 l2. unfold period. induction l1 as [|x l1 IH]; simpl; [lia|].
    rewrite IH. lia. }
  induction mins as [|m mins IH]; simpl; [reflexivity|].
  rewrite Happ, IH. unfold period. simpl. lia.
Qed.

(** From any state of the counters, the loop runs its body at every
    grounding that comes later in the enumeration, given fuel for the
    distance. *)
Lemma groundingsFrom_complete mins fuel : forall g t,
  Forall (fun m => 0 <= m <= UINT_MAX) mins ->
  counterState (rev mins) (rev g) ->
  onCycles t mins ->
  rank (rev mins) (rev g) < rank (rev mins) (rev t) ->
  rank (rev mins) (rev t) - rank (rev mins) (rev g) <= Z.of_nat fuel ->
  In t (groundingsFrom fuel mins g).
Proof.
  induction fuel as [|fuel IH]; intros g t Hm Hstate Ht Hlt Hfuel; [lia|].
  pose proof (Forall_rev Hm) as Hm'.
  pose proof (onCycles_rev _ _ Ht) as Ht'.
  simpl. unfold nextGrounding.
  destruct (advance (rev mins) (rev g)) as [rg'|] eqn:Hadv; simpl.
  - destruct (advance_Some _ _ _ Hm' Hstate Hadv) as [Hw Hrank].
    destruct (Z.eq_dec (rank (rev mins) (rev t)) (rank (rev mins) rg')) as [Heq|Hne].
    + left. apply rank_inj in Heq; [|assumption|assumption|assumption].
      rewrite <- Heq. apply rev_involutive.
    + right. apply IH; try assumption.
      * rewrite rev_involutive. now apply onCycles_counterState.
      * rewrite rev_involutive. lia.
      * rewrite rev_involutive. lia.
  - pose proof (advance_None _ _ Hm' Hstate Hadv _ Ht'). lia.
Qed.

(** The body runs at groundings on the cycles of the counters only. *)
Lemma groundingsFrom_sound mins fuel : forall g t,
  Forall (fun m => 0 <= m <= UINT_MAX) mins ->
  counterState (rev mins) (rev g) ->
  In t (groundingsFrom fuel mins g) -> onCycles t mins.
Proof.
  induction fuel as [|fuel IH]; intros g t Hm Hstate Hin; [destruct Hin|].
  simpl in Hin. unfold nextGrounding in Hin.
  destruct (advance (rev mins) (rev g)) as [rg'|] eqn:Hadv; simpl in Hin; [|destruct Hin].
  destruct (advance_Some _ _ _ (Forall_rev Hm) Hstate Hadv) as [Hw _].
  destruct Hin as [<-|Hin].
  - rewrite <- (rev_involutive mins). now apply onCycles_rev.
  - apply (IH (rev rg')); [assumption| |assumption].
    rewrite rev_involutive. now apply onCycles_counterState.
Qed.

(** Once the fuel covers the distance to the last place, more fuel changes
    nothing: the enumeration ends because the loop falls through. *)
Lemma groundingsFrom_stable mins fuel : forall k g,
  Forall (fun m => 0 <= m <= UINT_MAX) mins ->
  counterState (rev mins) (rev g) ->
  period mins - 1 - rank (rev mins) (rev g) <= Z.of_nat fuel ->
  groundingsFrom (fuel + k) mins g = groundingsFrom fuel mins g.
Proof.
  induction fuel as [|fuel IH]; intros k g Hm Hstate Hfuel.
  - destruct k as [|k]; [reflexivity|]. simpl. unfold nextGrounding.
    destruct (advance (rev mins) (rev g)) as [rg'|] eqn:Hadv; [|reflexivity].
    destruct (advance_Some _ _ _ (Forall_rev Hm) Hstate Hadv) as [Hw Hrank].
    pose proof (rank_range _ _ (Forall_rev Hm) Hw) as Hr. rewrite period_rev in Hr. lia.
  - simpl. unfold nextGrounding.
    destruct (advance (rev mins) (rev g)) as [rg'|] eqn:Hadv; [|reflexivity].
    destruct (advance_Some _ _ _ (Forall_rev Hm) Hstate Hadv) as [Hw Hrank].
    simpl. f_equal. apply IH; [assumption| |].
    + rewrite rev_involutive. now apply onCycles_counterState.
    + rewrite rev_involutive. lia.
Qed.

Lemma initialGrounding_rev (front : list Z) (m : Z) :
  rev (initialGrounding (length (front ++ [m]))) = 0 :: replicate (length front) 1.
Proof.
  unfold initialGrounding. rewrite length_app. simpl.
  replace (length front + 1 - 1)%nat with (length front + 0)%nat by lia.
  rewrite replicate_add. simpl.
  rewrite insert_app_r_alt by (rewrite length_replicate; lia).
  rewrite length_replicate.
  replace (length front + 0 - length front)%nat with O by lia. simpl.
  rewrite rev_app_distr. simpl. f_equal.
  induction (length front) as [|k IH]; simpl; [reflexivity|].
  rewrite IH. symmetry. apply replicate_cons_app.
Qed.

Lemma rank_ones rm k : rank rm (replicate k 1) = 0.
Proof.
  revert k. induction rm as [|m rm IH]; intros [|k]; simpl; try reflexivity.
  rewrite IH. unfold counterIndex. destruct (m =? 0); [change (wrap (1 - 1)) with 0|]; lia.
Qed.

(** The counters before the loop. *)
Lemma initialGrounding_state mins :
  Forall (fun m => 0 <= m <= UINT_MAX) mins -> mins <> [] ->
  counterState (rev mins) (rev (initialGrounding (length mins)))
  /\ -1 <= rank (rev mins) (rev (initialGrounding (length mins)))
  /\ (Forall (fun m => 1 <= m) mins ->
      rank (rev mins) (rev (initialGrounding (length mins))) = -1).
Proof.
  intros Hm Hne.
  destruct (exists_last Hne) as (front & m & ->).
  rewrite initialGrounding_rev, rev_app_distr. simpl.
  apply Forall_app in Hm. destruct Hm as [Hfront Hlast].
  inversion Hlast as [|? ? Hm1 _]; subst.
  assert (Hones : onCycles (replicate (length front) 1) (rev front)).
  { apply Forall_rev in Hfront. rewrite <- length_rev.
    induction Hfront as [|x l Hx _ IH]; simpl; constructor; [|assumption].
    unfold onCycle, UINT_MAX in *. destruct (Z.eqb_spec x 0); lia. }
  rewrite rank_ones.
  split; [split; [now right|assumption]|].
  unfold counterIndex. destruct (Z.eqb_spec m 0) as [->|Hm0].
  - split; [vm_compute; discriminate|].
    intros Hpos. apply Forall_app in Hpos. destruct Hpos as [_ Hpos].
    inversion Hpos; subst. lia.
  - split; [lia|]. intros _. lia.
Qed.

(** With the fuel of [groundings] the enumeration of any unsigned bounds
    ends because the loop falls through, not because the fuel runs out. *)
Lemma groundings_enough_fuel mins k :
  Forall (fun m => 0 <= m <= UINT_MAX) mins -> mins <> [] ->
  groundingsFrom (Z.to_nat (period mins) + k) mins (initialGrounding (length mins))
  = groundings mins.
Proof.
  intros Hm Hne. unfold groundings.
  destruct (initialGrounding_state mins Hm Hne) as (Hstate & Hrank & _).
  apply groundingsFrom_stable; [assumption|assumption|].
  assert (0 < period mins).
  { clear - Hm. unfold period.
    induction Hm as [|m mins Hm1 _ IH]; simpl; [lia|].
    pose proof (counterPeriod_pos m (proj1 Hm1)). nia. }
  lia.
Qed.

Lemma validMins_unsigned mins :
  Forall (fun m => 1 <= m <= UINT_MAX) mins ->
  Forall (fun m => 0 <= m <= UINT_MAX) mins /\ Forall (fun m => 1 <= m) mins.
Proof.
  intros H. split; induction H as [|m mins Hm _ IH]; constructor; solve [lia|assumption].
Qed.

(** For bounds in [[1 .. UINT_MAX]] the body runs exactly at the groundings
    within the bounds. *)
Lemma groundings_complete mins t :
  Forall (fun m => 1 <= m <= UINT_MAX) mins -> mins <> [] ->
  withinBounds t mins -> In t (groundings mins).
Proof.
  intros Hm Hne Ht. destruct (validMins_unsigned mins Hm) as [Hu Hpos].
  unfold groundings.
  destruct (initialGrounding_state mins Hu Hne) as (Hstate & _ & Hrank).
  specialize (Hrank Hpos).
  pose proof (withinBounds_onCycles _ _ Ht) as Hon.
  pose proof (rank_range _ _ (Forall_rev Hu) (onCycles_rev _ _ Hon)) as Hrange.
  rewrite period_rev in Hrange.
  apply groundingsFrom_complete; try assumption; lia.
Qed.

Lemma groundings_sound mins t :
  Forall (fun m => 1 <= m <= UINT_MAX) mins -> mins <> [] ->
  In t (groundings mins) -> withinBounds t mins.
Proof.
  intros Hm Hne Hin. destruct (validMins_unsigned mins Hm) as [Hu Hpos].
  apply onCycles_withinBounds; [assumption|].
  apply (groundingsFrom_sound mins (Z.to_nat (period mins))
           (initialGrounding (length mins))); [assumption| |exact Hin].
  now apply initialGrounding_state.
Qed.

(** ** Functionality and totality *)

Lemma evalClause_true a cl :
  evalClause a cl = true <-> exists l, In l cl /\ evalLit a l = true.
Proof. unfold evalClause. apply existsb_exists. Qed.

Lemma evalCNF_app a c1 c2 : evalCNF a (c1 ++ c2) = evalCNF a c1 && evalCNF a c2.
Proof. unfold evalCNF. apply forallb_app. Qed.

Lemma complementary_true a cl v :
  In (mkSATLiteral v true) cl -> In (mkSATLiteral v false) cl -> evalClause a cl = true.
Proof.
  intros Hpos Hneg. apply evalClause_true. destruct (a v) eqn:Hv.
  - exists (mkSATLiteral v true). split; [assumption|]. unfold evalLit. simpl. now rewrite Hv.
  - exists (mkSATLiteral v false). split; [assumption|]. unfold evalLit. simpl. now rewrite Hv.
Qed.

Section Satisfied.
Context (b : Builder) (a : Z -> bool).
Hypothesis Hrdl : keepsLiterals (removeDuplicateLiterals b).

Lemma addSATClause_sat cl buf :
  evalCNF a (addSATClause b cl buf) = true ->
  evalCNF a buf = true /\ evalClause a cl = true.
Proof.
  unfold addSATClause. pose proof (Hrdl cl) as Hcl.
  destruct (removeDuplicateLiterals b cl) as [cl'|].
  - rewrite evalCNF_app. simpl. rewrite andb_true_r.
    intros H. apply andb_true_iff in H. destruct H as [Hbuf Hcl'].
    split; [assumption|]. apply evalClause_true in Hcl'. apply evalClause_true.
    destruct Hcl' as [l [Hin Hl]]. exists l. split; [now apply Hcl|assumption].
  - intros Hbuf. split; [assumption|].
    destruct Hcl as [v [Hpos Hneg]]. now apply (complementary_true a cl v).
Qed.

Lemma fold_left_sat {X : Type} (step : list SATClause -> X -> list SATClause)
    (Q : X -> Prop) (xs : list X) :
  (forall buf x, In x xs -> evalCNF a (step buf x) = true -> evalCNF a buf = true /\ Q x) ->
  forall buf, evalCNF a (fold_left step xs buf) = true ->
              evalCNF a buf = true /\ forall x, In x xs -> Q x.
Proof.
  induction xs as [|x xs IH]; intros Hstep buf Hsat; simpl in *.
  - split; [assumption|intros x []].
  - destruct (IH (fun buf y Hy => Hstep buf y (or_intror Hy)) _ Hsat) as [Hbuf HQ].
    destruct (Hstep buf x (or_introl eq_refl) Hbuf) as [Hbuf' Hx].
    split; [assumption|]. intros y [<-|Hy]; [assumption|now apply HQ].
Qed.

(** What a satisfying assignment of the buffer after [addNewTotalityDefs]
    satisfies. *)
Lemma addNewTotalityDefs_sat lay size buf :
  evalCNF a (addNewTotalityDefs b lay size buf) = true ->
  evalCNF a buf = true
  /\ forall f, In f (functionSymbols b) -> deletedFunction b f = false ->
       forall grounding,
         (functionArity (signature b) f = O /\ grounding = []
          \/ functionArity (signature b) f <> O
             /\ In grounding (groundings (totalityMins b size f))) ->
         evalClause a (totalityClause b lay size f grounding) = true.
Proof.
  unfold addNewTotalityDefs. intros Hsat.
  apply (fold_left_sat _
           (fun f => deletedFunction b f = false ->
              forall grounding,
                (functionArity (signature b) f = O /\ grounding = []
                 \/ functionArity (signature b) f <> O
                    /\ In grounding (groundings (totalityMins b size f))) ->
                evalClause a (totalityClause b lay size f grounding) = true))
    in Hsat; [exact Hsat|].
  clear buf Hsat. intros buf f _ Hsat.
  destruct (deletedFunction b f); [split; [assumption|discriminate]|].
  destruct (Nat.eqb_spec (functionArity (signature b) f) 0) as [Har|Har].
  - apply addSATClause_sat in Hsat. destruct Hsat as [Hbuf Hcl].
    split; [assumption|]. intros _ grounding [[_ ->]|[Hne _]]; [assumption|contradiction].
  - apply (fold_left_sat _
             (fun grounding => evalClause a (totalityClause b lay size f grounding) = true))
      in Hsat.
    + destruct Hsat as [Hbuf Hall]. split; [assumption|].
      intros _ grounding [[Heq _]|[_ Hin]]; [contradiction|now apply Hall].
    + intros buf' grounding _ H. now apply addSATClause_sat in H.
Qed.

Lemma addNewFunctionalDefs_sat lay size buf :
  evalCNF a (addNewFunctionalDefs b lay size buf) = true ->
  evalCNF a buf = true
  /\ forall f, In f (functionSymbols b) -> deletedFunction b f = false ->
       forall grounding,
         In grounding (groundings (functionalMins b size f)) ->
         grounding !!! O < grounding !!! 1%nat ->
         evalClause a
           [getSATLiteral lay f (drop 2 grounding ++ [grounding !!! O]) false true size;
            getSATLiteral lay f (drop 2 grounding ++ [grounding !!! 1%nat]) false true size]
         = true.
Proof.
  unfold addNewFunctionalDefs. intros Hsat.
  apply (fold_left_sat _
           (fun f => deletedFunction b f = false ->
              forall grounding,
                In grounding (groundings (functionalMins b size f)) ->
                grounding !!! O < grounding !!! 1%nat ->
                evalClause a
                  [getSATLiteral lay f (drop 2 grounding ++ [grounding !!! O])
                     false true size;
                   getSATLiteral lay f (drop 2 grounding ++ [grounding !!! 1%nat])
                     false true size]
                = true))
    in Hsat; [exact Hsat|].
  clear buf Hsat. intros buf f _ Hsat.
  destruct (deletedFunction b f); [split; [assumption|discriminate]|].
  apply (fold_left_sat _
           (fun grounding =>
              grounding !!! O < grounding !!! 1%nat ->
              evalClause a
                [getSATLiteral lay f (drop 2 grounding ++ [grounding !!! O])
                   false true size;
                 getSATLiteral lay f (drop 2 grounding ++ [grounding !!! 1%nat])
                   false true size]
              = true))
    in Hsat.
  - destruct Hsat as [Hbuf Hall]. split; [assumption|].
    intros _ grounding Hin. now apply Hall.
  - intros buf' grounding _ H. unfold addFunctionalDef in H.
    destruct (Z.leb_spec (grounding !!! 1%nat) (grounding !!! O)).
    + split; [assumption|lia].
    + apply addSATClause_sat in H. destruct H as [H1 H2]. split; [assumption|now intros _].
Qed.

(** The symmetry axioms only add clauses to the buffer. *)
Lemma addNewSymmetryAxioms_sat lay size maxModelSize buf :
  evalCNF a (addNewSymmetryAxioms b lay size maxModelSize buf) = true ->
  evalCNF a buf = true.
Proof.
  unfold addNewSymmetryAxioms. intros Hsat.
  apply (fold_left_sat _ (fun _ => True)) in Hsat; [apply Hsat|].
  clear buf Hsat. intros buf G _ Hsat. split; [|exact I].
  unfold addNewSymmetryCanonicityAxioms in Hsat.
  rewrite fold_addSATClause in Hsat. unfold emitted in Hsat.
  rewrite evalCNF_app in Hsat. apply andb_true_iff in Hsat. destruct Hsat as [Hsat _].
  unfold addNewSymmetryOrderingAxioms in Hsat.
  destruct (_ <? size); [assumption|].
  now apply addSATClause_sat in Hsat.
Qed.
End Satisfied.

Lemma evalLit_getSATLiteral a lay f grounding pol isF size :
  evalLit a (getSATLiteral lay f grounding pol isF size)
  = Bool.eqb (a (lit_var (getSATLiteral lay f grounding pol isF size))) pol.
Proof. unfold evalLit. rewrite getSATLiteral_eq. reflexivity. Qed.

Lemma getSATLiteral_polarity_irrelevant lay f grounding pol pol' isF size :
  lit_var (getSATLiteral lay f grounding pol isF size)
  = lit_var (getSATLiteral lay f grounding pol' isF size).
Proof. now rewrite !getSATLiteral_eq. Qed.

Lemma functionalMins_valid b size f :
  1 <= size <= UINT_MAX ->
  (forall i, (i <= functionArity (signature b) f)%nat -> 1 <= fbound (sortedSignature b) f i) ->
  Forall (fun m => 1 <= m <= UINT_MAX) (functionalMins b size f)
  /\ Forall (fun m => 1 <= m <= UINT_MAX) (totalityMins b size f).
Proof.
  intros Hsize Hbounds.
  assert (Hargs : Forall (fun m => 1 <= m <= UINT_MAX) (totalityMins b size f)).
  { unfold totalityMins. apply Forall_forall. intros m Hin.
    apply list_elem_of_In, in_map_iff in Hin. destruct Hin as [i [<- Hi]].
    apply in_seq in Hi. pose proof (Hbounds (S i) ltac:(lia)). lia. }
  split; [|exact Hargs].
  unfold functionalMins. pose proof (Hbounds O ltac:(lia)).
  constructor; [lia|]. constructor; [lia|]. exact Hargs.
Qed.

(** What the encoding does enforce.  In every satisfying assignment of the clauses built for
    size [n], for every live function [f] and every input tuple within the
    bounds of its arguments, there is exactly one element [e] in
    [[1 .. min(n, fbounds[f][0])]] such that the variable of [f(d̄) = e] is
    true: the totality clause gives one and the functionality clauses
    exclude two. *)
Theorem functionality_and_totality :
  forall (b : Builder) (lay : Layout) (n maxModelSize : Z) (a : Z -> bool)
         (f : nat) (args : list Z),
    keepsLiterals (removeDuplicateLiterals b) ->
    1 <= n <= UINT_MAX ->
    (f < functions (signature b))%nat ->
    deletedFunction b f = false ->
    (forall i, (i <= functionArity (signature b) f)%nat ->
               1 <= fbound (sortedSignature b) f i) ->
    Forall2 (fun d i => 1 <= d <= Z.min (fbound (sortedSignature b) f (S i)) n)
      args (seq 0 (functionArity (signature b) f)) ->
    evalCNF a (encode b lay n maxModelSize) = true ->
    exists e,
      (1 <= e <= Z.min n (fbound (sortedSignature b) f 0)
       /\ a (lit_var (getSATLiteral lay f (args ++ [e]) true true n)) = true)
      /\ forall e',
           1 <= e' <= Z.min n (fbound (sortedSignature b) f 0) ->
           a (lit_var (getSATLiteral lay f (args ++ [e']) true true n)) = true ->
           e' = e.
Proof.
  intros b lay n maxModelSize a f args Hrdl Hn Hf Hlive Hbounds Hargs Hsat.
  unfold encode in Hsat.
  apply (addNewTotalityDefs_sat b a Hrdl) in Hsat. destruct Hsat as [Hsat Htotal].
  apply (addNewSymmetryAxioms_sat b a Hrdl) in Hsat.
  apply (addNewFunctionalDefs_sat b a Hrdl) in Hsat. destruct Hsat as [_ Hfunctional].
  assert (Hin : In f (functionSymbols b)) by (apply in_seq; lia).
  destruct (functionalMins_valid b n f Hn Hbounds) as [HminsF HminsT].
  assert (Hwithin : withinBounds args (totalityMins b n f)).
  { unfold withinBounds, totalityMins. apply Forall2_fmap_r. exact Hargs. }
  (* totality: some image is taken *)
  assert (Hex : exists e, 1 <= e <= Z.min n (fbound (sortedSignature b) f 0)
                  /\ a (lit_var (getSATLiteral lay f (args ++ [e]) true true n)) = true).
  { assert (Hcl : evalClause a (totalityClause b lay n f args) = true).
    { apply (Htotal f Hin Hlive).
      destruct (Nat.eq_dec (functionArity (signature b) f) O) as [Har|Har].
      - left. split; [assumption|]. rewrite Har in Hargs. now inversion Hargs.
      - right. split; [assumption|].
        apply groundings_complete; [assumption| |assumption].
        unfold totalityMins. destruct (functionArity (signature b) f); [contradiction|].
        discriminate. }
    apply evalClause_true in Hcl. destruct Hcl as [l [Hl Htrue]].
    unfold totalityClause in Hl. apply in_map_iff in Hl. destruct Hl as [e [<- He]].
    apply upTo_In in He. exists e. split; [assumption|].
    rewrite evalLit_getSATLiteral in Htrue. now apply eqb_prop in Htrue. }
  (* functionality: no two images are taken *)
  assert (Hatmost : forall e1 e2,
            1 <= e1 -> e1 < e2 -> e2 <= Z.min n (fbound (sortedSignature b) f 0) ->
            a (lit_var (getSATLiteral lay f (args ++ [e1]) true true n)) = true ->
            a (lit_var (getSATLiteral lay f (args ++ [e2]) true true n)) = true ->
            False).
  { intros e1 e2 H1 H12 H2 Ha1 Ha2.
    assert (Hg : In (e1 :: e2 :: args) (groundings (functionalMins b n f))).
    { apply groundings_complete; [assumption|discriminate|].
      unfold withinBounds, functionalMins.
      constructor; [lia|]. constructor; [lia|]. exact Hwithin. }
    pose proof (Hfunctional f Hin Hlive _ Hg) as Hcl.
    change ((e1 :: e2 :: args) !!! O) with e1 in Hcl.
    change ((e1 :: e2 :: args) !!! 1%nat) with e2 in Hcl.
    change (drop 2 (e1 :: e2 :: args)) with args in Hcl.
    specialize (Hcl H12). apply evalClause_true in Hcl.
    destruct Hcl as [l [[<-|[<-|[]]] Htrue]];
      rewrite evalLit_getSATLiteral,
        (getSATLiteral_polarity_irrelevant _ _ _ false true) in Htrue.
    - rewrite Ha1 in Htrue. discriminate.
    - rewrite Ha2 in Htrue. discriminate. }
  destruct Hex as [e [He Ha]]. exists e. split; [split; assumption|].
  intros e' He' Ha'.
  destruct (Z.lt_trichotomy e' e) as [Hlt|[Heq|Hlt]]; [|assumption|].
  - exfalso. apply (Hatmost e' e); [lia|assumption|lia|assumption|assumption].
  - exfalso. apply (Hatmost e e'); [lia|assumption|lia|assumption|assumption].
Qed.

(** ** The reference duplicate removal *)

Lemma sameLiteral_eq l1 l2 : sameLiteral l1 l2 = true <-> l1 = l2.
Proof.
  unfold sameLiteral. destruct l1 as [v1 p1], l2 as [v2 p2]. simpl.
  rewrite andb_true_iff, Z.eqb_eq. split.
  - intros [-> Hp]. apply eqb_prop in Hp. now subst.
  - intros H. injection H as -> ->. split; [reflexivity|apply eqb_reflx].
Qed.

Lemma dedup_In l cl : In l (dedup cl) <-> In l cl.
Proof.
  induction cl as [|l0 cl IH]; simpl; [reflexivity|].
  destruct (existsb (sameLiteral l0) cl) eqn:Hdup; simpl; rewrite IH.
  - split; [now right|]. intros [<-|Hin]; [|assumption].
    apply existsb_exists in Hdup. destruct Hdup as [l' [Hin Hsame]].
    apply sameLiteral_eq in Hsame. now subst.
  - reflexivity.
Qed.

Lemma removeDuplicateLiterals_ref_keepsLiterals : keepsLiterals removeDuplicateLiterals_ref.
Proof.
  intros cl. unfold removeDuplicateLiterals_ref.
  destruct (existsb _ cl) eqn:Hcompl.
  - apply existsb_exists in Hcompl. destruct Hcompl as [l1 [Hin1 Hex]].
    apply existsb_exists in Hex. destruct Hex as [l2 [Hin2 Hc]].
    unfold complementary in Hc. apply andb_true_iff in Hc. destruct Hc as [Hv Hp].
    apply Z.eqb_eq in Hv. destruct l1 as [v1 p1], l2 as [v2 p2]. simpl in *. subst v2.
    exists v1. destruct p1, p2; try discriminate; split; assumption.
  - intros l. apply dedup_In.
Qed.

(** ** The upper bound on the model size *)

Lemma largestConstantSort_fold (cs : list (list nat)) (ss : list nat) : forall max,
  let L := fold_left (fun max s =>
               let c := Z.of_nat (length (nth s cs [])) in
               if max <? c then c else max) ss max in
  max <= L
  /\ (forall s, In s ss -> Z.of_nat (length (nth s cs [])) <= L)
  /\ (L = max \/ exists s, In s ss /\ L = Z.of_nat (length (nth s cs []))).
Proof.
  induction ss as [|s ss IH]; intros max; simpl.
  - split; [lia|]. split; [intros s []|now left].
  - set (c := Z.of_nat (length (nth s cs []))).
    destruct (Z.ltb_spec max c) as [Hlt|Hge].
    + destruct (IH c) as (Hle & Hall & Hwit). cbn zeta in Hle, Hall, Hwit.
      split; [lia|]. split.
      * intros s' [<-|Hs']; [exact Hle|now apply Hall].
      * right. destruct Hwit as [->|[s' [Hs' ->]]].
        -- exists s. split; [now left|reflexivity].
        -- exists s'. split; [now right|reflexivity].
    + destruct (IH max) as (Hle & Hall & Hwit). cbn zeta in Hle, Hall, Hwit.
      split; [lia|]. split.
      * intros s' [<-|Hs']; [fold c; lia|now apply Hall].
      * destruct Hwit as [->|[s' [Hs' ->]]]; [now left|].
        right. exists s'. split; [now right|reflexivity].
Qed.

Lemma maxArity_fold (arities : list nat) : forall m,
  fold_left (fun m arity => if (m <? arity)%nat then arity else m) arities m = O
  <-> m = O /\ Forall (fun arity => arity = O) arities.
Proof.
  induction arities as [|x arities IH]; intros m; simpl.
  - split; [intros ->; split; [reflexivity|constructor]|now intros [-> _]].
  - rewrite IH. destruct (Nat.ltb_spec m x) as [Hlt|Hge].
    + split.
      * intros [-> _]. lia.
      * intros [-> H]. inversion H; subst. lia.
    + split.
      * intros [-> H]. assert (x = O) by lia. subst. split; [reflexivity|now constructor].
      * intros [-> H]. inversion H; subst. split; [reflexivity|assumption].
Qed.

(** C7 (amended). When the problem is EPR or no function symbol has arity
    above 0, the upper bound the loop runs with is the value left by [init],
    lowered to the largest number of constants of a single inferred sort, and
    to 1 when no sort has a constant, if that is below it; otherwise it is the
    value left by [init]. *)
Theorem maxModelSize_lowered :
  forall (b : Builder),
    let fromInit := initMaxModelSize b in
    let L := largestConstantSort (sortedSignature b) in
    let constantsOf s := Z.of_nat (length (nth s (sortedConstants (sortedSignature b)) [])) in
    maxModelSize b
    = (if isEPR b || (maxArity b =? 0)%nat then Z.min L fromInit else fromInit)
    /\ 1 <= L
    /\ (forall s, (s < sorts (sortedSignature b))%nat -> constantsOf s <= L)
    /\ (L = 1 \/ exists s, (s < sorts (sortedSignature b))%nat /\ L = constantsOf s)
    /\ (maxArity b = O <->
        Forall (fun arity => arity = O) (functionArities (signature b))).
Proof.
  intros b fromInit L constantsOf.
  pose proof (largestConstantSort_fold (sortedConstants (sortedSignature b))
                (seq 0 (sorts (sortedSignature b))) 1) as HL.
  cbv zeta in HL.
  change (fold_left _ (seq 0 (sorts (sortedSignature b))) 1) with L in HL.
  destruct HL as (Hle & Hall & Hwit).
  split; [|split; [exact Hle|split; [|split]]].
  - unfold maxModelSize. fold fromInit L.
    destruct (isEPR b || (maxArity b =? 0)%nat); [|reflexivity].
    destruct (Z.ltb_spec L fromInit); lia.
  - intros s Hs. apply Hall. apply in_seq. lia.
  - destruct Hwit as [->|[s [Hs ->]]]; [now left|].
    right. exists s. split; [|reflexivity]. apply in_seq in Hs. lia.
  - unfold maxArity. rewrite maxArity_fold. split; [now intros [_ H]|now split].
Qed.

(** C7 as stated fails: for three constants in two sorts of sizes 1 and 2, an
    EPR problem, the bound is lowered to 2, not to the number 3 of all
    constants. *)
Lemma maxModelSize_not_constant_count :
  isEPR threeConstants = true
  /\ initMaxModelSize threeConstants = UINT_MAX
  /\ constantCount threeConstants = 3
  /\ Z.of_nat (length (concat (sortedConstants (sortedSignature threeConstants)))) = 3
  /\ maxModelSize threeConstants = 2
  /\ maxModelSize threeConstants <> constantCount threeConstants.
Proof. repeat split; try reflexivity. discriminate. Qed.

(** ** The search loop *)

Lemma searchLoop_round b ext n lay :
  searchLoop b ext n lay
  = match roundAnswer b ext n lay with
    | None =>
        if timeLimitReached ext n
        then Finished (mkMainLoopResult Statistics.TIME_LIMIT None) None
        else if existsb (orderingReadsPastEnd n) (sortedGroundedTerms lay)
        then UndefinedBehaviour
        else if existsb (orderingNeverReturns n) (sortedGroundedTerms lay)
        then NeverReturns
        else UndefinedBehaviour
    | Some SATSolver.SATISFIABLE =>
        match solverVarCount lay with
        | Some varCount =>
            match onModelFound b ext lay varCount (encode b lay n (maxModelSize b)) n None with
            | ModelRecorded model =>
                Finished (mkMainLoopResult Statistics.SATISFIABLE None) model
            | ModelUndefined => UndefinedBehaviour
            | ModelNeverReturns => NeverReturns
            end
        | None => UndefinedBehaviour
        end
    | Some _ =>
        if UINT_MAX <=? n then gaveUp
        else if maxModelSize b <=? n then refuted
        else if fst (reset b lay (n + 1))
             then if resetNeverReturns b (n + 1) then NeverReturns
                  else searchLoop b ext (n + 1) (snd (reset b lay (n + 1)))
             else gaveUp
    end.
Proof.
  rewrite searchLoop_equation_1. unfold roundAnswer.
  destruct (timeLimitReached ext n); [reflexivity|].
  destruct (existsb (orderingReadsPastEnd n) _); [reflexivity|].
  destruct (existsb (orderingNeverReturns n) _); [reflexivity|].
  cbv zeta. destruct (solverVarCount lay) as [varCount|]; [|reflexivity].
  destruct (solve ext varCount _); [reflexivity| |];
    (destruct (Z_le_gt_dec UINT_MAX n) as [Hle|Hgt];
     [destruct (Z.leb_spec UINT_MAX n); [reflexivity|lia]|];
     destruct (Z.leb_spec UINT_MAX n); [lia|];
     destruct (maxModelSize b <=? n); [reflexivity|];
     destruct (reset b lay (n + 1)) as [ok lay']; reflexivity).
Qed.

Lemma roundAnswer_Some b ext n lay answer :
  roundAnswer b ext n lay = Some answer ->
  timeLimitReached ext n = false
  /\ existsb (orderingReadsPastEnd n) (sortedGroundedTerms lay) = false
  /\ existsb (orderingNeverReturns n) (sortedGroundedTerms lay) = false
  /\ exists varCount,
       solverVarCount lay = Some varCount
       /\ solve ext varCount (encode b lay n (maxModelSize b)) = answer.
Proof.
  unfold roundAnswer. intros H.
  destruct (timeLimitReached ext n); [discriminate|].
  destruct (existsb (orderingReadsPastEnd n) _); [discriminate|].
  destruct (existsb (orderingNeverReturns n) _); [discriminate|].
  destruct (solverVarCount lay) as [varCount|]; [|discriminate].
  injection H as H. repeat split. now exists varCount.
Qed.

Lemma roundsFrom_le b ext n0 lay0 n lay : roundsFrom b ext n0 lay0 n lay -> n0 <= n.
Proof. induction 1; lia. Qed.

Lemma resetNeverReturns_below b n : n < UINT_MAX -> resetNeverReturns b n = false.
Proof.
  intros Hn. unfold resetNeverReturns.
  destruct (Z.leb_spec UINT_MAX n); [lia|reflexivity].
Qed.

Lemma roundsFrom_refuted b ext n0 lay0 n lay :
  roundsFrom b ext n0 lay0 n lay ->
  roundAnswer b ext n lay = Some SATSolver.UNSATISFIABLE ->
  n < UINT_MAX -> maxModelSize b <= n ->
  searchLoop b ext n0 lay0 = refuted.
Proof.
  intros Hrounds Hanswer Hlt Hmax.
  induction Hrounds as [n lay|n lay lay1 n' lay' Hans Hn Hm Hreset Hrounds IH].
  - rewrite searchLoop_round, Hanswer.
    destruct (Z.leb_spec UINT_MAX n); [lia|].
    destruct (Z.leb_spec (maxModelSize b) n); [reflexivity|lia].
  - rewrite searchLoop_round, Hans.
    destruct (Z.leb_spec UINT_MAX n); [lia|].
    destruct (Z.leb_spec (maxModelSize b) n); [lia|].
    rewrite Hreset. simpl.
    rewrite resetNeverReturns_below; [now apply IH|].
    apply roundsFrom_le in Hrounds. lia.
Qed.

Lemma searchLoop_refutation b ext :
  (forall varCount cnf, solve ext varCount cnf <> SATSolver.UNKNOWN) ->
  forall (k : nat) n0 lay0,
    (Z.to_nat (UINT_MAX - n0) <= k)%nat ->
    reasonOf (searchLoop b ext n0 lay0) = Some Statistics.REFUTATION ->
    exists n lay,
      roundsFrom b ext n0 lay0 n lay
      /\ roundAnswer b ext n lay = Some SATSolver.UNSATISFIABLE
      /\ n < UINT_MAX /\ maxModelSize b <= n.
Proof.
  intros Hsolver. induction k as [|k IH]; intros n0 lay0 Hk Hres;
    rewrite searchLoop_round in Hres;
    destruct (roundAnswer b ext n0 lay0) as [[| |]|] eqn:Hanswer;
    try (simpl in Hres; discriminate);
    try (destruct (timeLimitReached ext n0); simpl in Hres; discriminate);
    try (destruct (solverVarCount lay0); [|simpl in Hres; discriminate];
         destruct (onModelFound b ext lay0 _ _ n0 None); simpl in Hres; discriminate);
    try (destruct (timeLimitReached ext n0); [simpl in Hres; discriminate|];
         destruct (existsb (orderingReadsPastEnd n0) _); [simpl in Hres; discriminate|];
         destruct (existsb (orderingNeverReturns n0) _); simpl in Hres; discriminate);
    try (exfalso; apply roundAnswer_Some in Hanswer;
         destruct Hanswer as (_ & _ & _ & varCount & _ & Hanswer);
         now apply Hsolver in Hanswer).
  - destruct (Z.leb_spec UINT_MAX n0); [simpl in Hres; discriminate|]. lia.
  - destruct (Z.leb_spec UINT_MAX n0); [simpl in Hres; discriminate|].
    destruct (Z.leb_spec (maxModelSize b) n0).
    + exists n0, lay0. split; [constructor|]. repeat split; [assumption|lia|assumption].
    + destruct (reset b lay0 (n0 + 1)) as [ok lay1] eqn:Hreset. simpl in Hres.
      destruct ok; [|simpl in Hres; discriminate].
      destruct (resetNeverReturns b (n0 + 1)); [simpl in Hres; discriminate|].
      destruct (IH (n0 + 1) lay1 ltac:(lia) Hres) as (n & lay & Hrounds & Hrest).
      exists n, lay. split; [|exact Hrest].
      now apply (rounds_next b ext n0 lay0 lay1).
Qed.

(** C8 (amended). A round whose SAT result is UNSATISFIABLE ends the loop
    with UNKNOWN when [n] is [UINT_MAX]; otherwise with REFUTATION and the
    dummy empty clause when [n ≥ maxModelSize]; otherwise [n] is incremented
    by exactly one and [reset] is called for the new size: the loop goes on
    with the next round when it returns [true] and ends with UNKNOWN when it
    returns [false] (a [reset] that has set the offsets for [UINT_MAX] and
    gets to its loops over [1 .. size] never returns).
    With a solver that never answers UNKNOWN, the loop returns REFUTATION
    exactly when, through such rounds that go on, it reaches a round with
    [maxModelSize ≤ n < UINT_MAX] whose SAT result is UNSATISFIABLE, and then
    with the dummy empty clause. *)
Theorem searchLoop_unsatisfiable_rounds :
  forall (b : Builder) (ext : External),
    (forall n lay,
       roundAnswer b ext n lay = Some SATSolver.UNSATISFIABLE ->
       searchLoop b ext n lay
       = if UINT_MAX <=? n then gaveUp
         else if maxModelSize b <=? n then refuted
         else if fst (reset b lay (n + 1))
              then if resetNeverReturns b (n + 1) then NeverReturns
                   else searchLoop b ext (n + 1) (snd (reset b lay (n + 1)))
              else gaveUp)
    /\ ((forall varCount cnf, solve ext varCount cnf <> SATSolver.UNKNOWN) ->
        forall n0 lay0,
          (reasonOf (searchLoop b ext n0 lay0) = Some Statistics.REFUTATION <->
           exists n lay,
             roundsFrom b ext n0 lay0 n lay
             /\ roundAnswer b ext n lay = Some SATSolver.UNSATISFIABLE
             /\ n < UINT_MAX /\ maxModelSize b <= n)
          /\ (reasonOf (searchLoop b ext n0 lay0) = Some Statistics.REFUTATION ->
              searchLoop b ext n0 lay0 = refuted)).
Proof.
  intros b ext. split.
  - intros n lay Hanswer. rewrite searchLoop_round at 1. now rewrite Hanswer.
  - intros Hsolver n0 lay0.
    assert (Hiff : reasonOf (searchLoop b ext n0 lay0) = Some Statistics.REFUTATION <->
                   exists n lay,
                     roundsFrom b ext n0 lay0 n lay
                     /\ roundAnswer b ext n lay = Some SATSolver.UNSATISFIABLE
                     /\ n < UINT_MAX /\ maxModelSize b <= n).
    { split.
      - now apply (searchLoop_refutation b ext Hsolver (Z.to_nat (UINT_MAX - n0))).
      - intros (n & lay & Hrounds & Hanswer & Hlt & Hmax).
        now rewrite (roundsFrom_refuted b ext n0 lay0 n lay). }
    split; [exact Hiff|].
    intros Hres. apply Hiff in Hres. destruct Hres as (n & lay & Hrounds & Hanswer & Hlt & Hmax).
    now apply (roundsFrom_refuted b ext n0 lay0 n lay).
Qed.

(** ** The model extractor *)









(** ** [runImpl] on concrete problems *)

Lemma runImpl_eq b ext :
  runImpl b ext
  = if negb (complete (opt b)) then gaveUp
    else if fst (reset b (initialLayout b) (startModelSize b))
            && resetNeverReturns b (startModelSize b)
         then NeverReturns
         else if vdebug b && negb (fst (reset b (initialLayout b) (startModelSize b)))
         then AssertionViolation
         else searchLoop b ext (startModelSize b)
                (snd (reset b (initialLayout b) (startModelSize b))).
Proof.
  unfold runImpl. destruct (negb (complete (opt b))); [reflexivity|].
  destruct (reset b (initialLayout b) (startModelSize b)) as [ok lay]. reflexivity.
Qed.

Lemma runImpl_release b ext :
  complete (opt b) = true -> vdebug b = false ->
  resetNeverReturns b (startModelSize b) = false ->
  runImpl b ext
  = searchLoop b ext (startModelSize b)
      (snd (reset b (initialLayout b) (startModelSize b))).
Proof.
  intros Hcomplete Hdebug Hreset. rewrite runImpl_eq, Hcomplete, Hdebug, Hreset.
  now rewrite andb_false_r.
Qed.

(** The sibling of the first call of [reset]: at the end of a round that is
    not satisfiable, with [n] below [UINT_MAX] and below [_maxModelSize], a
    failing [reset] for the next size ends the search with UNKNOWN. *)
Lemma searchLoop_later_overflow b ext n lay answer :
  roundAnswer b ext n lay = Some answer ->
  answer <> SATSolver.SATISFIABLE ->
  n < UINT_MAX -> n < maxModelSize b ->
  fst (reset b lay (n + 1)) = false ->
  searchLoop b ext n lay = gaveUp.
Proof.
  intros Hanswer Hne Hn Hmax Hreset. rewrite searchLoop_round, Hanswer.
  destruct (Z.leb_spec UINT_MAX n); [lia|].
  destruct (Z.leb_spec (maxModelSize b) n); [lia|].
  rewrite Hreset. destruct answer; [contradiction|reflexivity|reflexivity].
Qed.

(** C6 fails on the code at the first round.  For two constants and start
    size 50000 the first call of [reset] detects the overflow and returns
    [false]; [runImpl] does not report UNKNOWN: a debug build stops at the
    assertion [ALWAYS(reset(modelSize))], a release build goes on into the
    first round without a solver and, unless the time limit is reached
    first, uses it. *)
Theorem runImpl_first_reset_overflow :
  let b := twoConstants 50000 1 PROOF_ON in
  startModelSize b = 50000
  /\ fst (reset b (initialLayout b) 50000) = false
  /\ (forall ext,
        runImpl b ext
        = if timeLimitReached ext 50000
          then Finished (mkMainLoopResult Statistics.TIME_LIMIT None) None
          else UndefinedBehaviour)
  /\ (forall ext, runImpl (debugBuild b) ext = AssertionViolation)
  /\ (forall ext, runImpl b ext <> gaveUp /\ runImpl (debugBuild b) ext <> gaveUp).
Proof.
  intros b.
  assert (Hstart : startModelSize b = 50000) by reflexivity.
  assert (Hreset : reset b (initialLayout b) 50000
                   = (false, {| f_offsets := [1; 2500000001]; p_offsets := [0];
                                solverVarCount := None; sortedGroundedTerms := [] |}))
    by (vm_compute; reflexivity).
  assert (Hrelease : forall ext,
            runImpl b ext
            = if timeLimitReached ext 50000
              then Finished (mkMainLoopResult Statistics.TIME_LIMIT None) None
              else UndefinedBehaviour).
  { intros ext. rewrite runImpl_eq, Hstart, Hreset.
    change (negb (complete (opt b))) with false.
    change (vdebug b) with false. cbn [fst snd andb negb]. cbv iota.
    rewrite searchLoop_round. unfold roundAnswer. simpl snd.
    destruct (timeLimitReached ext 50000); reflexivity. }
  assert (Hdebug : forall ext, runImpl (debugBuild b) ext = AssertionViolation).
  { intros ext. rewrite runImpl_eq.
    change (startModelSize (debugBuild b)) with 50000.
    change (reset (debugBuild b) (initialLayout (debugBuild b)) 50000)
      with (reset b (initialLayout b) 50000).
    rewrite Hreset. reflexivity. }
  split; [exact Hstart|]. split; [now rewrite Hreset|].
  split; [exact Hrelease|]. split; [exact Hdebug|].
  intros ext. rewrite Hrelease, Hdebug. split; [|discriminate].
  destruct (timeLimitReached ext 50000); discriminate.
Qed.

(** * The statements on concrete problems *)

Lemma oracle_solve answer a varCount cnf : solve (oracle answer a) varCount cnf = answer.
Proof. reflexivity. Qed.

Lemma oracle_time answer a n : timeLimitReached (oracle answer a) n = false.
Proof. reflexivity. Qed.

(** ** C1 *)

(** Uniqueness over the whole domain is not enforced.  The constant [a] lives in a sort bounded by 1; the
    problem has no model of size 1 (the clauses of that round hold [f(1) = 1]
    and its negation), so the search gets to size 2.  There the only clause
    on [a] is the totality clause [[a = 1]], whatever window the canonicity
    axioms get, and the model [b = 1, f(1) = 2, f(2) = 1] with both [a = 1]
    and [a = 2] true satisfies all clauses: not exactly one [e] in [[1..2]]
    has its variable true. *)
Lemma functionality_not_over_whole_domain :
  let b := boundedSort in
  let lay := boundedSortLayout in
  let a := trueAt [1; 2; 5; 10; 11] in
  reset b (initialLayout b) 2 = (true, lay)
  /\ deletedFunction b O = false
  /\ fbound (sortedSignature b) O O = 1
  /\ evalCNF a (encode b (snd (reset b (initialLayout b) 1)) 1 (maxModelSize b)) = false
  /\ (forall maxModelSize, evalCNF a (encode b lay 2 maxModelSize) = true)
  /\ ~ (exists e,
          (1 <= e <= 2 /\ a (lit_var (getSATLiteral lay O ([] ++ [e]) true true 2)) = true)
          /\ forall e',
               1 <= e' <= 2 ->
               a (lit_var (getSATLiteral lay O ([] ++ [e']) true true 2)) = true ->
               e' = e).
Proof.
  intros b lay a.
  split; [reflexivity|]. split; [reflexivity|]. split; [reflexivity|].
  split; [reflexivity|]. split.
  - intros m. unfold encode, addNewSymmetryAxioms.
    change (sortedGroundedTerms lay)
      with [groundedTermsOfSort b 2 0; groundedTermsOfSort b 2 1].
    cbn [fold_left]. unfold addNewSymmetryCanonicityAxioms.
    rewrite !canonicityClauses_shape. change (2 <=? 1) with false. cbv iota.
    pose proof (canonicityWidth_le b m (length (groundedTermsOfSort b 2 0))) as H0.
    pose proof (canonicityWidth_le b m (length (groundedTermsOfSort b 2 1))) as H1.
    change (Z.of_nat (length (groundedTermsOfSort b 2 0))) with 1 in H0.
    change (Z.of_nat (length (groundedTermsOfSort b 2 1))) with 3 in H1.
    replace (Z.to_nat (canonicityWidth b m (length (groundedTermsOfSort b 2 0))) - 1)%nat
      with O by lia.
    assert (Hw : (Z.to_nat (canonicityWidth b m (length (groundedTermsOfSort b 2 1))) - 1 = 0
                  \/ Z.to_nat (canonicityWidth b m (length (groundedTermsOfSort b 2 1))) - 1 = 1
                  \/ Z.to_nat (canonicityWidth b m (length (groundedTermsOfSort b 2 1))) - 1 = 2)%nat)
      by lia.
    destruct Hw as [-> | [-> | ->]]; vm_compute; reflexivity.
  - intros [e [[He _] Huniq]].
    assert (H1 : 1 = e) by (apply Huniq; [lia|reflexivity]).
    assert (H2 : 2 = e) by (apply Huniq; [lia|reflexivity]).
    lia.
Qed.

(** The search on that problem, with a solver that tries this assignment:
    size 1 is unsatisfiable, size 2 satisfiable. *)
Lemma boundedSort_run :
  runImpl boundedSort (trying (trueAt [1; 2; 5; 10; 11]))
  = Finished (mkMainLoopResult Statistics.SATISFIABLE None) (Some "model"%string).
Proof.
  rewrite runImpl_release by reflexivity.
  change (startModelSize boundedSort) with 1.
  rewrite searchLoop_round.
  assert (H1 : roundAnswer boundedSort (trying (trueAt [1; 2; 5; 10; 11])) 1
                 (snd (reset boundedSort (initialLayout boundedSort) 1))
               = Some SATSolver.UNSATISFIABLE) by (vm_compute; reflexivity).
  rewrite H1.
  change (UINT_MAX <=? 1) with false.
  change (maxModelSize boundedSort <=? 1) with false. cbv iota.
  assert (Hreset : reset boundedSort (snd (reset boundedSort (initialLayout boundedSort) 1))
                     (1 + 1)
                   = (true, boundedSortLayout)) by (vm_compute; reflexivity).
  rewrite Hreset. simpl fst. simpl snd. cbv iota.
  change (resetNeverReturns boundedSort (1 + 1)) with false. cbv iota.
  rewrite searchLoop_round.
  assert (H2 : roundAnswer boundedSort (trying (trueAt [1; 2; 5; 10; 11])) (1 + 1)
                 boundedSortLayout
               = Some SATSolver.SATISFIABLE) by (vm_compute; reflexivity).
  rewrite H2. reflexivity.
Qed.

(** C1 fails on the code.  The claim asks for exactly one true image in
    [[1 .. n]], and so does the extractor, whose loop over [c] in
    [[1 .. modelSize]] asserts [!found] at every true image.  The encoder
    asks for less: for the constant [a] of a sort bounded by 1 the clauses of
    size 2 hold the totality clause [[a = 1]] only.  The search on this
    problem ends at size 2 with an assignment in which both [a = 1] and
    [a = 2] are true: the assertion fails, and a release build records two
    values for [a]. *)
Theorem bounded_constant_two_values :
  let b := boundedSort in
  let lay := boundedSortLayout in
  let a := trueAt [1; 2; 5; 10; 11] in
  fbound (sortedSignature b) O O = 1
  /\ runImpl b (trying a)
     = Finished (mkMainLoopResult Statistics.SATISFIABLE None) (Some "model"%string)
  /\ roundAnswer b (trying a) 2 lay = Some SATSolver.SATISFIABLE
  /\ evalCNF a (encode b lay 2 (maxModelSize b)) = true
  /\ a (lit_var (getSATLiteral lay O [1] true true 2)) = true
  /\ a (lit_var (getSATLiteral lay O [2] true true 2)) = true
  /\ fm_constants (recordModel b (evalLit a) lay 2) = [(O, 1); (O, 2); (1%nat, 1)]
  /\ constantAssertions (evalLit a) lay 2 O = false.
Proof.
  intros b lay a.
  split; [reflexivity|]. split; [exact boundedSort_run|].
  split; [vm_compute; reflexivity|].
  split; [apply functionality_not_over_whole_domain|].
  repeat split; vm_compute; reflexivity.
Qed.

Lemma functionality_and_totality_witness :
  exists e,
    (1 <= e <= Z.min 2 (fbound (sortedSignature oneSort) 1 0)
     /\ trueAt [1; 5; 6] (lit_var (getSATLiteral oneSortLayout 1 ([2] ++ [e]) true true 2))
        = true)
    /\ forall e',
         1 <= e' <= Z.min 2 (fbound (sortedSignature oneSort) 1 0) ->
         trueAt [1; 5; 6] (lit_var (getSATLiteral oneSortLayout 1 ([2] ++ [e']) true true 2))
         = true ->
         e' = e.
Proof.
  apply (functionality_and_totality oneSort oneSortLayout 2 (maxModelSize oneSort)
           (trueAt [1; 5; 6]) 1%nat [2]).
  - apply removeDuplicateLiterals_ref_keepsLiterals.
  - unfold UINT_MAX. lia.
  - vm_compute. lia.
  - reflexivity.
  - intros i Hi. change (functionArity (signature oneSort) 1) with 1%nat in Hi.
    destruct i as [|[|i]]; [vm_compute; discriminate|vm_compute; discriminate|lia].
  - constructor; [|constructor]. vm_compute. split; discriminate.
  - vm_compute. reflexivity.
Defined.

(** ** C2 *)

(** C2 as stated fails: at size 2, for a constant, a unary function and a
    unary predicate, [reset] gives the constant a block of [2^2 = 4]
    variables (the function starts at 5, not at [1 + 2^1]), and hands the
    solver 18, while the count of the spec is [1 + 2 + 4 + 2 = 9]. *)
Lemma reset_blocks_larger_than_spec :
  reset oneSort (initialLayout oneSort) 2 = (true, oneSortLayout)
  /\ f_offsets oneSortLayout = [1; 5]
  /\ p_offsets oneSortLayout !!! 1%nat = 13
  /\ solverVarCount oneSortLayout = Some 18
  /\ specTotalVars oneSort 2 = 9
  /\ totalVars oneSort 2 = 17.
Proof. repeat split; reflexivity. Qed.

Lemma reset_layout_witness :
  (forall isF s, liveSymbol oneSort isF s ->
     offsetOf oneSortLayout s isF = blockStart oneSort 2 isF s
     /\ blockStart oneSort 2 isF s + blockSize oneSort 2 isF s <= totalVars oneSort 2)
  /\ totalVars oneSort 2 <= UINT_MAX
  /\ solverVarCount oneSortLayout = Some (wrap (totalVars oneSort 2 + 1))
  /\ (forall isF s tuple pol,
        inBounds oneSort 2 isF s tuple ->
        let var := lit_var (getSATLiteral oneSortLayout s tuple pol isF 2) in
        var = blockStart oneSort 2 isF s + tupleSum 2 tuple
        /\ blockStart oneSort 2 isF s <= var
           < blockStart oneSort 2 isF s + blockSize oneSort 2 isF s
        /\ 1 <= var < totalVars oneSort 2)
  /\ (forall isF1 s1 tuple1 pol1 isF2 s2 tuple2 pol2,
        inBounds oneSort 2 isF1 s1 tuple1 -> inBounds oneSort 2 isF2 s2 tuple2 ->
        lit_var (getSATLiteral oneSortLayout s1 tuple1 pol1 isF1 2)
        = lit_var (getSATLiteral oneSortLayout s2 tuple2 pol2 isF2 2) ->
        isF1 = isF2 /\ s1 = s2 /\ tuple1 = tuple2).
Proof.
  apply (reset_layout oneSort (initialLayout oneSort) oneSortLayout 2).
  - lia.
  - reflexivity.
  - reflexivity.
  - intros s Hs _. simpl in Hs.
    destruct Hs as [<-|[<-|[]]]; vm_compute; discriminate.
  - intros s Hs _. simpl in Hs.
    destruct Hs as [<-|[]]; vm_compute; discriminate.
  - reflexivity.
Defined.

(** ** C3 *)

Lemma getSATLiteral_var_witness :
  lit_var (getSATLiteral oneSortLayout 1 [2; 1] true true 2)
  = wrap (offsetOf oneSortLayout 1 true + tupleSum 2 [2; 1])
  /\ lit_polarity (getSATLiteral oneSortLayout 1 [2; 1] true true 2) = true
  /\ (0 <= offsetOf oneSortLayout 1 true + tupleSum 2 [2; 1] <= UINT_MAX ->
      lit_var (getSATLiteral oneSortLayout 1 [2; 1] true true 2)
      = offsetOf oneSortLayout 1 true + tupleSum 2 [2; 1]).
Proof.
  apply (getSATLiteral_var oneSortLayout 1%nat [2; 1] true true 2).
  vm_compute. split; discriminate.
Defined.

(** ** C4 *)

(** C4 as stated fails for an instance whose remaining literals hold a
    variable in both polarities.  Under the grounding [[1, 1]] the
    disequality of [p(x0) | ~p(x1) | x0 != x1] is trivially false and is
    dropped; the rest, [p(1) | ~p(1)], goes to [addSATClause], where
    duplicate-literal removal returns no clause: nothing is emitted for this
    grounding. *)
Lemma instance_with_both_polarities_not_emitted :
  let b := congruence in
  let lay := snd (reset b (initialLayout b) 2) in
  let c := {| varCnt := 2;
              literals := [PredicateAtom true 1 [O]; PredicateAtom false 1 [1%nat];
                           TwoVarEquality false 0 1] |} in
  clauses b = [c]
  /\ In [1; 1] (groundings (instanceMins b 2 c))
  /\ existsb (triviallyTrue [1; 1]) (literals c) = false
  /\ triviallyTrue [1; 1] (TwoVarEquality false 0 1) = false
  /\ omap (translateLiteral lay 2 [1; 1]) (literals c)
     = [mkSATLiteral 5 true; mkSATLiteral 5 false]
  /\ addInstance b lay 2 c [] [1; 1] = []
  /\ addNewInstances b lay 2 [] = [].
Proof. repeat split; vm_compute; auto. Qed.

Lemma addInstance_two_variable_equalities_witness :
  let b := oneSort in
  let c := {| varCnt := 2;
              literals := [FunctionEquality true 1 [O] 1%nat; PredicateAtom false 1 [1%nat];
                           TwoVarEquality false 0 1] |} in
  addInstance b oneSortLayout 2 c [] [1; 2] = []
  /\ exists cl,
       addInstance b oneSortLayout 2 c [] [2; 2] = [cl]
       /\ forall l, In l cl <-> In l [mkSATLiteral 8 true; mkSATLiteral 14 false].
Proof.
  intros b c.
  pose proof (addInstance_two_variable_equalities b oneSortLayout 2 c [] [1; 2]
                removeDuplicateLiterals_ref_keepsLiterals) as (Hskip & _).
  pose proof (addInstance_two_variable_equalities b oneSortLayout 2 c [] [2; 2]
                removeDuplicateLiterals_ref_keepsLiterals) as (_ & Hemit & _).
  split; [apply Hskip; reflexivity|].
  destruct (Hemit eq_refl) as [(cl & Hcl & Hsame)|(Hnone & v & Hpos & Hneg)].
  - exists cl. split; [exact Hcl|exact Hsame].
  - exfalso. simpl in Hpos, Hneg.
    destruct Hpos as [Hpos|[Hpos|[]]]; [|discriminate].
    destruct Hneg as [Hneg|[Hneg|[]]]; [discriminate|].
    injection Hpos as <-. discriminate.
Defined.

(** ** C5 *)

(** C5 as stated fails twice over.  At size 1, ratio 1 and bound 2, two
    grounded terms: the stated layer holds the clause for [i = 1], the code
    returns at once.  At size 2, ratio 1/2 and bound 3: the stated
    [w = min(⌈3/2⌉, 2) = 2] gives the clause for [i = 1], the code truncates
    the product to [w = 1] and emits nothing. *)
Lemma canonicity_not_ceiling_nor_at_size_one :
  (let b := twoConstants 1 1 PROOF_ON in
   let lay := snd (reset b (initialLayout b) 1) in
   let G := groundedTermsOfSort b 1 0 in
   length G = 2%nat
   /\ addNewSymmetryCanonicityAxioms b lay 1 G 2 [] = []
   /\ length (emitted b (specCanonicityLayer b lay 1 G 2) []) = 1%nat)
  /\ (let b := twoConstants 2 (1 # 2) PROOF_ON in
      let lay := snd (reset b (initialLayout b) 2) in
      let G := groundedTermsOfSort b 2 0 in
      length G = 2%nat
      /\ addNewSymmetryCanonicityAxioms b lay 2 G 3 [] = []
      /\ emitted b (specCanonicityLayer b lay 2 G 3) []
         = [[mkSATLiteral 6 false; mkSATLiteral 1 true]]).
Proof. repeat split; reflexivity. Qed.

Lemma addNewSymmetryCanonicityAxioms_layer_witness :
  let b := twoConstants 2 1 PROOF_ON in
  let lay := snd (reset b (initialLayout b) 2) in
  let G := groundedTermsOfSort b 2 0 in
  addNewSymmetryCanonicityAxioms b lay 2 G 3 []
  = emitted b (canonicityLayer lay (signature b) 2 G 2) []
  /\ emitted b (canonicityLayer lay (signature b) 2 G 2) []
     = [[mkSATLiteral 6 false; mkSATLiteral 1 true]].
Proof.
  intros b lay G. split; [|reflexivity].
  assert (Hn : 0 <= 2 <= UINT_MAX) by (unfold UINT_MAX; lia).
  assert (Hm : 0 <= 3 <= UINT_MAX) by (unfold UINT_MAX; lia).
  destruct (addNewSymmetryCanonicityAxioms_layer b lay 2 G 3 [] Hn Hm) as (_ & Hlayer & _).
  apply Hlayer; [lia|reflexivity|vm_compute; split; discriminate].
Defined.

(** The product is a single-precision product.  With the ratio 0.7, the
    [float] nearest to it is below 0.7 and the exact product with 10 is below
    7, yet the [float] product is 7.  With the ratio 1 and the bound
    [UINT_MAX], which [init] leaves when no clause lowers it, [maxSize]
    becomes [2^32] as a [float]: the product is out of the range of
    [unsigned] and the width is what the platform makes of it. *)
Lemma canonicityWidth_single_precision :
  (let b := twoConstants 2 (7 # 10) PROOF_ON in
   canonicityWidth b 10 100 = 7
   /\ Qfloor (floatValue (fmbSymmetryRatio (opt b)) * inject_Z 10) = 6)
  /\ (forall (b : Builder) (len : nat),
        fmbSymmetryRatio (opt b) = floatOfRatio 1 ->
        floatMul (fmbSymmetryRatio (opt b)) (floatOfUnsigned UINT_MAX)
        = S754_finite false 8388608 9
        /\ canonicityWidth b UINT_MAX len
           = if Z.of_nat len <? outOfRange b (2 ^ 32) then Z.of_nat len
             else outOfRange b (2 ^ 32)).
Proof.
  split; [split; vm_compute; reflexivity|].
  intros b len Hratio. unfold canonicityWidth. rewrite Hratio.
  change (floatMul (floatOfRatio 1) (floatOfUnsigned UINT_MAX))
    with (S754_finite false 8388608 9).
  split; reflexivity.
Qed.

(** ** C8 *)

(** C8 as stated fails for unsatisfiable rounds that neither refute nor go
    on.  With no symbols and start size [UINT_MAX], an EPR problem, the
    bound is 1 and the round is unsatisfiable with [n ≥ maxModelSize], yet
    the result is UNKNOWN.  With two unary functions and start size 1290 the
    unsatisfiable round is below the bound, yet the loop does not go on:
    [reset(1291)] fails and the result is UNKNOWN. *)
Lemma unsatisfiable_round_gives_up :
  (let b := noSymbols UINT_MAX in
   let ext := oracle SATSolver.UNSATISFIABLE (trueAt []) in
   startModelSize b = UINT_MAX
   /\ maxModelSize b = 1
   /\ roundAnswer b ext UINT_MAX (snd (reset b (initialLayout b) UINT_MAX))
      = Some SATSolver.UNSATISFIABLE
   /\ runImpl b ext = gaveUp)
  /\ (let b := twoUnary 1290 in
      let ext := oracle SATSolver.UNSATISFIABLE (trueAt []) in
      startModelSize b = 1290
      /\ maxModelSize b = UINT_MAX
      /\ roundAnswer b ext 1290 (snd (reset b (initialLayout b) 1290))
         = Some SATSolver.UNSATISFIABLE
      /\ runImpl b ext = gaveUp).
Proof.
  split.
  - intros b ext.
    assert (Hstart : startModelSize b = UINT_MAX) by reflexivity.
    assert (Hsolver : solverVarCount (snd (reset b (initialLayout b) UINT_MAX)) = Some 2)
      by reflexivity.
    assert (Hanswer : roundAnswer b ext UINT_MAX (snd (reset b (initialLayout b) UINT_MAX))
                      = Some SATSolver.UNSATISFIABLE).
    { unfold roundAnswer. rewrite Hsolver. reflexivity. }
    split; [exact Hstart|]. split; [reflexivity|]. split; [exact Hanswer|].
    rewrite runImpl_release by reflexivity. rewrite Hstart.
    rewrite searchLoop_round, Hanswer. reflexivity.
  - intros b ext.
    assert (Hstart : startModelSize b = 1290) by reflexivity.
    assert (Hsolver : solverVarCount (snd (reset b (initialLayout b) 1290))
                      = Some 4293378002) by (vm_compute; reflexivity).
    assert (Hanswer : roundAnswer b ext 1290 (snd (reset b (initialLayout b) 1290))
                      = Some SATSolver.UNSATISFIABLE).
    { unfold roundAnswer. rewrite Hsolver. unfold ext.
      rewrite oracle_time, oracle_solve. reflexivity. }
    assert (Hnext : fst (reset b (snd (reset b (initialLayout b) 1290)) (1290 + 1)) = false)
      by (vm_compute; reflexivity).
    split; [exact Hstart|]. split; [reflexivity|]. split; [exact Hanswer|].
    rewrite runImpl_release by reflexivity. rewrite Hstart.
    apply (searchLoop_later_overflow b ext 1290 _ SATSolver.UNSATISFIABLE);
      [exact Hanswer|discriminate|unfold UINT_MAX; lia| |exact Hnext].
    change (maxModelSize b) with UINT_MAX. unfold UINT_MAX. lia.
Qed.

Lemma searchLoop_unsatisfiable_rounds_witness :
  let b := noSymbols 1 in
  let ext := oracle SATSolver.UNSATISFIABLE (trueAt []) in
  let lay := snd (reset b (initialLayout b) 1) in
  searchLoop b ext 1 lay = refuted.
Proof.
  intros b ext lay.
  destruct (searchLoop_unsatisfiable_rounds b ext) as [Hround Hloop].
  assert (Hanswer : roundAnswer b ext 1 lay = Some SATSolver.UNSATISFIABLE)
    by reflexivity.
  assert (Hsolver : forall varCount cnf, solve ext varCount cnf <> SATSolver.UNKNOWN)
    by (intros varCount cnf; discriminate).
  destruct (Hloop Hsolver 1 lay) as [Hiff Hrefuted].
  apply Hrefuted, Hiff. exists 1, lay.
  split; [constructor|]. split; [exact Hanswer|].
  split; [unfold UINT_MAX; lia|]. vm_compute. discriminate.
Defined.

(** ** C9 *)


(** With no function symbol in the signature the extractor is not defined:
    the loop over the eliminated functions starts at [functions()-1], which
    is [UINT_MAX]. *)
Lemma extraction_without_function_symbols :
  let b := propositional in
  let ext := trying (trueAt [1]) in
  functions (signature b) = O
  /\ roundAnswer b ext 1 (snd (reset b (initialLayout b) 1)) = Some SATSolver.SATISFIABLE
  /\ runImpl b ext = UndefinedBehaviour.
Proof.
  intros b ext.
  assert (Hanswer : roundAnswer b ext 1 (snd (reset b (initialLayout b) 1))
                    = Some SATSolver.SATISFIABLE) by (vm_compute; reflexivity).
  split; [reflexivity|]. split; [exact Hanswer|].
  rewrite runImpl_release by reflexivity.
  change (startModelSize b) with 1.
  rewrite searchLoop_round, Hanswer. reflexivity.
Qed.


(** ** C10 *)

Lemma canonicity_groundings_positive_witness :
  Forall (fun call =>
            Forall (fun g => 1 <= g /\ wrap (g - 1) = g - 1) (call_grounding call)
            /\ (call_polarity call = true ->
                last (call_grounding call) = Some (2 - 1) /\ 1 <= 2 - 1))
    (canonicityCalls oneSort 2 (groundedTermsOfSort oneSort 2 0) 3).
Proof.
  assert (Hn : 0 <= 2 <= UINT_MAX) by (unfold UINT_MAX; lia).
  destruct (canonicity_groundings_positive oneSort 2 3 Hn) as [_ Hcalls].
  apply Forall_forall. intros call Hin. apply list_elem_of_In in Hin.
  apply (Hcalls O); [|exact Hin].
  intros c Hc. simpl in Hc. destruct Hc as [<-|[]]. reflexivity.
Defined.

(** ** The labelled loops visit the tuples like nested loops *)

Lemma increasing_app {A : Type} (r : A -> Z) (l1 l2 : list A) :
  increasing r (l1 ++ l2)
  <-> increasing r l1 /\ increasing r l2
      /\ forall x y, In x l1 -> In y l2 -> r x < r y.
Proof.
  induction l1 as [|a l1 IH]; simpl.
  - split; [intros H; repeat split; [assumption|intros x y []]|tauto].
  - rewrite IH. rewrite Forall_app. rewrite !Forall_forall. split.
    + intros [[H1 H2] (H3 & H4 & H5)]. repeat split; try assumption.
      intros x y [<-|Hx] Hy; [apply H2; now apply list_elem_of_In|now apply H5].
    + intros ((H1 & H3) & H4 & H5). repeat split; try assumption.
      * intros y Hy. apply H5; [now left|now apply list_elem_of_In].
      * intros x y Hx Hy. apply H5; [now right|assumption].
Qed.

Lemma increasing_map {A B : Type} (r : B -> Z) (f : A -> B) (l : list A) :
  increasing r (map f l) <-> increasing (fun x => r (f x)) l.
Proof.
  induction l as [|a l IH]; simpl; [tauto|].
  rewrite IH. rewrite Forall_map. tauto.
Qed.

Lemma increasing_NoDup {A : Type} (r : A -> Z) (l : list A) : increasing r l -> NoDup l.
Proof.
  induction l as [|a l IH]; simpl; [constructor|].
  intros [Ha Hl]. constructor; [|now apply IH].
  intros Hin. rewrite Forall_forall in Ha. specialize (Ha a Hin). lia.
Qed.

(** Two lists in increasing order with the same elements are the same list. *)
Lemma increasing_eq {A : Type} (r : A -> Z) (l1 : list A) : forall l2,
  increasing r l1 -> increasing r l2 -> (forall x, In x l1 <-> In x l2) -> l1 = l2.
Proof.
  induction l1 as [|x l1 IH]; intros [|y l2] H1 H2 Hsame.
  - reflexivity.
  - destruct (proj2 (Hsame y) (or_introl eq_refl)).
  - destruct (proj1 (Hsame x) (or_introl eq_refl)).
  - simpl in H1, H2. destruct H1 as [Hx H1], H2 as [Hy H2].
    rewrite Forall_forall in Hx, Hy.
    assert (Hxy : x = y).
    { destruct (proj1 (Hsame x) (or_introl eq_refl)) as [Heq|Hin]; [now symmetry|].
      destruct (proj2 (Hsame y) (or_introl eq_refl)) as [Heq|Hin']; [assumption|].
      apply list_elem_of_In in Hin, Hin'.
      specialize (Hx _ Hin'). specialize (Hy _ Hin). lia. }
    subst y. f_equal. apply IH; [assumption|assumption|].
    intros z. split; intros Hz.
    + destruct (proj1 (Hsame z) (or_intror Hz)) as [<-|Hin]; [|assumption].
      apply list_elem_of_In in Hz. specialize (Hx _ Hz). lia.
    + destruct (proj2 (Hsame z) (or_intror Hz)) as [<-|Hin]; [|assumption].
      apply list_elem_of_In in Hz. specialize (Hy _ Hz). lia.
Qed.

Lemma rank_snoc rm : forall rg m g,
  length rg = length rm ->
  rank (rm ++ [m]) (rg ++ [g]) = rank rm rg + period rm * counterIndex m g.
Proof.
  induction rm as [|m' rm IH]; intros [|g' rg] m g Hlen; try discriminate.
  - unfold period. simpl. lia.
  - simpl. rewrite IH by (simpl in Hlen; lia). unfold period. simpl. fold (period rm). lia.
Qed.

Lemma withinBounds_length g mins : withinBounds g mins -> length g = length mins.
Proof. apply Forall2_length. Qed.

Lemma place_cons m mins d t :
  length t = length mins ->
  place (m :: mins) (d :: t) = place mins t + period mins * counterIndex m d.
Proof.
  intros Hlen. unfold place. simpl. rewrite rank_snoc by (rewrite !length_rev; assumption).
  now rewrite period_rev.
Qed.

Lemma tuples_In mins : forall t, In t (tuples mins) <-> withinBounds t mins.
Proof.
  induction mins as [|m mins IH]; intros t; simpl.
  - split; [intros [<-|[]]; constructor|]. intros H. inversion H. now left.
  - rewrite in_flat_map. split.
    + intros (d & Hd & Hin). apply in_map_iff in Hin. destruct Hin as (t' & <- & Ht').
      apply upTo_In in Hd. constructor; [assumption|now apply IH].
    + intros H. inversion H as [|d ? t' ? Hd Ht']; subst.
      exists d. split; [now apply upTo_In|]. apply in_map_iff. exists t'.
      split; [reflexivity|now apply IH].
Qed.

Lemma place_range mins t :
  Forall (fun m => 1 <= m <= UINT_MAX) mins -> withinBounds t mins ->
  0 <= place mins t < period mins.
Proof.
  intros Hm Ht. destruct (validMins_unsigned mins Hm) as [Hu _].
  unfold place. rewrite <- (period_rev mins).
  apply rank_range; [now apply Forall_rev|].
  apply onCycles_rev. now apply withinBounds_onCycles.
Qed.

Lemma upTo_increasing size : increasing (fun d => d) (upTo size).
Proof.
  unfold upTo. generalize (Z.to_nat size) as k. generalize 1%nat as s.
  intros s k. revert s. induction k as [|k IH]; intros s; simpl; [exact I|].
  split; [|apply IH]. apply Forall_forall. intros y Hy.
  apply list_elem_of_In, in_map_iff in Hy. destruct Hy as (j & <- & Hj).
  apply in_seq in Hj. lia.
Qed.

Lemma tuples_increasing mins :
  Forall (fun m => 1 <= m <= UINT_MAX) mins -> increasing (place mins) (tuples mins).
Proof.
  induction 1 as [|m mins Hm Hmins IH]; simpl; [split; [constructor|exact I]|].
  assert (Hsub : forall ds, increasing (fun d => d) ds -> Forall (fun d => 1 <= d <= m) ds ->
            increasing (place (m :: mins)) (flat_map (fun d => map (cons d) (tuples mins)) ds)).
  { induction ds as [|d ds IHds]; intros Hinc Hall; simpl; [exact I|].
    destruct Hinc as [Hd Hinc]. inversion Hall as [|? ? Hd1 Hall']; subst.
    apply increasing_app. split; [|split].
    - apply increasing_map.
      assert (Hshift : forall l, Forall (fun t => withinBounds t mins) l ->
                increasing (place mins) l ->
                increasing (fun t => place (m :: mins) (d :: t)) l).
      { induction l as [|t l IHl]; simpl; [tauto|]. intros Hw [Ht Hl].
        inversion Hw as [|? ? Hwt Hwl]; subst. split; [|now apply IHl].
        rewrite Forall_forall in *. intros y Hy. specialize (Ht y Hy).
        rewrite !place_cons; [lia| |]; apply withinBounds_length; [now apply Hwl|assumption]. }
      apply Hshift; [|assumption]. apply Forall_forall. intros t Ht.
      now apply tuples_In, list_elem_of_In.
    - now apply IHds.
    - intros x y Hx Hy. apply in_map_iff in Hx. destruct Hx as (t & <- & Ht).
      apply in_flat_map in Hy. destruct Hy as (d' & Hd' & Hy).
      apply in_map_iff in Hy. destruct Hy as (t' & <- & Ht').
      apply tuples_In in Ht, Ht'.
      rewrite !place_cons by (now apply withinBounds_length).
      pose proof (place_range mins t Hmins Ht). pose proof (place_range mins t' Hmins Ht').
      rewrite Forall_forall in Hd. specialize (Hd d' (proj2 (list_elem_of_In _ _) Hd')).
      simpl in Hd. rewrite Forall_forall in Hall'.
      specialize (Hall' d' (proj2 (list_elem_of_In _ _) Hd')).
      unfold counterIndex. destruct (Z.eqb_spec m 0); [lia|]. nia. }
  apply Hsub; [apply upTo_increasing|].
  apply Forall_forall. intros d Hd. now apply upTo_In, list_elem_of_In.
Qed.

Lemma groundingsFrom_increasing mins fuel : forall g,
  Forall (fun m => 0 <= m <= UINT_MAX) mins ->
  counterState (rev mins) (rev g) ->
  increasing (place mins) (groundingsFrom fuel mins g)
  /\ Forall (fun t => place mins g < place mins t) (groundingsFrom fuel mins g).
Proof.
  induction fuel as [|fuel IH]; intros g Hm Hstate; simpl; [split; [exact I|constructor]|].
  unfold nextGrounding.
  destruct (advance (rev mins) (rev g)) as [rg'|] eqn:Hadv; simpl; [|split; [exact I|constructor]].
  destruct (advance_Some _ _ _ (Forall_rev Hm) Hstate Hadv) as [Hw Hrank].
  destruct (IH (rev rg') Hm) as [Hinc Hall].
  { rewrite rev_involutive. now apply onCycles_counterState. }
  assert (Hplace : place mins (rev rg') = place mins g + 1).
  { unfold place. now rewrite rev_involutive. }
  split; [split; [|assumption]|constructor].
  - eapply Forall_impl; [exact Hall|]. intros t Ht. exact Ht.
  - lia.
  - eapply Forall_impl; [exact Hall|]. intros t Ht. simpl in Ht. lia.
Qed.

Lemma groundings_tuples mins :
  Forall (fun m => 1 <= m <= UINT_MAX) mins -> mins <> [] ->
  groundings mins = tuples mins.
Proof.
  intros Hm Hne. destruct (validMins_unsigned mins Hm) as [Hu _].
  apply (increasing_eq (place mins)).
  - unfold groundings. apply groundingsFrom_increasing; [assumption|].
    now apply initialGrounding_state.
  - now apply tuples_increasing.
  - intros t. rewrite tuples_In. split.
    + now apply groundings_sound.
    + now apply groundings_complete.
Qed.

Lemma product_nonneg l : Forall (fun m => 0 <= m) l -> 0 <= product l.
Proof. unfold product. induction 1 as [|m l Hm _ IH]; simpl; [lia|nia]. Qed.

Lemma upTo_length size : 0 <= size -> Z.of_nat (length (upTo size)) = size.
Proof. intros H. unfold upTo. rewrite length_map, length_seq. lia. Qed.

Lemma tuples_length mins :
  Forall (fun m => 0 <= m) mins -> Z.of_nat (length (tuples mins)) = product mins.
Proof.
  induction 1 as [|m mins Hm _ IH]; simpl; [reflexivity|].
  assert (Hlen : forall ds, Z.of_nat (length (flat_map (fun d => map (cons d) (tuples mins)) ds))
                            = Z.of_nat (length ds) * product mins).
  { induction ds as [|d ds IHds]; simpl; [reflexivity|].
    rewrite length_app, length_map. lia. }
  rewrite Hlen, upTo_length by assumption. unfold product. simpl. reflexivity.
Qed.

(** X1. For bounds in [[1 .. UINT_MAX]], the labelled loop with its [goto]s
    runs its body at the same groundings, in the same order, as nested [for]
    loops over [1 .. mins[i]] with cell 0 outermost: every tuple within the
    bounds once, none twice, [mins[0] * ... * mins[k-1]] runs in all; then
    the loop falls through, however many more runs it is allowed. *)
Theorem groundings_nested_loops :
  forall (mins : list Z),
    Forall (fun m => 1 <= m <= UINT_MAX) mins -> mins <> [] ->
    groundings mins = tuples mins
    /\ NoDup (groundings mins)
    /\ (forall t, In t (groundings mins) <-> withinBounds t mins)
    /\ Z.of_nat (length (groundings mins)) = product mins
    /\ (forall extra : nat,
          groundingsFrom (length (tuples mins) + extra) mins (initialGrounding (length mins))
          = tuples mins).
Proof.
  intros mins Hm Hne. rewrite (groundings_tuples mins Hm Hne).
  assert (Hpos : Forall (fun m => 0 <= m) mins)
    by (eapply Forall_impl; [exact Hm|]; intros m H; simpl in H; lia).
  split; [reflexivity|]. split; [|split; [|split]].
  - apply (increasing_NoDup (place mins)). now apply tuples_increasing.
  - apply tuples_In.
  - now apply tuples_length.
  - intros extra. destruct (validMins_unsigned mins Hm) as [Hu Hone].
    destruct (initialGrounding_state mins Hu Hne) as (Hstate & _ & Hrank).
    specialize (Hrank Hone).
    assert (Hperiod : period mins = product mins).
    { rewrite period_product. f_equal. clear - Hone.
      induction Hone as [|m mins Hm1 _ IH]; simpl; [reflexivity|].
      rewrite IH. f_equal. unfold counterPeriod. destruct (Z.eqb_spec m 0); [lia|reflexivity]. }
    rewrite <- (groundings_tuples mins Hm Hne) at 2. unfold groundings.
    rewrite groundingsFrom_stable.
    + f_equal. rewrite Hperiod, <- (tuples_length mins Hpos). now rewrite Nat2Z.id.
    + exact Hu.
    + exact Hstate.
    + rewrite Hperiod, <- (tuples_length mins Hpos). lia.
Qed.

(** ** What the clauses of a round say *)

Lemma existsb_same_elements {A : Type} (f : A -> bool) (l1 l2 : list A) :
  (forall x, In x l1 <-> In x l2) -> existsb f l1 = existsb f l2.
Proof.
  intros Hsame. apply eq_true_iff_eq. rewrite !existsb_exists.
  split; intros (x & Hx & Hf); exists x; (split; [now apply Hsame|assumption]).
Qed.

Section Evaluated.
Context (b : Builder) (a : Z -> bool).
Hypothesis Hrdl : keepsLiterals (removeDuplicateLiterals b).

(** Duplicate removal does not change what the buffer says. *)
Lemma addSATClause_eval cl buf :
  evalCNF a (addSATClause b cl buf) = evalCNF a buf && evalClause a cl.
Proof.
  unfold addSATClause. pose proof (Hrdl cl) as Hcl.
  destruct (removeDuplicateLiterals b cl) as [cl'|].
  - rewrite evalCNF_app. simpl. rewrite andb_true_r. f_equal.
    unfold evalClause. now apply existsb_same_elements.
  - destruct Hcl as [v [Hpos Hneg]].
    rewrite (complementary_true a cl v Hpos Hneg). now rewrite andb_true_r.
Qed.

Lemma fold_left_eval {X : Type} (step : list SATClause -> X -> list SATClause)
    (q : X -> bool) (xs : list X) :
  (forall buf x, evalCNF a (step buf x) = evalCNF a buf && q x) ->
  forall buf, evalCNF a (fold_left step xs buf) = evalCNF a buf && forallb q xs.
Proof.
  intros Hstep. induction xs as [|x xs IH]; intros buf; simpl.
  - now rewrite andb_true_r.
  - rewrite IH, Hstep. now rewrite andb_assoc.
Qed.

Lemma addInstance_eval lay size c buf grounding :
  evalCNF a (addInstance b lay size c buf grounding)
  = evalCNF a buf && instanceHolds a lay size c grounding.
Proof.
  unfold addInstance, instanceHolds. rewrite groundLiterals_spec.
  destruct (existsb (triviallyTrue grounding) (literals c)); simpl.
  - now rewrite andb_true_r.
  - apply addSATClause_eval.
Qed.

Lemma addNewInstances_eval lay size buf :
  evalCNF a (addNewInstances b lay size buf)
  = evalCNF a buf
    && forallb (fun c => forallb (instanceHolds a lay size c) (groundings (instanceMins b size c)))
         (clauses b).
Proof.
  unfold addNewInstances. apply fold_left_eval. intros buf' c.
  apply fold_left_eval. intros buf'' g. apply addInstance_eval.
Qed.

Lemma addGroundClauses_eval lay buf :
  evalCNF a (addGroundClauses b lay buf)
  = evalCNF a buf && forallb (groundClauseHolds a lay) (groundClauses b).
Proof.
  unfold addGroundClauses. apply fold_left_eval. intros buf' c.
  rewrite addSATClause_eval. f_equal.
  unfold evalClause, groundClauseHolds.
  induction (literals c) as [|lit lits IH]; simpl; [reflexivity|]. now rewrite IH.
Qed.
End Evaluated.

Lemma setBound_length bounds var bound : length (setBound bounds var bound) = length bounds.
Proof. unfold setBound. destruct (negb _); [reflexivity|apply length_insert]. Qed.

Lemma setArgBounds_length bound args : forall bounds,
  length (setArgBounds bound args bounds) = length bounds.
Proof.
  unfold setArgBounds. generalize (imap (fun j avar => (j, avar)) args) as l.
  induction l as [|[j v] l IH]; intros bounds; simpl; [reflexivity|].
  now rewrite IH, setBound_length.
Qed.

Lemma clauseBounds_length b c : length (clauseBounds b c) = varCnt c.
Proof.
  unfold clauseBounds. rewrite <- (length_replicate (varCnt c) 0) at 2.
  generalize (replicate (varCnt c) 0) as bounds.
  induction (literals c) as [|lit lits IH]; intros bounds; simpl; [reflexivity|].
  rewrite IH. destruct lit; simpl; [reflexivity| |].
  - now rewrite setArgBounds_length, setBound_length.
  - now rewrite setArgBounds_length.
Qed.

Lemma instanceMins_valid b size c :
  1 <= size <= UINT_MAX ->
  varCnt c <> O -> Forall (fun bound => 1 <= bound) (clauseBounds b c) ->
  Forall (fun m => 1 <= m <= UINT_MAX) (instanceMins b size c) /\ instanceMins b size c <> [].
Proof.
  intros Hsize Hvars Hbounds. unfold instanceMins. split.
  - apply Forall_map. eapply Forall_impl; [exact Hbounds|]. intros x Hx. simpl in *. lia.
  - pose proof (clauseBounds_length b c) as Hlen.
    destruct (clauseBounds b c); [simpl in Hlen; congruence|discriminate].
Qed.

(** X2. The clauses that [addNewInstances] adds hold under an assignment
    exactly if every instance of every non-ground clause holds, the
    variables of the clause ranging over [1 .. min(bound, size)]: no instance
    within the bounds is left out and nothing else is asked. *)
Theorem addNewInstances_satisfied :
  forall (b : Builder) (a : Z -> bool) (lay : Layout) (size : Z) (buf : list SATClause),
    keepsLiterals (removeDuplicateLiterals b) ->
    1 <= size <= UINT_MAX ->
    (forall c, In c (clauses b) ->
       varCnt c <> O /\ Forall (fun bound => 1 <= bound) (clauseBounds b c)) ->
    (evalCNF a (addNewInstances b lay size buf) = true
     <-> evalCNF a buf = true
         /\ forall c, In c (clauses b) ->
            forall grounding,
              withinBounds grounding (instanceMins b size c) ->
              instanceHolds a lay size c grounding = true).
Proof.
  intros b a lay size buf Hrdl Hsize Hcls.
  rewrite (addNewInstances_eval b a Hrdl), andb_true_iff, forallb_forall.
  apply and_iff_compat_l. split.
  - intros Hall c Hc g Hg. specialize (Hall c Hc). rewrite forallb_forall in Hall.
    apply Hall. destruct (Hcls c Hc) as [Hv Hb].
    destruct (instanceMins_valid b size c Hsize Hv Hb) as [Hm Hne].
    now apply groundings_complete.
  - intros Hall c Hc. apply forallb_forall. intros g Hg. apply (Hall c Hc).
    destruct (Hcls c Hc) as [Hv Hb].
    destruct (instanceMins_valid b size c Hsize Hv Hb) as [Hm Hne].
    now apply groundings_sound.
Qed.

Lemma getSATLiteral_nil lay f pol isFunction size :
  getSATLiteral lay f [] pol isFunction size = mkSATLiteral (offsetOf lay f isFunction) pol.
Proof. reflexivity. Qed.

(** X3. [addGroundClauses] translates a ground clause literal by literal:
    the propositional symbol [p] becomes the variable [p_offsets[p]] with
    the polarity of the literal, whatever the size; the clauses it adds hold
    under an assignment exactly if every ground clause has a literal whose
    variable has its polarity as value. *)
Theorem addGroundClauses_satisfied :
  forall (b : Builder) (a : Z -> bool) (lay : Layout) (buf : list SATClause),
    keepsLiterals (removeDuplicateLiterals b) ->
    (forall lit,
       getSATLiteral lay (functor lit) [] (polarity lit) false 0
       = mkSATLiteral (p_offsets lay !!! functor lit) (polarity lit))
    /\ (evalCNF a (addGroundClauses b lay buf) = true
        <-> evalCNF a buf = true
            /\ forall c, In c (groundClauses b) ->
               exists lit, In lit (literals c)
                           /\ a (p_offsets lay !!! functor lit) = polarity lit).
Proof.
  intros b a lay buf Hrdl. split; [intros lit; apply getSATLiteral_nil|].
  rewrite (addGroundClauses_eval b a Hrdl), andb_true_iff, forallb_forall.
  apply and_iff_compat_l. split.
  - intros Hall c Hc. specialize (Hall c Hc). unfold groundClauseHolds in Hall.
    apply existsb_exists in Hall. destruct Hall as (lit & Hlit & Heq).
    exists lit. split; [assumption|now apply eqb_prop].
  - intros Hall c Hc. destruct (Hall c Hc) as (lit & Hlit & Heq).
    unfold groundClauseHolds. apply existsb_exists. exists lit. split; [assumption|].
    rewrite Heq. apply eqb_reflx.
Qed.

(** ** What [init] derives from the clauses *)

Lemma firstNonZero_cons x l :
  firstNonZero (x :: l) = if x =? 0 then firstNonZero l else x.
Proof. unfold firstNonZero. simpl. now destruct (x =? 0). Qed.

Lemma firstNonZero_app l1 l2 :
  firstNonZero (l1 ++ l2)
  = if firstNonZero l1 =? 0 then firstNonZero l2 else firstNonZero l1.
Proof.
  induction l1 as [|x l1 IH]; [reflexivity|].
  change ((x :: l1) ++ l2) with (x :: (l1 ++ l2)). rewrite !firstNonZero_cons, IH.
  destruct (Z.eqb_spec x 0) as [->|Hx]; [reflexivity|].
  destruct (Z.eqb_spec x 0); [contradiction|reflexivity].
Qed.

Lemma firstNonZero_nil : firstNonZero [] = 0.
Proof. reflexivity. Qed.

Lemma setBound_lookup bounds var bound v :
  (v < length bounds)%nat ->
  setBound bounds var bound !!! v
  = firstNonZero (bounds !!! v :: if (var =? v)%nat then [bound] else []).
Proof.
  intros Hv. unfold setBound.
  destruct (Nat.eqb_spec var v) as [->|Hne].
  - destruct (Z.eqb_spec (bounds !!! v) 0) as [Hzero|Hnz]; simpl.
    + rewrite list_lookup_total_insert_eq by assumption. (rewrite ?firstNonZero_cons, ?firstNonZero_nil; by_cases_on_zero).
    + (rewrite ?firstNonZero_cons, ?firstNonZero_nil; by_cases_on_zero).
  - destruct (Z.eqb_spec (bounds !!! var) 0) as [Hzero|Hnz]; simpl.
    + rewrite list_lookup_total_insert_ne by assumption. (rewrite ?firstNonZero_cons, ?firstNonZero_nil; by_cases_on_zero).
    + (rewrite ?firstNonZero_cons, ?firstNonZero_nil; by_cases_on_zero).
Qed.

Lemma setArgBounds_lookup bound args v : forall bounds,
  (v < length bounds)%nat ->
  setArgBounds bound args bounds !!! v
  = firstNonZero (bounds !!! v :: occurrences v bound args).
Proof.
  unfold setArgBounds, occurrences.
  generalize (imap (fun j avar => (j, avar)) args) as ps.
  induction ps as [|[j avar] ps IH]; intros bounds Hv; simpl.
  - (rewrite ?firstNonZero_cons, ?firstNonZero_nil; by_cases_on_zero).
  - rewrite IH by (now rewrite setBound_length). rewrite setBound_lookup by assumption.
    destruct (Nat.eqb_spec avar v) as [->|Hne]; simpl; (rewrite ?firstNonZero_cons, ?firstNonZero_nil; by_cases_on_zero).
Qed.

Lemma clauseBoundsStep_length ss bounds lit :
  length (clauseBoundsStep ss bounds lit) = length bounds.
Proof.
  destruct lit; simpl; [reflexivity| |].
  - now rewrite setArgBounds_length, setBound_length.
  - now rewrite setArgBounds_length.
Qed.

Lemma clauseBoundsStep_lookup ss bounds lit v :
  (v < length bounds)%nat ->
  clauseBoundsStep ss bounds lit !!! v
  = firstNonZero (bounds !!! v :: positionBounds ss v lit).
Proof.
  intros Hv. destruct lit as [pol x y|pol f args y|pol p args]; simpl.
  - (rewrite ?firstNonZero_cons, ?firstNonZero_nil; by_cases_on_zero).
  - rewrite setArgBounds_lookup by (now rewrite setBound_length).
    rewrite setBound_lookup by assumption.
    change (bounds !!! v :: (if (y =? v)%nat then [fbound ss f 0] else []) ++ ?l)
      with ((bounds !!! v :: (if (y =? v)%nat then [fbound ss f 0] else [])) ++ l).
    rewrite firstNonZero_app. (rewrite ?firstNonZero_cons, ?firstNonZero_nil; by_cases_on_zero).
  - now apply setArgBounds_lookup.
Qed.

Lemma clauseBounds_lookup ss lits v : forall bounds,
  (v < length bounds)%nat ->
  fold_left (clauseBoundsStep ss) lits bounds !!! v
  = firstNonZero (bounds !!! v :: flat_map (positionBounds ss v) lits).
Proof.
  induction lits as [|lit lits IH]; intros bounds Hv; simpl.
  - (rewrite ?firstNonZero_cons, ?firstNonZero_nil; by_cases_on_zero).
  - rewrite IH by (now rewrite clauseBoundsStep_length).
    rewrite clauseBoundsStep_lookup by assumption.
    change (bounds !!! v :: positionBounds ss v lit ++ ?l)
      with ((bounds !!! v :: positionBounds ss v lit) ++ l).
    rewrite firstNonZero_app. (rewrite ?firstNonZero_cons, ?firstNonZero_nil; by_cases_on_zero).
Qed.

Lemma firstNonZero_constant bound l :
  l <> [] -> Forall (fun x => x = bound) l -> firstNonZero l = bound.
Proof.
  intros Hne Hall. destruct Hall as [|x l -> Hall]; [contradiction|].
  rewrite firstNonZero_cons. destruct (Z.eqb_spec bound 0) as [->|]; [|reflexivity].
  clear Hne. induction Hall as [|x l -> _ IH]; [reflexivity|].
  rewrite firstNonZero_cons. exact IH.
Qed.

(** X4. The bounds array that [init] stores for a clause has one cell per
    variable; the cell of a variable holds the first bound other than 0
    among the symbol positions the variable occurs at (0 if there is none,
    as for a variable that occurs in two-variable equalities only).  So when
    all the positions of a variable carry one bound, as the assertions of
    [init] ask, the cell holds that bound. *)
Theorem clauseBounds_of_variable :
  forall (b : Builder) (c : Clause) (v : nat),
    (v < varCnt c)%nat ->
    let positions := flat_map (positionBounds (sortedSignature b) v) (literals c) in
    length (clauseBounds b c) = varCnt c
    /\ clauseBounds b c !!! v = firstNonZero positions
    /\ (positions = [] -> clauseBounds b c !!! v = 0)
    /\ (forall bound, positions <> [] -> Forall (fun x => x = bound) positions ->
          clauseBounds b c !!! v = bound).
Proof.
  intros b c v Hv positions.
  assert (Hlookup : clauseBounds b c !!! v = firstNonZero positions).
  { unfold clauseBounds. rewrite clauseBounds_lookup by (now rewrite length_replicate).
    rewrite firstNonZero_cons.
    rewrite list_lookup_total_alt, lookup_replicate_2 by assumption. reflexivity. }
  split; [apply clauseBounds_length|]. split; [exact Hlookup|]. split.
  - intros Hnil. rewrite Hlookup, Hnil. reflexivity.
  - intros bound Hne Hall. rewrite Hlookup. now apply firstNonZero_constant.
Qed.

Lemma posEqs_all lits :
  (posEqs lits =? length lits)%nat = forallb distinctVariables lits.
Proof.
  induction lits as [|lit lits IH]; [reflexivity|].
  destruct lit as [[|] x y|pol f args y|pol p args]; simpl; try reflexivity.
  destruct (negb (x =? y)%nat); simpl; [exact IH|reflexivity].
Qed.

Lemma initMaxModelSizeStep_eq m c :
  initMaxModelSizeStep m c
  = if limitsModelSize c && (Z.of_nat (varCnt c) <? m) then Z.of_nat (varCnt c) else m.
Proof.
  unfold initMaxModelSizeStep, limitsModelSize. rewrite posEqs_all.
  destruct (varCnt c =? 0)%nat; reflexivity.
Qed.

Lemma initMaxModelSize_fold cls : forall m,
  let M := fold_left initMaxModelSizeStep cls m in
  M <= m
  /\ (forall c, In c cls -> limitsModelSize c = true -> M <= Z.of_nat (varCnt c))
  /\ (M = m \/ exists c, In c cls /\ limitsModelSize c = true /\ M = Z.of_nat (varCnt c)).
Proof.
  induction cls as [|c cls IH]; intros m; simpl.
  - split; [lia|]. split; [intros c []|now left].
  - destruct (IH (initMaxModelSizeStep m c)) as (Hle & Hall & Hex).
    rewrite initMaxModelSizeStep_eq in *.
    destruct (limitsModelSize c) eqn:Hc; simpl in *.
    + destruct (Z.ltb_spec (Z.of_nat (varCnt c)) m) as [Hlt|Hge].
      * split; [lia|]. split.
        -- intros c' [<-|Hin] Hc'; [lia|now apply Hall].
        -- destruct Hex as [->|(c' & Hin & Hc' & ->)].
           ++ right. exists c. repeat split; [now left|assumption].
           ++ right. exists c'. repeat split; [now right|assumption].
      * split; [lia|]. split.
        -- intros c' [<-|Hin] Hc'; [lia|now apply Hall].
        -- destruct Hex as [->|(c' & Hin & Hc' & ->)]; [now left|].
           right. exists c'. repeat split; [now right|assumption].
    + split; [lia|]. split.
      * intros c' [<-|Hin] Hc'; [congruence|now apply Hall].
      * destruct Hex as [->|(c' & Hin & Hc' & ->)]; [now left|].
        right. exists c'. repeat split; [now right|assumption].
Qed.

(** X5. The upper bound on the model size that [init] derives is the least
    number of variables of a flattened non-ground clause made of positive
    equalities between different variables only, and [UINT_MAX] when the
    problem has no such clause; clauses of any other shape do not lower it. *)
Theorem initMaxModelSize_least :
  forall (b : Builder),
    initMaxModelSize b <= UINT_MAX
    /\ (forall c, In c (flattened b) -> limitsModelSize c = true ->
          initMaxModelSize b <= Z.of_nat (varCnt c))
    /\ (initMaxModelSize b = UINT_MAX
        \/ exists c, In c (flattened b) /\ limitsModelSize c = true
                     /\ initMaxModelSize b = Z.of_nat (varCnt c)).
Proof. intros b. apply (initMaxModelSize_fold (flattened b) UINT_MAX). Qed.

(** ** The grounded terms that [reset] builds *)

Lemma outOfBounds_false b f g :
  outOfBounds b f g = false
  <-> forall i, (i < functionArity (signature b) f)%nat ->
                g <= fbound (sortedSignature b) f (S i).
Proof.
  unfold outOfBounds. rewrite <- not_true_iff_false, existsb_exists. split.
  - intros Hno i Hi.
    destruct (Z.ltb_spec (fbound (sortedSignature b) f (S i)) g) as [Hlt|]; [|assumption].
    exfalso. apply Hno. exists i. split; [apply in_seq; lia|]. now apply Z.ltb_lt.
  - intros Hall (i & Hi & Hlt). apply in_seq in Hi. apply Z.ltb_lt in Hlt.
    specialize (Hall i ltac:(lia)). lia.
Qed.

Lemma widget_spec b size f g gt :
  In gt (widget b size f g)
  <-> gt = mkGroundedTerm f g /\ respectsBounds b size (mkGroundedTerm f g).
Proof.
  unfold widget, respectsBounds. simpl. rewrite <- outOfBounds_false.
  destruct (Z.ltb_spec (fbound (sortedSignature b) f 0) size) as [Hlt|Hge].
  - simpl. split; [intros []|]. intros (_ & H & _). lia.
  - destruct (outOfBounds b f g); simpl.
    + split; [intros []|]. intros (_ & _ & H). discriminate.
    + split; [intros [<-|[]]; auto|]. intros (-> & _). now left.
Qed.

Lemma flat_map_nil {A B : Type} (l : list A) : flat_map (fun _ : A => @nil B) l = [].
Proof. induction l; simpl; auto. Qed.

Lemma flat_map_app_pointwise {A B : Type} (g h : A -> list B) (l : list A) :
  flat_map (fun x => g x ++ h x) l ≡ₚ flat_map g l ++ flat_map h l.
Proof.
  induction l as [|x l IH]; simpl; [reflexivity|].
  rewrite IH. rewrite <- !app_assoc. apply Permutation_app_head.
  apply Permutation_app_swap_app.
Qed.

Lemma flat_map_swap {A B C : Type} (f : A -> B -> list C) (la : list A) (lb : list B) :
  flat_map (fun x => flat_map (fun y => f x y) lb) la
  ≡ₚ flat_map (fun y => flat_map (fun x => f x y) la) lb.
Proof.
  induction la as [|x la IH]; simpl.
  - now rewrite flat_map_nil.
  - rewrite flat_map_app_pointwise. now apply Permutation_app_head.
Qed.

Lemma flat_map_pointwise {A B : Type} (g h : A -> list B) (l : list A) :
  (forall x, In x l -> g x ≡ₚ h x) -> flat_map g l ≡ₚ flat_map h l.
Proof.
  induction l as [|x l IH]; intros Hgh; simpl; [reflexivity|].
  apply Permutation_app; [apply Hgh; now left|]. apply IH. intros y Hy. apply Hgh. now right.
Qed.

Lemma flat_map_map {A B C : Type} (f : A -> B) (g : B -> list C) (l : list A) :
  flat_map g (map f l) = flat_map (fun x => g (f x)) l.
Proof. induction l as [|x l IH]; simpl; [reflexivity|]. now rewrite IH. Qed.

(** The indexed list of a loop [for(f=0; f<length; f++)] over a stack. *)
Lemma indexed_In {A : Type} (l : list A) : forall (k : nat) i x,
  In (i, x) (imap (fun j y => (k + j, y)%nat) l) -> (k <= i < k + length l)%nat /\ In x l.
Proof.
  induction l as [|y l IH]; intros k i x Hin; [destruct Hin|].
  simpl in Hin. destruct Hin as [Heq|Hin].
  - injection Heq as <- <-. simpl. split; [lia|now left].
  - rewrite (imap_ext _ (fun j z => (S k + j, z)%nat)) in Hin
      by (intros j z _; simpl; f_equal; lia).
    apply IH in Hin. simpl. split; [lia|]. right. tauto.
Qed.

Lemma indexed_flat_map {A B : Type} (g : A -> list B) (l : list A) : forall (k : nat),
  flat_map (fun '(_, x) => g x) (imap (fun j y => (k + j, y)%nat) l) = flat_map g l.
Proof.
  induction l as [|y l IH]; intros k; simpl; [reflexivity|]. f_equal.
  rewrite <- (IH (S k)). f_equal. apply imap_ext. intros j z _. simpl. f_equal. lia.
Qed.

Lemma NoDup_map_injective {A B : Type} (f : A -> B) (l : list A) :
  (forall x y, In x l -> In y l -> f x = f y -> x = y) ->
  List.NoDup l -> List.NoDup (map f l).
Proof.
  induction l as [|a l IH]; simpl; intros Hinj Hnd; [constructor|].
  inversion Hnd as [|? ? Hnotin Hnd']; subst. constructor.
  - rewrite in_map_iff. intros (y & Heq & Hy).
    assert (y = a) by (apply Hinj; auto). subst. contradiction.
  - apply IH; auto.
Qed.

Lemma diagonal_permutation size i :
  1 <= size -> 0 <= i -> size + i <= UINT_MAX ->
  map (fun m => wrap (1 + wrap (m + i) mod size)) (upTo size) ≡ₚ upTo size.
Proof.
  intros Hsize Hi Hfit.
  assert (Hval : forall m, 1 <= m <= size ->
            wrap (1 + wrap (m + i) mod size) = 1 + (m + i) mod size
            /\ 1 <= 1 + (m + i) mod size <= size).
  { intros m Hm. rewrite (wrap_small (m + i)) by lia.
    pose proof (Z.mod_pos_bound (m + i) size ltac:(lia)) as Hmod.
    split; [apply wrap_small; unfold UINT_MAX in *; lia|lia]. }
  apply NoDup_Permutation_bis.
  - apply NoDup_map_injective.
    + intros x y Hx Hy Heq. apply upTo_In in Hx, Hy.
      destruct (Hval x Hx) as [Hx1 _]. destruct (Hval y Hy) as [Hy1 _].
      rewrite Hx1, Hy1 in Heq.
      assert (Hmod : (x + i) mod size = (y + i) mod size) by lia.
      rewrite (Z.mod_eq (x + i) size), (Z.mod_eq (y + i) size) in Hmod by lia.
      assert (Hq : (x + i) / size = (y + i) / size) by nia. nia.
    + apply NoDup_ListNoDup, (increasing_NoDup (fun d => d)). apply upTo_increasing.
  - rewrite length_map. lia.
  - intros x Hx. apply in_map_iff in Hx. destruct Hx as (m & <- & Hm).
    apply upTo_In in Hm. apply upTo_In. destruct (Hval m Hm) as [-> H]. exact H.
Qed.

(** The function terms of a sort are, up to their order, those of the
    function-first loops. *)
Lemma functionTerms_permutation b size s :
  0 <= size ->
  size + Z.of_nat (length (nth s (sortedFunctions (sortedSignature b)) [])) <= UINT_MAX ->
  drop (length (nth s (sortedConstants (sortedSignature b)) [])) (groundedTermsOfSort b size s)
  ≡ₚ flat_map (fun f => flat_map (fun m => widget b size f m) (upTo size))
       (nth s (sortedFunctions (sortedSignature b)) []).
Proof.
  intros Hsize Hfit. unfold groundedTermsOfSort.
  rewrite drop_app_length' by (now rewrite length_map).
  destruct (fmbSymmetryWidgetOrders (opt b)).
  - reflexivity.
  - apply flat_map_swap.
  - set (funs := nth s (sortedFunctions (sortedSignature b)) []) in *.
    change (imap (fun i f => (i, f)) funs) with (imap (fun j y => (0 + j, y)%nat) funs).
    rewrite (flat_map_swap
               (fun m '(i, f) => widget b size f (wrap (1 + wrap (m + Z.of_nat i) mod size)))).
    rewrite <- (indexed_flat_map (fun f => flat_map (fun m => widget b size f m) (upTo size))
                  funs 0).
    apply flat_map_pointwise. intros [i f] Hin.
    apply indexed_In in Hin. destruct Hin as [Hi _].
    rewrite <- (flat_map_map (fun m => wrap (1 + wrap (m + Z.of_nat i) mod size))
                  (fun g => widget b size f g)).
    destruct (Z.eq_dec size 0) as [->|Hpos]; [reflexivity|].
    apply Permutation_flat_map. apply diagonal_permutation; lia.
Qed.

Lemma functionTerms_In b size s gt :
  In gt (flat_map (fun f => flat_map (fun m => widget b size f m) (upTo size))
           (nth s (sortedFunctions (sortedSignature b)) []))
  <-> In (gt_f gt) (nth s (sortedFunctions (sortedSignature b)) [])
      /\ 1 <= gt_grounding gt <= size
      /\ respectsBounds b size gt.
Proof.
  rewrite in_flat_map. split.
  - intros (f & Hf & Hin). apply in_flat_map in Hin. destruct Hin as (m & Hm & Hin).
    apply widget_spec in Hin. destruct Hin as [-> Hresp]. apply upTo_In in Hm. auto.
  - intros (Hf & Hg & Hresp). exists (gt_f gt). split; [assumption|].
    apply in_flat_map. exists (gt_grounding gt). split; [now apply upTo_In|].
    apply widget_spec. destruct gt; auto.
Qed.

Lemma reset_grounded_terms_of_sort b lay0 size lay s :
  reset b lay0 size = (true, lay) -> (s < sorts (sortedSignature b))%nat ->
  nth s (sortedGroundedTerms lay) [] = groundedTermsOfSort b size s.
Proof.
  intros Hreset Hs. apply reset_true in Hreset. destruct Hreset as (off1 & off2 & _ & _ & _ & ->).
  rewrite (nth_indep _ [] (groundedTermsOfSort b size O)) by (now rewrite length_map, length_seq).
  rewrite map_nth. f_equal. now apply seq_nth.
Qed.

(** X6. After a successful [reset] for a size below [UINT_MAX] there is one stack of grounded terms per
    sort.  The stack of a sort starts with the constants of the sort in
    their order, each with grounding 0; the rest are function terms
    [(f, g)], and a pair is among them exactly if [f] is a function of the
    sort, [g] lies in [1 .. size], the range of [f] is not bounded below
    [size] and no argument of [f] is bounded below [g]. *)
Theorem reset_grounded_terms :
  forall (b : Builder) (lay0 lay : Layout) (size : Z),
    0 <= size < UINT_MAX ->
    reset b lay0 size = (true, lay) ->
    length (sortedGroundedTerms lay) = sorts (sortedSignature b)
    /\ forall s, (s < sorts (sortedSignature b))%nat ->
         size + Z.of_nat (length (nth s (sortedFunctions (sortedSignature b)) [])) <= UINT_MAX ->
         let G := nth s (sortedGroundedTerms lay) [] in
         let constants := nth s (sortedConstants (sortedSignature b)) [] in
         take (length constants) G = map (fun c => mkGroundedTerm c 0) constants
         /\ forall gt,
              In gt (drop (length constants) G)
              <-> In (gt_f gt) (nth s (sortedFunctions (sortedSignature b)) [])
                  /\ 1 <= gt_grounding gt <= size
                  /\ respectsBounds b size gt.
Proof.
  intros b lay0 lay size Hsize Hreset. split.
  - apply reset_true in Hreset. destruct Hreset as (off1 & off2 & _ & _ & _ & ->).
    now rewrite length_map, length_seq.
  - intros s Hs Hfit G constants. subst G.
    rewrite (reset_grounded_terms_of_sort b lay0 size lay s Hreset Hs). split.
    + unfold groundedTermsOfSort. fold constants.
      apply take_app_length'. now rewrite length_map.
    + intros gt. rewrite <- functionTerms_In.
      pose proof (functionTerms_permutation b size s (proj1 Hsize) Hfit) as Hperm.
      split; intros Hin.
      * eapply Permutation_in; [exact Hperm|exact Hin].
      * eapply Permutation_in; [symmetry; exact Hperm|exact Hin].
Qed.

Lemma widget_same b b' size f g :
  signature b = signature b' -> sortedSignature b = sortedSignature b' ->
  widget b size f g = widget b' size f g.
Proof. intros Hsg Hss. unfold widget, outOfBounds. now rewrite Hsg, Hss. Qed.

(** X7. The option for the widget order only changes the order of the
    function terms: two builders with the same signature and sorted
    signature get, whatever their widget orders, the same constants at the
    start of the stack of a sort and function terms that are a permutation of
    one another, so stacks of the same length. *)
Theorem widget_orders_permute :
  forall (b b' : Builder) (size : Z) (s : nat),
    signature b = signature b' ->
    sortedSignature b = sortedSignature b' ->
    0 <= size < UINT_MAX ->
    size + Z.of_nat (length (nth s (sortedFunctions (sortedSignature b)) [])) <= UINT_MAX ->
    let k := length (nth s (sortedConstants (sortedSignature b)) []) in
    take k (groundedTermsOfSort b size s) = take k (groundedTermsOfSort b' size s)
    /\ drop k (groundedTermsOfSort b size s) ≡ₚ drop k (groundedTermsOfSort b' size s)
    /\ length (groundedTermsOfSort b size s) = length (groundedTermsOfSort b' size s).
Proof.
  intros b b' size s Hsg Hss [Hsize _] Hfit k.
  assert (Hfit' : size + Z.of_nat (length (nth s (sortedFunctions (sortedSignature b')) []))
                  <= UINT_MAX) by (now rewrite <- Hss).
  assert (Htake : forall x, take (length (nth s (sortedConstants (sortedSignature x)) []))
                              (groundedTermsOfSort x size s)
                            = map (fun c => mkGroundedTerm c 0)
                                (nth s (sortedConstants (sortedSignature x)) [])).
  { intros x. unfold groundedTermsOfSort. apply take_app_length'. now rewrite length_map. }
  assert (Hdrop : drop k (groundedTermsOfSort b size s)
                  ≡ₚ drop k (groundedTermsOfSort b' size s)).
  { subst k.
    transitivity (flat_map (fun f => flat_map (fun m => widget b size f m) (upTo size))
                    (nth s (sortedFunctions (sortedSignature b)) [])).
    - now apply functionTerms_permutation.
    - rewrite Hss. symmetry.
      transitivity (flat_map (fun f => flat_map (fun m => widget b' size f m) (upTo size))
                      (nth s (sortedFunctions (sortedSignature b')) [])).
      + now apply functionTerms_permutation.
      + apply flat_map_pointwise. intros f _.
        apply flat_map_pointwise. intros m _. now rewrite (widget_same b b'). }
  assert (Heq : take k (groundedTermsOfSort b size s) = take k (groundedTermsOfSort b' size s)).
  { subst k. rewrite Htake. rewrite Hss. now rewrite Htake. }
  split; [exact Heq|]. split; [exact Hdrop|].
  rewrite <- (take_drop k (groundedTermsOfSort b size s)).
  rewrite <- (take_drop k (groundedTermsOfSort b' size s)).
  rewrite !length_app. rewrite Heq. f_equal. now apply Permutation_length.
Qed.

(** ** When [reset] fails *)

Section LayoutOverflow.
Context (b : Builder) (del : nat -> bool) (exp : nat -> nat) (n : Z).
Hypothesis Hn : 0 <= n.

Lemma layoutBlocks_fst syms : forall off tbl,
  blocksFit del exp n syms -> 0 <= off <= UINT_MAX ->
  fst (layoutBlocks b del exp n syms off tbl)
  = if off + blocks del exp n syms <=? UINT_MAX
    then Some (off + blocks del exp n syms) else None.
Proof.
  induction syms as [|s syms IH]; intros off tbl Hfit Hoff; cbn [layoutBlocks].
  - unfold blocks. simpl. rewrite Z.add_0_r.
    destruct (Z.leb_spec off UINT_MAX); [reflexivity|lia].
  - assert (Hfit' : blocksFit del exp n syms) by (intros s' Hs'; apply Hfit; now right).
    destruct (del s) eqn:Hdel; cbn [layoutBlocks].
    + assert (Hb : blocks del exp n (s :: syms) = blocks del exp n syms)
        by (unfold blocks; simpl; now rewrite Hdel).
      rewrite Hb. now apply IH.
    + assert (Hadd : powUnsigned b n (exp s) = n ^ Z.of_nat (exp s)).
      { unfold powUnsigned, toUnsigned.
        pose proof (Hfit s (or_introl eq_refl) Hdel).
        pose proof (Z.pow_nonneg n (Z.of_nat (exp s)) Hn).
        destruct (Z.leb_spec 0 (n ^ Z.of_nat (exp s))); [|lia].
        destruct (Z.leb_spec (n ^ Z.of_nat (exp s)) UINT_MAX); [|lia]. reflexivity. }
      rewrite Hadd. rewrite blocks_cons_live by assumption.
      pose proof (Z.pow_nonneg n (Z.of_nat (exp s)) Hn) as Hpow.
      pose proof (blocks_nonneg del exp n syms Hn) as Hrest.
      destruct (Z.ltb_spec (UINT_MAX - n ^ Z.of_nat (exp s)) off) as [Hover|Hok];
        cbn [fst].
      * destruct (Z.leb_spec (off + (n ^ Z.of_nat (exp s) + blocks del exp n syms)) UINT_MAX);
          [lia|reflexivity].
      * rewrite wrap_small by lia. rewrite IH by (assumption || lia).
        now rewrite Z.add_assoc.
Qed.
End LayoutOverflow.

Lemma reset_fst b lay0 n :
  0 <= n ->
  blocksFit (deletedFunction b) (functionBlockExp b) n (functionSymbols b) ->
  blocksFit (deletedPredicate b) (predicateBlockExp b) n (predicateSymbols b) ->
  fst (reset b lay0 n) = (totalVars b n <=? UINT_MAX).
Proof.
  intros Hn Hf Hp. unfold reset, totalVars, functionBlocks, predicateBlocks.
  pose proof (blocks_nonneg (deletedFunction b) (functionBlockExp b) n (functionSymbols b) Hn)
    as Hnf.
  pose proof (blocks_nonneg (deletedPredicate b) (predicateBlockExp b) n (predicateSymbols b) Hn)
    as Hnp.
  assert (Hone : 0 <= 1 <= UINT_MAX) by (unfold UINT_MAX; lia).
  pose proof (layoutBlocks_fst b (deletedFunction b) (functionBlockExp b) n Hn
                (functionSymbols b) 1 (f_offsets lay0) Hf Hone) as H1.
  set (F := blocks (deletedFunction b) (functionBlockExp b) n (functionSymbols b)) in *.
  set (P := blocks (deletedPredicate b) (predicateBlockExp b) n (predicateSymbols b)) in *.
  destruct (layoutBlocks b (deletedFunction b) (functionBlockExp b) n (functionSymbols b) 1
              (f_offsets lay0)) as [[off1|] f_off]; cbn [fst] in H1.
  - destruct (Z.leb_spec (1 + F) UINT_MAX) as [Hle|]; [|discriminate].
    injection H1 as ->.
    assert (Hoff : 0 <= 1 + F <= UINT_MAX) by lia.
    pose proof (layoutBlocks_fst b (deletedPredicate b) (predicateBlockExp b) n Hn
                  (predicateSymbols b) (1 + F) (p_offsets lay0) Hp Hoff) as H2.
    fold P in H2.
    destruct (layoutBlocks b (deletedPredicate b) (predicateBlockExp b) n (predicateSymbols b)
                (1 + F) (p_offsets lay0)) as [[off2|] p_off]; cbn [fst] in H2 |- *.
    + destruct (Z.leb_spec (1 + F + P) UINT_MAX); [reflexivity|discriminate].
    + destruct (Z.leb_spec (1 + F + P) UINT_MAX); [discriminate|reflexivity].
  - destruct (Z.leb_spec (1 + F) UINT_MAX) as [|Hgt]; [discriminate|].
    cbn [fst]. symmetry. apply Z.leb_gt. lia.
Qed.

Lemma blocks_monotone del exp n n' syms :
  0 <= n <= n' -> blocks del exp n syms <= blocks del exp n' syms.
Proof.
  intros Hn. unfold blocks. induction syms as [|s syms IH]; simpl; [lia|].
  destruct (del s); [assumption|].
  pose proof (Z.pow_le_mono_l n n' (Z.of_nat (exp s)) Hn). lia.
Qed.

(** X8. For a size below [UINT_MAX] whose blocks are unsigned values, [reset] returns [false]
    exactly if the offsets would pass [UINT_MAX], that is if 1 plus the
    blocks of all live symbols is more than [UINT_MAX]; it then has created
    no solver and has left the grounded terms alone.  Once a size fails,
    every larger size fails. *)
Theorem reset_fails_on_overflow :
  forall (b : Builder) (lay0 : Layout) (n : Z),
    0 <= n < UINT_MAX ->
    blocksFit (deletedFunction b) (functionBlockExp b) n (functionSymbols b) ->
    blocksFit (deletedPredicate b) (predicateBlockExp b) n (predicateSymbols b) ->
    (fst (reset b lay0 n) = false <-> UINT_MAX < totalVars b n)
    /\ (fst (reset b lay0 n) = false ->
        solverVarCount (snd (reset b lay0 n)) = solverVarCount lay0
        /\ sortedGroundedTerms (snd (reset b lay0 n)) = sortedGroundedTerms lay0)
    /\ (forall lay1 n',
          n <= n' < UINT_MAX ->
          blocksFit (deletedFunction b) (functionBlockExp b) n' (functionSymbols b) ->
          blocksFit (deletedPredicate b) (predicateBlockExp b) n' (predicateSymbols b) ->
          fst (reset b lay0 n) = false -> fst (reset b lay1 n') = false).
Proof.
  intros b lay0 n [Hn _] Hf Hp. split; [|split].
  - rewrite reset_fst by assumption. apply Z.leb_gt.
  - unfold reset.
    destruct (layoutBlocks b (deletedFunction b) _ n _ 1 _) as [[off1|] f_off]; [|now intros _].
    destruct (layoutBlocks b (deletedPredicate b) _ n _ off1 _) as [[off2|] p_off];
      [discriminate|now intros _].
  - intros lay1 n' [Hle _] Hf' Hp'. rewrite !reset_fst by (assumption || lia).
    rewrite !Z.leb_gt. unfold totalVars, functionBlocks, predicateBlocks.
    pose proof (blocks_monotone (deletedFunction b) (functionBlockExp b) n n'
                  (functionSymbols b) ltac:(lia)).
    pose proof (blocks_monotone (deletedPredicate b) (predicateBlockExp b) n n'
                  (predicateSymbols b) ltac:(lia)).
    lia.
Qed.

(** ** The ordering axiom of the symmetry breaking *)

Lemma groundedTermsOfSort_In b size s gt :
  0 <= size ->
  size + Z.of_nat (length (nth s (sortedFunctions (sortedSignature b)) [])) <= UINT_MAX ->
  In gt (groundedTermsOfSort b size s) ->
  (In (gt_f gt) (nth s (sortedConstants (sortedSignature b)) []) /\ gt_grounding gt = 0)
  \/ (In (gt_f gt) (nth s (sortedFunctions (sortedSignature b)) [])
      /\ 1 <= gt_grounding gt <= size /\ respectsBounds b size gt).
Proof.
  intros Hsize Hfit Hin.
  rewrite <- (take_drop (length (nth s (sortedConstants (sortedSignature b)) []))
                (groundedTermsOfSort b size s)) in Hin.
  apply in_app_or in Hin. destruct Hin as [Hin|Hin].
  - left. unfold groundedTermsOfSort in Hin.
    rewrite take_app_length' in Hin by (now rewrite length_map).
    apply in_map_iff in Hin. destruct Hin as (c & <- & Hc). auto.
  - right. apply functionTerms_In.
    eapply Permutation_in; [now apply functionTerms_permutation|exact Hin].
Qed.

Lemma replicate_withinBounds (g : Z) (mins : list Z) :
  Forall (fun m => 1 <= g <= m) mins -> withinBounds (replicate (length mins) g) mins.
Proof. induction 1 as [|m mins Hm _ IH]; simpl; constructor; assumption. Qed.

Section Totality.
Context (b : Builder) (a : Z -> bool).
Hypothesis Hrdl : keepsLiterals (removeDuplicateLiterals b).

(** Under the totality clauses a term with all arguments alike has a value
    within the range of its symbol. *)
Lemma term_total lay size buf f g :
  1 <= size <= UINT_MAX ->
  evalCNF a (addNewTotalityDefs b lay size buf) = true ->
  (f < functions (signature b))%nat -> deletedFunction b f = false ->
  (functionArity (signature b) f = O
   \/ 1 <= g <= size
      /\ forall i, (i < functionArity (signature b) f)%nat ->
                   g <= fbound (sortedSignature b) f (S i)) ->
  exists e,
    1 <= e <= Z.min size (fbound (sortedSignature b) f 0)
    /\ evalLit a (getSATLiteral lay f
                    (termGrounding (functionArity (signature b) f) g e) true true size) = true.
Proof.
  intros Hsize Hsat Hf Hlive Hterm.
  apply (addNewTotalityDefs_sat b a Hrdl) in Hsat. destruct Hsat as [_ Htotal].
  assert (Hin : In f (functionSymbols b)) by (apply in_seq; lia).
  assert (Hcl : evalClause a (totalityClause b lay size f
                                (replicate (functionArity (signature b) f) g)) = true).
  { apply (Htotal f Hin Hlive).
    destruct (Nat.eq_dec (functionArity (signature b) f) O) as [Har|Har].
    - left. split; [assumption|]. now rewrite Har.
    - right. split; [assumption|]. destruct Hterm as [Har'|[Hg Hargs]]; [contradiction|].
      assert (Hlen : length (totalityMins b size f) = functionArity (signature b) f).
      { unfold totalityMins. now rewrite length_map, length_seq. }
      assert (Hall : Forall (fun m => 1 <= g <= m) (totalityMins b size f)).
      { unfold totalityMins. apply Forall_map, Forall_forall. intros i Hi.
        apply list_elem_of_In, in_seq in Hi. simpl. specialize (Hargs i ltac:(lia)). lia. }
      apply groundings_complete.
      + unfold totalityMins. apply Forall_map, Forall_forall. intros i Hi.
        apply list_elem_of_In, in_seq in Hi. simpl. specialize (Hargs i ltac:(lia)). lia.
      + destruct (totalityMins b size f); [simpl in Hlen; congruence|discriminate].
      + rewrite <- Hlen. now apply replicate_withinBounds. }
  apply evalClause_true in Hcl. destruct Hcl as (l & Hl & Htrue).
  unfold totalityClause in Hl. apply in_map_iff in Hl. destruct Hl as (e & <- & He).
  apply upTo_In in He. exists e. split; [assumption|exact Htrue].
Qed.
End Totality.

(** X9. [addNewSymmetryOrderingAxioms] adds nothing for a stack of fewer
    than [size] grounded terms, and otherwise the one clause
    [t = 1 | ... | t = size] for the term [t] at place [size - 1] of the
    stack.  For the stacks that [reset] builds this clause follows from the
    totality clauses of the same round: an assignment that satisfies those
    satisfies it too, so the ordering axiom excludes no model by itself. *)
Theorem symmetry_ordering_redundant :
  forall (b : Builder) (a : Z -> bool) (lay : Layout) (size : Z) (s : nat)
         (buf buf' : list SATClause),
    keepsLiterals (removeDuplicateLiterals b) ->
    1 <= size < UINT_MAX ->
    size + Z.of_nat (length (nth s (sortedFunctions (sortedSignature b)) [])) <= UINT_MAX ->
    (forall f, In f (nth s (sortedConstants (sortedSignature b)) []) ->
               functionArity (signature b) f = O) ->
    (forall f, In f (nth s (sortedConstants (sortedSignature b)) [])
               \/ In f (nth s (sortedFunctions (sortedSignature b)) []) ->
               (f < functions (signature b))%nat /\ deletedFunction b f = false) ->
    let G := groundedTermsOfSort b size s in
    addNewSymmetryOrderingAxioms b lay size G buf
    = (if Z.of_nat (length G) <? size then buf
       else addSATClause b
              (map (fun i => termLiteral lay (signature b) size
                               (nth (Z.to_nat (size - 1)) G dummyGroundedTerm) i true)
                 (upTo size))
              buf)
    /\ (evalCNF a (addNewTotalityDefs b lay size buf') = true ->
        evalCNF a (addNewSymmetryOrderingAxioms b lay size G buf) = evalCNF a buf).
Proof.
  intros b a lay size s buf buf' Hrdl Hbelow Hfit Hconst Hlive G.
  assert (Hsize : 1 <= size <= UINT_MAX) by lia.
  assert (Hshape : addNewSymmetryOrderingAxioms b lay size G buf
            = (if Z.of_nat (length G) <? size then buf
               else addSATClause b
                      (map (fun i => termLiteral lay (signature b) size
                                       (nth (Z.to_nat (size - 1)) G dummyGroundedTerm) i true)
                         (upTo size))
                      buf)).
  { unfold addNewSymmetryOrderingAxioms. rewrite (wrap_small (size - 1)) by lia. reflexivity. }
  split; [exact Hshape|]. intros Hsat. rewrite Hshape.
  destruct (Z.ltb_spec (Z.of_nat (length G)) size) as [|Hlen]; [reflexivity|].
  rewrite (addSATClause_eval b a Hrdl).
  set (gt := nth (Z.to_nat (size - 1)) G dummyGroundedTerm).
  assert (Hin : In gt G) by (apply nth_In; lia).
  assert (Hterm : exists e, 1 <= e <= Z.min size (fbound (sortedSignature b) (gt_f gt) 0)
            /\ evalLit a (termLiteral lay (signature b) size gt e true) = true).
  { unfold termLiteral.
    destruct (groundedTermsOfSort_In b size s gt ltac:(lia) Hfit Hin)
      as [[Hc Hg]|(Hf & Hg & _ & Hargs)].
    - destruct (Hlive _ (or_introl Hc)) as [Hlt Hdel].
      apply (term_total b a Hrdl lay size buf'); try assumption. left. now apply Hconst.
    - destruct (Hlive _ (or_intror Hf)) as [Hlt Hdel].
      apply (term_total b a Hrdl lay size buf'); try assumption. right. now split. }
  destruct Hterm as (e & He & Htrue).
  assert (Hcl : evalClause a (map (fun i => termLiteral lay (signature b) size gt i true)
                                (upTo size)) = true).
  { apply evalClause_true. exists (termLiteral lay (signature b) size gt e true).
    split; [|exact Htrue]. apply in_map_iff. exists e. split; [reflexivity|].
    apply upTo_In. lia. }
  rewrite Hcl. apply andb_true_r.
Qed.

(** ** The interpretation [onModelFound] reads off the assignment *)

Lemma NoDup_flat_map_keyed {A B : Type} (key : B -> A) (f : A -> list B) (l : list A) :
  NoDup l -> (forall x y, In y (f x) -> key y = x) -> (forall x, In x l -> NoDup (f x)) ->
  NoDup (flat_map f l).
Proof.
  intros Hnd Hkey. induction Hnd as [|a l Ha Hnd IH]; intros Hinner; simpl; [constructor|].
  apply NoDup_app. split; [apply Hinner; now left|]. split.
  - intros y Hy Hy'. apply list_elem_of_In in Hy, Hy'. apply in_flat_map in Hy'.
    destruct Hy' as (a' & Ha' & Hy'). apply Hkey in Hy, Hy'. subst.
    apply Ha. now apply list_elem_of_In.
  - apply IH. intros x Hx. apply Hinner. now right.
Qed.

Lemma NoDup_map_inj {A B : Type} (f : A -> B) (l : list A) :
  (forall x y, f x = f y -> x = y) -> NoDup l -> NoDup (map f l).
Proof.
  intros Hinj Hnd. apply NoDup_ListNoDup. apply NoDup_map_injective.
  - intros x y _ _. apply Hinj.
  - now apply NoDup_ListNoDup.
Qed.

Lemma upTo_NoDup size : NoDup (upTo size).
Proof. apply (increasing_NoDup (fun d => d)). apply upTo_increasing. Qed.

Lemma withinBounds_replicate args k n :
  withinBounds args (replicate k n)
  <-> length args = k /\ Forall (fun d => 1 <= d <= n) args.
Proof.
  revert args. induction k as [|k IH]; intros args; simpl.
  - split.
    + intros H. inversion H. split; [reflexivity|constructor].
    + intros [Hlen _]. destruct args; [constructor|discriminate].
  - split.
    + intros H. inversion H as [|d ? args' ? Hd Hrest]; subst.
      apply IH in Hrest. destruct Hrest as [Hlen Hall].
      split; [simpl; now rewrite Hlen|now constructor].
    + intros [Hlen Hall]. destruct args as [|d args']; [discriminate|].
      inversion Hall; subst. constructor; [assumption|]. apply IH.
      split; [now injection Hlen|assumption].
Qed.

(** The argument tuples of the loops of [onModelFound]. *)
Lemma model_tuples k n args :
  1 <= n <= UINT_MAX -> k <> O ->
  (In args (groundings (replicate k n))
   <-> length args = k /\ Forall (fun d => 1 <= d <= n) args)
  /\ NoDup (groundings (replicate k n)).
Proof.
  intros Hn Hk.
  assert (Hm : Forall (fun m => 1 <= m <= UINT_MAX) (replicate k n)).
  { apply Forall_forall. intros m Hm. apply elem_of_replicate in Hm.
    destruct Hm as [-> _]. exact Hn. }
  assert (Hne : replicate k n <> []) by (destruct k; [contradiction|discriminate]).
  split.
  - rewrite <- withinBounds_replicate. split.
    + now apply groundings_sound.
    + now apply groundings_complete.
  - rewrite (groundings_tuples _ Hm Hne).
    apply (increasing_NoDup (place (replicate k n))). now apply tuples_increasing.
Qed.

Lemma functionSymbols_In b f : In f (functionSymbols b) <-> (f < functions (signature b))%nat.
Proof. unfold functionSymbols. rewrite in_seq. lia. Qed.

Lemma predicateSymbols_In b p :
  In p (predicateSymbols b) <-> (1 <= p < predicates (signature b))%nat.
Proof. unfold predicateSymbols. rewrite in_seq. lia. Qed.

(** X10. The predicates of the recorded model.  For every predicate other
    than equality that is not introduced, deleted or partially deleted, the
    table holds one entry for each argument tuple over [1 .. modelSize] and
    no other entry: a proposition has one entry; the value is the one the
    problem fixes for a trivial predicate and the assignment's value of the
    predicate's variable otherwise.  No entry occurs twice. *)
Theorem recordModel_predicates :
  forall (b : Builder) (holds : SATLiteral -> bool) (lay : Layout) (n : Z),
    1 <= n < UINT_MAX ->
    let M := recordModel b holds lay n in
    let value p args :=
      match nth p (trivialPredicates b) None with
      | Some res => res
      | None => holds (getSATLiteral lay p args true false n)
      end in
    (forall p v,
       In (p, v) (fm_propositions M)
       <-> (1 <= p < predicates (signature b))%nat
           /\ predicateArity (signature b) p = O
           /\ recordedPredicate b p = true
           /\ v = value p [])
    /\ (forall p args v,
          In (p, args, v) (fm_predicates M)
          <-> (1 <= p < predicates (signature b))%nat
              /\ predicateArity (signature b) p <> O
              /\ recordedPredicate b p = true
              /\ length args = predicateArity (signature b) p
              /\ Forall (fun d => 1 <= d <= n) args
              /\ v = value p args)
    /\ NoDup (fm_propositions M)
    /\ NoDup (fm_predicates M).
Proof.
  intros b holds lay n Hbelow M value. subst M.
  assert (Hn : 1 <= n <= UINT_MAX) by lia. unfold recordModel. cbn [fm_propositions fm_predicates].
  split; [|split; [|split]].
  - intros p v. rewrite in_flat_map. split.
    + intros (q & Hq & Hin). apply predicateSymbols_In in Hq.
      destruct (Nat.ltb_spec 0 (predicateArity (signature b) q)); [destruct Hin|].
      destruct (recordedPredicate b q) eqn:Hrec; [|destruct Hin].
      destruct Hin as [Heq|[]]. injection Heq as <- <-.
      repeat split; try assumption; try lia.
    + intros (Hp & Har & Hrec & ->). exists p. split; [now apply predicateSymbols_In|].
      destruct (Nat.ltb_spec 0 (predicateArity (signature b) p)); [lia|].
      rewrite Hrec. now left.
  - intros p args v. rewrite in_flat_map. split.
    + intros (q & Hq & Hin). apply predicateSymbols_In in Hq.
      destruct (Nat.eqb_spec (predicateArity (signature b) q) 0) as [|Har]; [destruct Hin|].
      destruct (recordedPredicate b q) eqn:Hrec; [|destruct Hin].
      apply in_map_iff in Hin. destruct Hin as (args' & Heq & Hargs). injection Heq as <- <- <-.
      apply (model_tuples _ n args' Hn Har) in Hargs. destruct Hargs as [Hlen Hall].
      repeat split; try assumption; try lia.
    + intros (Hp & Har & Hrec & Hlen & Hall & ->). exists p.
      split; [now apply predicateSymbols_In|].
      destruct (Nat.eqb_spec (predicateArity (signature b) p) 0) as [|_]; [contradiction|].
      rewrite Hrec. apply in_map_iff. exists args. split; [reflexivity|].
      apply (model_tuples _ n args Hn Har). now split.
  - apply (NoDup_flat_map_keyed fst); [apply NoDup_seq| |].
    + intros q y Hy. destruct (0 <? _)%nat; [destruct Hy|].
      destruct (recordedPredicate b q); [|destruct Hy]. destruct Hy as [<-|[]]. reflexivity.
    + intros q _. destruct (0 <? _)%nat; [constructor|].
      destruct (recordedPredicate b q); [|constructor]. apply NoDup_singleton.
  - apply (NoDup_flat_map_keyed (fun e => fst (fst e))); [apply NoDup_seq| |].
    + intros q y Hy. destruct (_ =? 0)%nat; [destruct Hy|].
      destruct (recordedPredicate b q); [|destruct Hy].
      apply in_map_iff in Hy. destruct Hy as (args & <- & _). reflexivity.
    + intros q _. destruct (Nat.eqb_spec (predicateArity (signature b) q) 0) as [|Har];
        [constructor|].
      destruct (recordedPredicate b q); [|constructor].
      apply NoDup_map_inj; [intros x y Heq; now injection Heq|].
      apply (model_tuples _ n [] Hn Har).
Qed.

Lemma images_In (holds : SATLiteral -> bool) lay f args n c :
  In c (filter (fun c => holds (getSATLiteral lay f (args ++ [c]) true true n) = true)
          (upTo n))
  <-> 1 <= c <= n /\ holds (getSATLiteral lay f (args ++ [c]) true true n) = true.
Proof.
  rewrite <- list_elem_of_In, list_elem_of_filter, list_elem_of_In, upTo_In. tauto.
Qed.

Lemma recordModel_constants_In b holds lay n f c :
  In (f, c) (fm_constants (recordModel b holds lay n))
  <-> (f < functions (signature b))%nat
      /\ functionArity (signature b) f = O
      /\ recordedFunction b f = true
      /\ 1 <= c <= n
      /\ holds (getSATLiteral lay f [c] true true n) = true.
Proof.
  unfold recordModel. cbn [fm_constants]. rewrite in_flat_map. split.
  - intros (g & Hg & Hin). apply functionSymbols_In in Hg.
    destruct (Nat.ltb_spec 0 (functionArity (signature b) g)); [destruct Hin|].
    destruct (recordedFunction b g) eqn:Hrec; [|destruct Hin].
    apply in_map_iff in Hin. destruct Hin as (c' & Heq & Hc). injection Heq as <- <-.
    apply images_In in Hc. simpl in Hc. repeat split; try tauto; lia.
  - intros (Hf & Har & Hrec & Hc & Hholds). exists f.
    split; [now apply functionSymbols_In|].
    destruct (Nat.ltb_spec 0 (functionArity (signature b) f)); [lia|].
    rewrite Hrec. apply in_map_iff. exists c. split; [reflexivity|].
    apply images_In. simpl. now split.
Qed.

Lemma recordModel_functions_In b holds lay n f args c :
  1 <= n <= UINT_MAX ->
  In (f, args, c) (fm_functions (recordModel b holds lay n))
  <-> (f < functions (signature b))%nat
      /\ functionArity (signature b) f <> O
      /\ recordedFunction b f = true
      /\ length args = functionArity (signature b) f
      /\ Forall (fun d => 1 <= d <= n) args
      /\ 1 <= c <= n
      /\ holds (getSATLiteral lay f (args ++ [c]) true true n) = true.
Proof.
  intros Hn. unfold recordModel. cbn [fm_functions]. rewrite in_flat_map. split.
  - intros (g & Hg & Hin). apply functionSymbols_In in Hg.
    destruct (Nat.eqb_spec (functionArity (signature b) g) 0) as [|Har]; [destruct Hin|].
    destruct (recordedFunction b g) eqn:Hrec; [|destruct Hin].
    apply in_flat_map in Hin. destruct Hin as (args' & Hargs & Hin).
    apply in_map_iff in Hin. destruct Hin as (c' & Heq & Hc). injection Heq as <- <- <-.
    apply images_In in Hc.
    apply (model_tuples _ n args' Hn Har) in Hargs. destruct Hargs as [Hlen Hall].
    repeat split; try tauto; lia.
  - intros (Hf & Har & Hrec & Hlen & Hall & Hc & Hholds). exists f.
    split; [now apply functionSymbols_In|].
    destruct (Nat.eqb_spec (functionArity (signature b) f) 0) as [|_]; [contradiction|].
    rewrite Hrec. apply in_flat_map. exists args. split.
    + apply (model_tuples _ n args Hn Har). now split.
    + apply in_map_iff. exists c. split; [reflexivity|]. apply images_In. now split.
Qed.

(** X11. The functions of the recorded model.  The tables hold exactly the
    definitions [f(args) = c] whose variable is true in the assignment, for
    the functions that are neither introduced nor deleted, the arguments and
    [c] ranging over [1 .. modelSize]; a constant is recorded among the
    constants and a function of arity above 0 among the functions.  No
    entry occurs twice. *)
Theorem recordModel_functions :
  forall (b : Builder) (holds : SATLiteral -> bool) (lay : Layout) (n : Z),
    1 <= n < UINT_MAX ->
    let M := recordModel b holds lay n in
    (forall f c,
       In (f, c) (fm_constants M)
       <-> (f < functions (signature b))%nat
           /\ functionArity (signature b) f = O
           /\ recordedFunction b f = true
           /\ 1 <= c <= n
           /\ holds (getSATLiteral lay f [c] true true n) = true)
    /\ (forall f args c,
          In (f, args, c) (fm_functions M)
          <-> (f < functions (signature b))%nat
              /\ functionArity (signature b) f <> O
              /\ recordedFunction b f = true
              /\ length args = functionArity (signature b) f
              /\ Forall (fun d => 1 <= d <= n) args
              /\ 1 <= c <= n
              /\ holds (getSATLiteral lay f (args ++ [c]) true true n) = true)
    /\ NoDup (fm_constants M)
    /\ NoDup (fm_functions M).
Proof.
  intros b holds lay n Hbelow M. subst M.
  assert (Hn : 1 <= n <= UINT_MAX) by lia.
  split; [intros f c; apply recordModel_constants_In|].
  split; [intros f args c; now apply recordModel_functions_In|].
  unfold recordModel. cbn [fm_constants fm_functions]. split.
  - apply (NoDup_flat_map_keyed fst); [apply NoDup_seq| |].
    + intros g y Hy. destruct (0 <? _)%nat; [destruct Hy|].
      destruct (recordedFunction b g); [|destruct Hy].
      apply in_map_iff in Hy. destruct Hy as (c & <- & _). reflexivity.
    + intros g _. destruct (0 <? _)%nat; [constructor|].
      destruct (recordedFunction b g); [|constructor].
      apply NoDup_map_inj; [intros x y Heq; now injection Heq|].
      apply NoDup_filter, upTo_NoDup.
  - apply (NoDup_flat_map_keyed (fun e => fst (fst e))); [apply NoDup_seq| |].
    + intros g y Hy. destruct (_ =? 0)%nat; [destruct Hy|].
      destruct (recordedFunction b g); [|destruct Hy].
      apply in_flat_map in Hy. destruct Hy as (args & _ & Hy).
      apply in_map_iff in Hy. destruct Hy as (c & <- & _). reflexivity.
    + intros g _. destruct (Nat.eqb_spec (functionArity (signature b) g) 0) as [|Har];
        [constructor|].
      destruct (recordedFunction b g); [|constructor].
      apply (NoDup_flat_map_keyed (fun e => snd (fst e))).
      * apply (model_tuples _ n [] Hn Har).
      * intros args y Hy. apply in_map_iff in Hy. destruct Hy as (c & <- & _). reflexivity.
      * intros args _. apply NoDup_map_inj; [intros x y Heq; now injection Heq|].
        apply NoDup_filter, upTo_NoDup.
Qed.

(** ** The definitions of the functions, both ways *)

Lemma totalityMins_length b n f :
  length (totalityMins b n f) = functionArity (signature b) f.
Proof. unfold totalityMins. now rewrite length_map, length_seq. Qed.

Lemma totalityMins_le b n f : Forall (fun m => m <= n) (totalityMins b n f).
Proof.
  unfold totalityMins. apply Forall_map, Forall_forall. intros i _. simpl. lia.
Qed.

Lemma withinBounds_valid args mins n :
  n <= UINT_MAX -> Forall (fun m => m <= n) mins -> withinBounds args mins ->
  Forall (fun m => 1 <= m <= UINT_MAX) mins.
Proof.
  intros Hn Hle Hw. induction Hw as [|d m args mins Hd _ IH]; [constructor|].
  inversion Hle; subst. constructor; [lia|now apply IH].
Qed.

Lemma functionalMins_eq b n f :
  functionalMins b n f
  = Z.min (fbound (sortedSignature b) f 0) n
    :: Z.min (fbound (sortedSignature b) f 0) n :: totalityMins b n f.
Proof. reflexivity. Qed.

Lemma evalLit_negative a lay f grounding isF size :
  evalLit a (getSATLiteral lay f grounding false isF size)
  = negb (a (lit_var (getSATLiteral lay f grounding true isF size))).
Proof.
  rewrite evalLit_getSATLiteral, (getSATLiteral_polarity_irrelevant _ _ _ false true).
  now destruct (a _).
Qed.

Lemma evalLit_positive a lay f grounding isF size :
  evalLit a (getSATLiteral lay f grounding true isF size)
  = a (lit_var (getSATLiteral lay f grounding true isF size)).
Proof. rewrite evalLit_getSATLiteral. now destruct (a _). Qed.

Section Definitions.
Context (b : Builder) (a : Z -> bool) (lay : Layout) (n : Z).
Hypothesis Hrdl : keepsLiterals (removeDuplicateLiterals b).
Hypothesis Hn : 1 <= n <= UINT_MAX.

Lemma totalityClause_true f args :
  evalClause a (totalityClause b lay n f args) = true
  <-> exists e, 1 <= e <= Z.min n (fbound (sortedSignature b) f 0)
                /\ a (imageVar lay n f args e) = true.
Proof.
  rewrite evalClause_true. unfold totalityClause, imageVar. split.
  - intros (l & Hl & Htrue). apply in_map_iff in Hl. destruct Hl as (e & <- & He).
    apply upTo_In in He. exists e. split; [assumption|]. now rewrite <- evalLit_positive.
  - intros (e & He & Htrue). exists (getSATLiteral lay f (args ++ [e]) true true n).
    split; [|now rewrite evalLit_positive]. apply in_map_iff. exists e.
    split; [reflexivity|now apply upTo_In].
Qed.

Lemma some_image buf f args :
  evalCNF a (addNewTotalityDefs b lay n buf) = true ->
  (f < functions (signature b))%nat -> deletedFunction b f = false ->
  withinBounds args (totalityMins b n f) ->
  exists e, 1 <= e <= Z.min n (fbound (sortedSignature b) f 0)
            /\ a (imageVar lay n f args e) = true.
Proof.
  intros Hsat Hf Hlive Hargs.
  apply (addNewTotalityDefs_sat b a Hrdl) in Hsat. destruct Hsat as [_ Htotal].
  apply totalityClause_true. apply (Htotal f (proj2 (functionSymbols_In b f) Hf) Hlive).
  pose proof (totalityMins_length b n f) as Hlen.
  destruct (Nat.eq_dec (functionArity (signature b) f) O) as [Har|Har].
  - left. split; [assumption|]. rewrite Har in Hlen.
    destruct (totalityMins b n f); [|discriminate]. now inversion Hargs.
  - right. split; [assumption|]. apply groundings_complete; [| |assumption].
    + apply (withinBounds_valid args _ n); [lia|apply totalityMins_le|assumption].
    + destruct (totalityMins b n f); [simpl in Hlen; congruence|discriminate].
Qed.

Lemma no_two_images buf f args e1 e2 :
  evalCNF a (addNewFunctionalDefs b lay n buf) = true ->
  (f < functions (signature b))%nat -> deletedFunction b f = false ->
  withinBounds args (totalityMins b n f) ->
  1 <= e1 -> e1 < e2 -> e2 <= Z.min n (fbound (sortedSignature b) f 0) ->
  a (imageVar lay n f args e1) = true -> a (imageVar lay n f args e2) = true -> False.
Proof.
  intros Hsat Hf Hlive Hargs H1 H12 H2 Ha1 Ha2.
  apply (addNewFunctionalDefs_sat b a Hrdl) in Hsat. destruct Hsat as [_ Hfunctional].
  assert (Hw : withinBounds (e1 :: e2 :: args) (functionalMins b n f)).
  { rewrite functionalMins_eq. constructor; [lia|]. constructor; [lia|]. exact Hargs. }
  assert (Hg : In (e1 :: e2 :: args) (groundings (functionalMins b n f))).
  { apply groundings_complete; [|discriminate|exact Hw].
    apply (withinBounds_valid (e1 :: e2 :: args) _ n); [lia| |exact Hw].
    rewrite functionalMins_eq. constructor; [lia|]. constructor; [lia|].
    apply totalityMins_le. }
  pose proof (Hfunctional f (proj2 (functionSymbols_In b f) Hf) Hlive _ Hg) as Hcl.
  change ((e1 :: e2 :: args) !!! O) with e1 in Hcl.
  change ((e1 :: e2 :: args) !!! 1%nat) with e2 in Hcl.
  change (drop 2 (e1 :: e2 :: args)) with args in Hcl.
  specialize (Hcl H12). unfold evalClause in Hcl. simpl in Hcl.
  rewrite !evalLit_negative in Hcl. unfold imageVar in Ha1, Ha2.
  rewrite Ha1, Ha2 in Hcl. discriminate.
Qed.

Lemma addNewTotalityDefs_eval buf :
  evalCNF a (addNewTotalityDefs b lay n buf)
  = evalCNF a buf
    && forallb (fun f =>
          deletedFunction b f
          || (if (functionArity (signature b) f =? 0)%nat
              then evalClause a (totalityClause b lay n f [])
              else forallb (fun g => evalClause a (totalityClause b lay n f g))
                     (groundings (totalityMins b n f))))
         (functionSymbols b).
Proof.
  unfold addNewTotalityDefs. apply fold_left_eval. intros buf' f.
  destruct (deletedFunction b f); simpl; [now rewrite andb_true_r|].
  destruct (functionArity (signature b) f =? 0)%nat.
  - now apply addSATClause_eval.
  - apply fold_left_eval. intros buf'' g. now apply addSATClause_eval.
Qed.

Lemma addNewFunctionalDefs_eval buf :
  evalCNF a (addNewFunctionalDefs b lay n buf)
  = evalCNF a buf
    && forallb (fun f =>
          deletedFunction b f
          || forallb (fun g =>
                 (g !!! 1%nat <=? g !!! O)
                 || evalClause a
                      [getSATLiteral lay f (drop 2 g ++ [g !!! O]) false true n;
                       getSATLiteral lay f (drop 2 g ++ [g !!! 1%nat]) false true n])
               (groundings (functionalMins b n f)))
         (functionSymbols b).
Proof.
  unfold addNewFunctionalDefs. apply fold_left_eval. intros buf' f.
  destruct (deletedFunction b f); simpl; [now rewrite andb_true_r|].
  apply fold_left_eval. intros buf'' g. unfold addFunctionalDef.
  destruct (g !!! 1%nat <=? g !!! O); simpl; [now rewrite andb_true_r|].
  now apply addSATClause_eval.
Qed.

(** The bounds of the live functions are positive. *)
Hypothesis Hbounds :
  forall f, (f < functions (signature b))%nat -> deletedFunction b f = false ->
    forall i, (i <= functionArity (signature b) f)%nat -> 1 <= fbound (sortedSignature b) f i.

Lemma addNewTotalityDefs_holds buf :
  (forall f, (f < functions (signature b))%nat -> deletedFunction b f = false ->
     forall args, withinBounds args (totalityMins b n f) ->
       exists e, 1 <= e <= Z.min n (fbound (sortedSignature b) f 0)
                 /\ a (imageVar lay n f args e) = true) ->
  evalCNF a (addNewTotalityDefs b lay n buf) = evalCNF a buf.
Proof.
  intros Hall. rewrite addNewTotalityDefs_eval.
  rewrite (proj2 (forallb_forall _ _)); [apply andb_true_r|].
  intros f Hf. apply functionSymbols_In in Hf.
  destruct (deletedFunction b f) eqn:Hlive; [reflexivity|]. simpl.
  pose proof (totalityMins_length b n f) as Hlen.
  destruct (Nat.eqb_spec (functionArity (signature b) f) 0) as [Har|Har].
  - apply totalityClause_true. apply (Hall f Hf Hlive).
    rewrite Har in Hlen. destruct (totalityMins b n f); [constructor|discriminate].
  - apply forallb_forall. intros g Hg. apply totalityClause_true. apply (Hall f Hf Hlive).
    destruct (functionalMins_valid b n f Hn (Hbounds f Hf Hlive)) as [_ Hvalid].
    apply groundings_sound; [assumption| |assumption].
    destruct (totalityMins b n f); [simpl in Hlen; congruence|discriminate].
Qed.

Lemma addNewFunctionalDefs_holds buf :
  (forall f, (f < functions (signature b))%nat -> deletedFunction b f = false ->
     forall args e1 e2, withinBounds args (totalityMins b n f) ->
       1 <= e1 -> e1 < e2 -> e2 <= Z.min n (fbound (sortedSignature b) f 0) ->
       a (imageVar lay n f args e1) = true -> a (imageVar lay n f args e2) = true -> False) ->
  evalCNF a (addNewFunctionalDefs b lay n buf) = evalCNF a buf.
Proof.
  intros Hall. rewrite addNewFunctionalDefs_eval.
  rewrite (proj2 (forallb_forall _ _)); [apply andb_true_r|].
  intros f Hf. apply functionSymbols_In in Hf.
  destruct (deletedFunction b f) eqn:Hlive; [reflexivity|]. simpl.
  apply forallb_forall. intros g Hg.
  destruct (functionalMins_valid b n f Hn (Hbounds f Hf Hlive)) as [Hvalid _].
  apply groundings_sound in Hg; [|assumption|discriminate].
  rewrite functionalMins_eq in Hg.
  inversion Hg as [|e1 ? rest ? He1 Hrest]; subst.
  inversion Hrest as [|e2 ? args ? He2 Hargs]; subst.
  change ((e1 :: e2 :: args) !!! O) with e1.
  change ((e1 :: e2 :: args) !!! 1%nat) with e2.
  change (drop 2 (e1 :: e2 :: args)) with args.
  destruct (Z.leb_spec e2 e1) as [|Hlt]; [reflexivity|]. simpl.
  rewrite !evalLit_negative. fold (imageVar lay n f args e1). fold (imageVar lay n f args e2).
  destruct (a (imageVar lay n f args e1)) eqn:Ha1; [|reflexivity].
  destruct (a (imageVar lay n f args e2)) eqn:Ha2; [|reflexivity].
  exfalso. apply (Hall f Hf Hlive args e1 e2); try assumption; lia.
Qed.
End Definitions.

(** X12. The functionality and totality clauses ask for functions and for
    nothing else.  The assignments that satisfy the clauses added by
    [addNewFunctionalDefs] and [addNewTotalityDefs] at size [n] are exactly
    the assignments in which every live function has, for every argument
    tuple within its bounds, one and only one image among
    [1 .. min(n, fbounds[f][0])] whose variable is true. *)
Theorem function_definitions_exact :
  forall (b : Builder) (a : Z -> bool) (lay : Layout) (n : Z) (buf : list SATClause),
    keepsLiterals (removeDuplicateLiterals b) ->
    1 <= n <= UINT_MAX ->
    (forall f, (f < functions (signature b))%nat -> deletedFunction b f = false ->
       forall i, (i <= functionArity (signature b) f)%nat ->
                 1 <= fbound (sortedSignature b) f i) ->
    (evalCNF a (addNewTotalityDefs b lay n (addNewFunctionalDefs b lay n buf)) = true
     <-> evalCNF a buf = true
         /\ forall f, (f < functions (signature b))%nat -> deletedFunction b f = false ->
            forall args, withinBounds args (totalityMins b n f) ->
              oneImage b a lay n f args).
Proof.
  intros b a lay n buf Hrdl Hn Hbounds. split.
  - intros Hsat.
    pose proof (proj1 (addNewTotalityDefs_sat b a Hrdl lay n _ Hsat)) as Hfun.
    split; [exact (proj1 (addNewFunctionalDefs_sat b a Hrdl lay n _ Hfun))|].
    intros f Hf Hlive args Hargs.
    destruct (some_image b a lay n Hrdl Hn _ f args Hsat Hf Hlive Hargs) as (e & He & Ha).
    exists e. split; [now split|]. intros e' He' Ha'.
    destruct (Z.lt_trichotomy e' e) as [Hlt|[Heq|Hlt]]; [|assumption|]; exfalso.
    + apply (no_two_images b a lay n Hrdl Hn _ f args e' e Hfun Hf Hlive Hargs);
        try assumption; lia.
    + apply (no_two_images b a lay n Hrdl Hn _ f args e e' Hfun Hf Hlive Hargs);
        try assumption; lia.
  - intros [Hbuf Hone].
    rewrite (addNewTotalityDefs_holds b a lay n Hrdl Hn Hbounds).
    + rewrite (addNewFunctionalDefs_holds b a lay n Hrdl Hn Hbounds); [exact Hbuf|].
      intros f Hf Hlive args e1 e2 Hargs H1 H12 H2 Ha1 Ha2.
      destruct (Hone f Hf Hlive args Hargs) as (e & _ & Huniq).
      pose proof (Huniq e1 ltac:(lia) Ha1). pose proof (Huniq e2 ltac:(lia) Ha2). lia.
    + intros f Hf Hlive args Hargs.
      destruct (Hone f Hf Hlive args Hargs) as (e & He & _). now exists e.
Qed.

(** ** The recorded model of a satisfying assignment *)

Lemma totalityMins_unbounded b n f :
  (forall i, (i <= functionArity (signature b) f)%nat -> n <= fbound (sortedSignature b) f i) ->
  totalityMins b n f = replicate (functionArity (signature b) f) n.
Proof.
  intros Hb. unfold totalityMins.
  assert (Hgen : forall k s, (s + k <= functionArity (signature b) f)%nat ->
            map (fun i => Z.min (fbound (sortedSignature b) f (S i)) n) (seq s k)
            = replicate k n).
  { induction k as [|k IH]; intros s Hs; simpl; [reflexivity|].
    rewrite IH by lia. f_equal. specialize (Hb (S s) ltac:(lia)). lia. }
  apply Hgen. lia.
Qed.

Lemma recordedFunction_live b f : recordedFunction b f = true -> deletedFunction b f = false.
Proof.
  unfold recordedFunction. intros H. apply andb_true_iff in H. destruct H as [_ H].
  now apply negb_true_iff in H.
Qed.

(** X13. When the assignment of the solver satisfies the functionality and
    the totality clauses of the round, the recorded model interprets every
    function that is neither introduced nor deleted and whose sorts are not
    bounded below the model size as a function on [1 .. modelSize]: a
    constant has one definition, and a function of arity above 0 has one
    definition for every argument tuple, none missing and none in
    conflict. *)
Theorem recordModel_total_functions :
  forall (b : Builder) (a : Z -> bool) (lay : Layout) (n : Z) (f : nat)
         (buf0 buf1 : list SATClause),
    keepsLiterals (removeDuplicateLiterals b) ->
    1 <= n < UINT_MAX ->
    evalCNF a (addNewFunctionalDefs b lay n buf0) = true ->
    evalCNF a (addNewTotalityDefs b lay n buf1) = true ->
    (f < functions (signature b))%nat ->
    recordedFunction b f = true ->
    (forall i, (i <= functionArity (signature b) f)%nat ->
               n <= fbound (sortedSignature b) f i) ->
    let M := recordModel b (evalLit a) lay n in
    (functionArity (signature b) f = O ->
     exists c, 1 <= c <= n /\ forall c', In (f, c') (fm_constants M) <-> c' = c)
    /\ (functionArity (signature b) f <> O ->
        forall args,
          length args = functionArity (signature b) f ->
          Forall (fun d => 1 <= d <= n) args ->
          exists c, 1 <= c <= n /\ forall c', In (f, args, c') (fm_functions M) <-> c' = c).
Proof.
  intros b a lay n f buf0 buf1 Hrdl Hbelow Hfun Hsat Hf Hrec Hunb M.
  assert (Hn : 1 <= n <= UINT_MAX) by lia.
  pose proof (recordedFunction_live b f Hrec) as Hlive.
  assert (Hone : forall args,
            length args = functionArity (signature b) f ->
            Forall (fun d => 1 <= d <= n) args ->
            exists c, 1 <= c <= n
                      /\ forall c', (1 <= c' <= n /\ a (imageVar lay n f args c') = true)
                                    <-> c' = c).
  { intros args Hlen Hall.
    assert (Hargs : withinBounds args (totalityMins b n f)).
    { rewrite (totalityMins_unbounded b n f Hunb). apply withinBounds_replicate. now split. }
    pose proof (Hunb O ltac:(lia)) as Hrange.
    destruct (some_image b a lay n Hrdl Hn _ f args Hsat Hf Hlive Hargs) as (e & He & Ha).
    exists e. split; [lia|]. intros c'. split; [|intros ->; split; [lia|assumption]].
    intros [Hc' Ha'].
    destruct (Z.lt_trichotomy c' e) as [Hlt|[Heq|Hlt]]; [|assumption|]; exfalso.
    - apply (no_two_images b a lay n Hrdl Hn _ f args c' e Hfun Hf Hlive Hargs);
        try assumption; lia.
    - apply (no_two_images b a lay n Hrdl Hn _ f args e c' Hfun Hf Hlive Hargs);
        try assumption; lia. }
  split.
  - intros Har. destruct (Hone [] (eq_sym Har) ltac:(constructor)) as (c & Hc & Hiff).
    exists c. split; [assumption|]. intros c'. subst M.
    rewrite recordModel_constants_In, <- Hiff. unfold imageVar. simpl.
    rewrite evalLit_positive. tauto.
  - intros Har args Hlen Hall. destruct (Hone args Hlen Hall) as (c & Hc & Hiff).
    exists c. split; [assumption|]. intros c'. subst M.
    rewrite (recordModel_functions_In b (evalLit a) lay n f args c' Hn), <- Hiff.
    unfold imageVar. rewrite evalLit_positive. tauto.
Qed.
(** ** The rounds of the search *)

Lemma layoutAt_shift b n0 lay0 k :
  layoutAt b n0 lay0 (S k) = layoutAt b (n0 + 1) (snd (reset b lay0 (n0 + 1))) k.
Proof.
  induction k as [|k IH].
  - simpl. now rewrite Z.add_0_r.
  - change (layoutAt b n0 lay0 (S (S k)))
      with (snd (reset b (layoutAt b n0 lay0 (S k)) (n0 + Z.of_nat (S k) + 1))).
    rewrite IH. simpl layoutAt. f_equal. f_equal. lia.
Qed.

Lemma continues_dec b ext n lay : continues b ext n lay \/ ~ continues b ext n lay.
Proof.
  unfold continues.
  destruct (roundAnswer b ext n lay) as [answer|];
    [|right; intros ((answer & Hanswer & _) & _); discriminate].
  destruct (Z_lt_dec n UINT_MAX) as [Hlt|]; [|right; tauto].
  destruct (Z_lt_dec n (maxModelSize b)) as [Hbelow|]; [|right; tauto].
  destruct (fst (reset b lay (n + 1))); [|right; intros (_ & _ & _ & H & _); discriminate].
  destruct (resetNeverReturns b (n + 1)); [right; intros (_ & _ & _ & _ & H); discriminate|].
  destruct answer.
  - right. intros ((answer & Hanswer & Hne) & _). congruence.
  - left. repeat split; try assumption. exists SATSolver.UNSATISFIABLE. now split.
  - left. repeat split; try assumption. exists SATSolver.UNKNOWN. now split.
Qed.

Lemma searchLoop_next b ext n lay :
  continues b ext n lay ->
  searchLoop b ext n lay = searchLoop b ext (n + 1) (snd (reset b lay (n + 1))).
Proof.
  intros ((answer & Hanswer & Hne) & Hlt & Hbelow & Hreset & Hreturns).
  rewrite searchLoop_round, Hanswer, Hreset, Hreturns.
  destruct (Z.leb_spec UINT_MAX n); [lia|].
  destruct (Z.leb_spec (maxModelSize b) n); [lia|].
  destruct answer; [contradiction|reflexivity|reflexivity].
Qed.

Lemma searchLoop_verdict b ext n lay :
  ~ continues b ext n lay -> searchLoop b ext n lay = verdict b ext n lay.
Proof.
  intros Hstop. rewrite searchLoop_round. unfold verdict.
  destruct (roundAnswer b ext n lay) as [answer|] eqn:Hanswer; [|reflexivity].
  assert (Hrest : answer <> SATSolver.SATISFIABLE ->
            (if UINT_MAX <=? n then gaveUp
             else if maxModelSize b <=? n then refuted
             else if fst (reset b lay (n + 1))
                  then if resetNeverReturns b (n + 1) then NeverReturns
                       else searchLoop b ext (n + 1) (snd (reset b lay (n + 1)))
                  else gaveUp)
            = (if UINT_MAX <=? n then gaveUp
               else if maxModelSize b <=? n then refuted
               else if fst (reset b lay (n + 1)) then NeverReturns
               else gaveUp)).
  { intros Hne.
    destruct (Z.leb_spec UINT_MAX n); [reflexivity|].
    destruct (Z.leb_spec (maxModelSize b) n); [reflexivity|].
    destruct (fst (reset b lay (n + 1))) eqn:Hreset; [|reflexivity].
    destruct (resetNeverReturns b (n + 1)) eqn:Hreturns; [reflexivity|].
    exfalso. apply Hstop. unfold continues. rewrite Hanswer.
    repeat split; try assumption. now exists answer. }
  destruct answer; [reflexivity| |]; apply Hrest; discriminate.
Qed.

Lemma searchLoop_continues b ext n0 lay0 (k : nat) :
  (forall j, (j < k)%nat -> continues b ext (n0 + Z.of_nat j) (layoutAt b n0 lay0 j)) ->
  searchLoop b ext n0 lay0 = searchLoop b ext (n0 + Z.of_nat k) (layoutAt b n0 lay0 k).
Proof.
  induction k as [|k IH]; intros Hcont.
  - simpl. now rewrite Z.add_0_r.
  - rewrite IH by (intros j Hj; apply Hcont; lia).
    rewrite (searchLoop_next b ext _ _ (Hcont k ltac:(lia))).
    simpl layoutAt. f_equal. lia.
Qed.

Lemma searchLoop_last_round b ext : forall (m : nat) n0 lay0,
  m = Z.to_nat (UINT_MAX - n0) ->
  exists k : nat,
    (forall j, (j < k)%nat ->
       continues b ext (n0 + Z.of_nat j) (layoutAt b n0 lay0 j))
    /\ ~ continues b ext (n0 + Z.of_nat k) (layoutAt b n0 lay0 k)
    /\ searchLoop b ext n0 lay0
       = searchLoop b ext (n0 + Z.of_nat k) (layoutAt b n0 lay0 k)
    /\ (k = O \/ n0 + Z.of_nat k <= Z.min UINT_MAX (maxModelSize b)).
Proof.
  induction m as [m IH] using lt_wf_ind. intros n0 lay0 Hm.
  destruct (continues_dec b ext n0 lay0) as [Hcont|Hstop].
  - pose proof Hcont as (_ & Hlt & Hbelow & _).
    destruct (IH (Z.to_nat (UINT_MAX - (n0 + 1))) ltac:(lia) (n0 + 1)
                (snd (reset b lay0 (n0 + 1))) eq_refl)
      as (k & Hrounds & Hlast & Hrun & Hbound).
    assert (Hall : forall j, (j < S k)%nat ->
              continues b ext (n0 + Z.of_nat j) (layoutAt b n0 lay0 j)).
    { intros [|j] Hj.
      - simpl. now rewrite Z.add_0_r.
      - rewrite layoutAt_shift.
        replace (n0 + Z.of_nat (S j)) with (n0 + 1 + Z.of_nat j) by lia.
        apply Hrounds. lia. }
    exists (S k). split; [exact Hall|].
    rewrite layoutAt_shift.
    replace (n0 + Z.of_nat (S k)) with (n0 + 1 + Z.of_nat k) by lia.
    split; [exact Hlast|]. split.
    + rewrite <- Hrun. now apply searchLoop_next.
    + right. destruct Hbound as [->|Hle]; [simpl; lia|lia].
  - exists O. simpl. rewrite Z.add_0_r.
    split; [intros j Hj; lia|]. split; [exact Hstop|]. split; [reflexivity|now left].
Qed.

(** What the last round gives when it is SATISFIABLE. *)
Lemma verdict_satisfiable b ext n lay :
  reasonOf (verdict b ext n lay) = Some Statistics.SATISFIABLE
  <-> roundAnswer b ext n lay = Some SATSolver.SATISFIABLE /\ extracts b ext n lay.
Proof.
  unfold verdict, extracts. split.
  - destruct (roundAnswer b ext n lay) as [[| |]|] eqn:Hanswer.
    + destruct (solverVarCount lay) as [varCount|]; [|discriminate].
      destruct (onModelFound b ext lay varCount _ n None) as [model| |] eqn:Hfound;
        [|discriminate|discriminate].
      intros _. split; [reflexivity|]. now exists varCount, model.
    + destruct (UINT_MAX <=? n); [discriminate|].
      destruct (maxModelSize b <=? n); [discriminate|].
      destruct (fst (reset b lay (n + 1))); discriminate.
    + destruct (UINT_MAX <=? n); [discriminate|].
      destruct (maxModelSize b <=? n); [discriminate|].
      destruct (fst (reset b lay (n + 1))); discriminate.
    + destruct (timeLimitReached ext n); [discriminate|].
      destruct (existsb (orderingReadsPastEnd n) _); [discriminate|].
      destruct (existsb (orderingNeverReturns n) _); discriminate.
  - intros (-> & varCount & model & -> & ->). reflexivity.
Qed.

(** X14. The loop returns SATISFIABLE exactly if there is a first size, at
    or above the size it starts with, at which the solver answers
    SATISFIABLE and the model extractor returns: every size below it was
    tried in turn, one by one, and not found satisfiable, none of them had
    reached [UINT_MAX] or the upper bound on the model size, and [reset]
    returned [true] every time.  The result is then the one of the round of
    that size. *)
Theorem searchLoop_first_model :
  forall (b : Builder) (ext : External) (n0 : Z) (lay0 : Layout),
    reasonOf (searchLoop b ext n0 lay0) = Some Statistics.SATISFIABLE
    <-> exists k : nat,
          (forall j, (j < k)%nat ->
             continues b ext (n0 + Z.of_nat j) (layoutAt b n0 lay0 j))
          /\ roundAnswer b ext (n0 + Z.of_nat k) (layoutAt b n0 lay0 k)
             = Some SATSolver.SATISFIABLE
          /\ extracts b ext (n0 + Z.of_nat k) (layoutAt b n0 lay0 k)
          /\ searchLoop b ext n0 lay0
             = searchLoop b ext (n0 + Z.of_nat k) (layoutAt b n0 lay0 k).
Proof.
  intros b ext n0 lay0. split.
  - intros Hres.
    destruct (searchLoop_last_round b ext _ n0 lay0 eq_refl)
      as (k & Hrounds & Hlast & Hrun & _).
    exists k. split; [exact Hrounds|].
    rewrite Hrun, (searchLoop_verdict b ext _ _ Hlast) in Hres.
    apply verdict_satisfiable in Hres. destruct Hres as [Hsat Hextracts].
    now repeat split.
  - intros (k & Hrounds & Hsat & Hextracts & Hrun). rewrite Hrun.
    assert (Hlast : ~ continues b ext (n0 + Z.of_nat k) (layoutAt b n0 lay0 k)).
    { intros ((answer & Hanswer & Hne) & _). congruence. }
    rewrite (searchLoop_verdict b ext _ _ Hlast). apply verdict_satisfiable. now split.
Qed.







(** X16. The loop plays finitely many rounds.  It tries the sizes
    [n0, n0 + 1, ..., n0 + k] one after the other; the round of size
    [n0 + k] is the last and decides what the loop ends in: TIME_LIMIT when
    the clock has run out at its start; what the extractor ends in when the
    solver answers SATISFIABLE; and otherwise UNKNOWN at [UINT_MAX],
    REFUTATION at a size that has reached the upper bound on the model size,
    UNKNOWN when [reset] returns [false] for the next size, and no return
    when that [reset] never returns.  Unless the first round is the last,
    [n0 + k] is at most [UINT_MAX] and at most that upper bound. *)
Theorem searchLoop_rounds :
  forall (b : Builder) (ext : External) (n0 : Z) (lay0 : Layout),
    exists k : nat,
      (forall j, (j < k)%nat ->
         continues b ext (n0 + Z.of_nat j) (layoutAt b n0 lay0 j))
      /\ ~ continues b ext (n0 + Z.of_nat k) (layoutAt b n0 lay0 k)
      /\ searchLoop b ext n0 lay0 = verdict b ext (n0 + Z.of_nat k) (layoutAt b n0 lay0 k)
      /\ (k = O \/ n0 + Z.of_nat k <= Z.min UINT_MAX (maxModelSize b)).
Proof.
  intros b ext n0 lay0.
  destruct (searchLoop_last_round b ext _ n0 lay0 eq_refl)
    as (k & Hcont & Hlast & Hrun & Hbound).
  exists k. split; [exact Hcont|]. split; [exact Hlast|]. split; [|exact Hbound].
  rewrite Hrun. now apply searchLoop_verdict.
Qed.

(** ** Variables that occur in two-variable equalities only *)

Lemma keepsLiterals_nil rdl : keepsLiterals rdl -> rdl [] = Some [].
Proof.
  intros H. specialize (H []). destruct (rdl []) as [cl|].
  - destruct cl as [|l cl]; [reflexivity|]. destruct (proj1 (H l) (or_introl eq_refl)).
  - destruct H as (v & [] & _).
Qed.

Lemma equatesTwoVariables_bounds b c :
  equatesTwoVariables c -> clauseBounds b c = [0; 0].
Proof.
  intros [Hvars Hlits]. unfold clauseBounds. rewrite Hvars.
  change (replicate 2 0) with [0; 0]. generalize [0; 0] as bounds.
  induction Hlits as [|lit lits [->| ->] _ IH]; intros bounds; simpl; [reflexivity| |];
    apply IH.
Qed.

Lemma equatesTwoVariables_instance a lay size c :
  equatesTwoVariables c -> instanceHolds a lay size c [2; 1] = false.
Proof.
  intros [_ Hlits]. unfold instanceHolds.
  induction Hlits as [|lit lits [->| ->] _ IH]; simpl in *; [reflexivity| |]; exact IH.
Qed.

(** The counters [2, 1] are reached from the counters before the loop when
    both bounds are 0. *)
Lemma unbounded_grounding : In [2; 1] (groundings [0; 0]).
Proof.
  unfold groundings.
  assert (Hm : Forall (fun m => 0 <= m <= UINT_MAX) [0; 0])
    by (repeat constructor; unfold UINT_MAX; lia).
  apply groundingsFrom_complete.
  - exact Hm.
  - apply initialGrounding_state; [exact Hm|discriminate].
  - repeat constructor; unfold onCycle, UINT_MAX; simpl; lia.
  - vm_compute. reflexivity.
  - rewrite Z2Nat.id by (vm_compute; discriminate). vm_compute. discriminate.
Qed.

(** X17. A variable that occurs in two-variable equalities only has the
    clause bound 0, and [min(0, size)] does not stop its counter at the
    size.  For a clause of two variables made of positive equalities between
    them, both bounds are 0, the instance loop gets to the grounding [2, 1]
    at every size, all literals of that instance are skipped and the empty
    clause is added: no assignment satisfies the clauses of the round,
    whatever the size. *)
Theorem equality_clause_unbounded :
  forall (b : Builder) (a : Z -> bool) (lay : Layout) (size : Z) (buf : list SATClause)
         (c : Clause),
    keepsLiterals (removeDuplicateLiterals b) ->
    0 <= size ->
    In c (clauses b) ->
    equatesTwoVariables c ->
    clauseBounds b c = [0; 0]
    /\ instanceMins b size c = [0; 0]
    /\ In [2; 1] (groundings (instanceMins b size c))
    /\ addInstance b lay size c buf [2; 1] = buf ++ [[]]
    /\ evalCNF a (addNewInstances b lay size buf) = false.
Proof.
  intros b a lay size buf c Hrdl Hsize Hc Heq.
  pose proof (equatesTwoVariables_bounds b c Heq) as Hbounds.
  assert (Hmins : instanceMins b size c = [0; 0]).
  { unfold instanceMins. rewrite Hbounds. simpl. now rewrite Z.min_l by lia. }
  split; [exact Hbounds|]. split; [exact Hmins|].
  split; [rewrite Hmins; apply unbounded_grounding|]. split.
  - unfold addInstance. rewrite groundLiterals_spec.
    pose proof (equatesTwoVariables_instance a lay size c Heq) as Hinst.
    unfold instanceHolds in Hinst. apply orb_false_iff in Hinst. destruct Hinst as [-> _].
    destruct Heq as [_ Hlits].
    assert (Hnone : omap (translateLiteral lay size [2; 1]) (literals c) = []).
    { induction Hlits as [|lit lits [->| ->] _ IH]; simpl; [reflexivity| |]; exact IH. }
    rewrite Hnone. unfold addSATClause. simpl. now rewrite (keepsLiterals_nil _ Hrdl).
  - rewrite (addNewInstances_eval b a Hrdl). apply andb_false_iff. right.
    apply not_true_iff_false. intros Hall. rewrite forallb_forall in Hall.
    specialize (Hall c Hc). rewrite forallb_forall in Hall.
    specialize (Hall [2; 1]). rewrite Hmins in Hall.
    rewrite (equatesTwoVariables_instance a lay size c Heq) in Hall.
    specialize (Hall unbounded_grounding). discriminate.
Qed.

(** ** addUseModelSize *)

Lemma maxArity_bound_fold (arities : list nat) (k : nat) : forall m,
  (fold_left (fun m arity => if (m <? arity)%nat then arity else m) arities m <= k)%nat
  <-> (m <= k)%nat /\ Forall (fun arity => (arity <= k)%nat) arities.
Proof.
  induction arities as [|x arities IH]; intros m; simpl.
  - split; [intros H; split; [assumption|constructor]|tauto].
  - rewrite IH. rewrite Forall_cons. destruct (Nat.ltb_spec m x); split; intros; 
      repeat split; try tauto; lia.
Qed.

(** X18. [addUseModelSize] does nothing when some function has an arity
    above 1.  Otherwise it adds a single clause, which holds under an
    assignment exactly if some grounded term of some sort takes the value
    [size]: a constant [c] with [c = size], or a unary function [f] with
    [f(m) = size] for some [m] in [1 .. size].  With no grounded term at all
    the clause is empty. *)
Theorem addUseModelSize_satisfied :
  forall (b : Builder) (a : Z -> bool) (lay : Layout) (size : Z) (buf : list SATClause),
    keepsLiterals (removeDuplicateLiterals b) ->
    0 <= size < UINT_MAX ->
    ((1 < maxArity b)%nat -> addUseModelSize b lay size buf = buf)
    /\ ((maxArity b <= 1)%nat ->
        Forall (fun arity => (arity <= 1)%nat) (functionArities (signature b))
        /\ (evalCNF a (addUseModelSize b lay size buf) = true
            <-> evalCNF a buf = true
                /\ exists s gt,
                     (s < sorts (sortedSignature b))%nat
                     /\ In gt (nth s (sortedGroundedTerms lay) [])
                     /\ if (functionArity (signature b) (gt_f gt) =? 0)%nat
                        then a (imageVar lay size (gt_f gt) [] size) = true
                        else exists m, 1 <= m <= size
                                       /\ a (imageVar lay size (gt_f gt) [m] size) = true)).
Proof.
  intros b a lay size buf Hrdl _. unfold addUseModelSize. split.
  - intros Hmax. destruct (Nat.ltb_spec 1 (maxArity b)); [reflexivity|lia].
  - intros Hmax. split; [now apply (maxArity_bound_fold _ 1 O)|].
    destruct (Nat.ltb_spec 1 (maxArity b)); [lia|].
    rewrite (addSATClause_eval b a Hrdl), andb_true_iff. apply and_iff_compat_l.
    rewrite evalClause_true. split.
    + intros (l & Hl & Htrue). apply in_flat_map in Hl. destruct Hl as (s & Hs & Hl).
      apply in_flat_map in Hl. destruct Hl as (gt & Hgt & Hl).
      apply in_seq in Hs. exists s, gt. split; [lia|]. split; [assumption|].
      unfold useModelSizeLits in Hl. unfold imageVar.
      destruct (functionArity (signature b) (gt_f gt) =? 0)%nat.
      * destruct Hl as [<-|[]]. now rewrite evalLit_positive in Htrue.
      * apply in_map_iff in Hl. destruct Hl as (m & <- & Hm). apply upTo_In in Hm.
        exists m. split; [assumption|]. now rewrite evalLit_positive in Htrue.
    + intros (s & gt & Hs & Hgt & Hval).
      assert (Hlit : exists l, In l (useModelSizeLits b lay size gt) /\ evalLit a l = true).
      { unfold useModelSizeLits. unfold imageVar in Hval.
        destruct (functionArity (signature b) (gt_f gt) =? 0)%nat.
        - eexists. split; [now left|]. now rewrite evalLit_positive.
        - destruct Hval as (m & Hm & Hval). eexists. split.
          + apply in_map_iff. exists m. split; [reflexivity|now apply upTo_In].
          + now rewrite evalLit_positive. }
      destruct Hlit as (l & Hl & Htrue). exists l. split; [|exact Htrue].
      apply in_flat_map. exists s. split; [apply in_seq; lia|].
      apply in_flat_map. now exists gt.
Qed.

(** ** The encoder stays within the variables of the solver *)

Lemma reset_variable_range b lay0 lay n :
  1 <= n ->
  length (f_offsets lay0) = functions (signature b) ->
  length (p_offsets lay0) = predicates (signature b) ->
  blocksFit (deletedFunction b) (functionBlockExp b) n (functionSymbols b) ->
  blocksFit (deletedPredicate b) (predicateBlockExp b) n (predicateSymbols b) ->
  reset b lay0 n = (true, lay) ->
  (forall isF s, liveSymbol b isF s -> 1 <= offsetOf lay s isF < totalVars b n)
  /\ (forall isF s tuple pol,
        inBounds b n isF s tuple ->
        1 <= lit_var (getSATLiteral lay s tuple pol isF n) < totalVars b n).
Proof.
  intros Hn Hlenf Hlenp Hfitf Hfitp Hreset.
  destruct (reset_offsets b lay0 n lay Hn Hlenf Hlenp Hfitf Hfitp Hreset)
    as (Hoff & Htotal & _).
  assert (Hstart : forall isF s, 1 <= blockStart b n isF s).
  { intros isF s. unfold blockStart, functionBlocks, predicateBlocks.
    pose proof (blocks_nonneg (deletedFunction b) (functionBlockExp b) n (seq 0 s)
                  ltac:(lia)).
    pose proof (blocks_nonneg (deletedFunction b) (functionBlockExp b) n
                  (functionSymbols b) ltac:(lia)).
    pose proof (blocks_nonneg (deletedPredicate b) (predicateBlockExp b) n
                  (seq 1 (s - 1)) ltac:(lia)).
    destruct isF; lia. }
  split.
  - intros isF s Hlive. rewrite (Hoff isF s Hlive).
    pose proof (Hstart isF s). pose proof (block_end b n Hn isF s Hlive).
    pose proof (blockSize_pos b n Hn isF s). lia.
  - intros isF s tuple pol (Hlive & Hlen & Hin).
    pose proof (tupleSum_range n tuple Hn Hin) as Hrange. rewrite Hlen in Hrange.
    pose proof (tuple_fits b n Hn isF s) as Hfits.
    pose proof (block_end b n Hn isF s Hlive) as Hend.
    pose proof (Hstart isF s) as H1.
    rewrite getSATLiteral_exact; rewrite (Hoff isF s Hlive); lia.
Qed.

Section Addresses.
Context (b : Builder) (bound : Z).
Hypothesis Hrdl : keepsLiterals (removeDuplicateLiterals b).

Lemma addSATClause_addresses cl buf :
  addresses bound buf -> Forall (addressed bound) cl ->
  addresses bound (addSATClause b cl buf).
Proof.
  intros Hbuf Hcl. unfold addSATClause. pose proof (Hrdl cl) as Hkeep.
  destruct (removeDuplicateLiterals b cl) as [cl'|]; [|exact Hbuf].
  apply Forall_app. split; [exact Hbuf|]. constructor; [|constructor].
  apply Forall_forall. intros l Hl. rewrite Forall_forall in Hcl. apply Hcl.
  apply list_elem_of_In. apply Hkeep. now apply list_elem_of_In.
Qed.

Lemma fold_left_addresses {X : Type} (step : list SATClause -> X -> list SATClause)
    (xs : list X) :
  (forall buf x, In x xs -> addresses bound buf -> addresses bound (step buf x)) ->
  forall buf, addresses bound buf -> addresses bound (fold_left step xs buf).
Proof.
  induction xs as [|x xs IH]; intros Hstep buf Hbuf; simpl; [exact Hbuf|].
  apply IH; [intros buf' y Hy; apply Hstep; now right|]. apply Hstep; [now left|exact Hbuf].
Qed.
End Addresses.

Lemma withinBounds_lookup g mins n v :
  withinBounds g mins -> Forall (fun m => m <= n) mins -> (v < length g)%nat ->
  1 <= valueOf g v <= n.
Proof.
  intros Hw Hle Hv. unfold valueOf.
  destruct (lookup_lt_is_Some_2 g v Hv) as [d Hd].
  rewrite (list_lookup_total_correct g v d Hd).
  destruct (Forall2_lookup_l _ _ _ _ _ Hw Hd) as (m & Hm & Hdm).
  rewrite Forall_forall in Hle. specialize (Hle m (list_elem_of_lookup_2 _ _ _ Hm)). lia.
Qed.

Lemma withinBounds_range g mins n :
  withinBounds g mins -> Forall (fun m => m <= n) mins -> Forall (fun d => 1 <= d <= n) g.
Proof.
  intros Hw. induction Hw as [|d m g mins Hd _ IH]; intros Hle; [constructor|].
  inversion Hle; subst. constructor; [lia|now apply IH].
Qed.

Lemma instanceMins_le b n c : Forall (fun m => m <= n) (instanceMins b n c).
Proof. unfold instanceMins. apply Forall_map, Forall_forall. intros x _. simpl. lia. Qed.

Section WithinRange.
Context (b : Builder) (lay0 lay : Layout) (n : Z).
Hypothesis Hrdl : keepsLiterals (removeDuplicateLiterals b).
Hypothesis Hn : 1 <= n <= UINT_MAX.
Hypothesis Hlenf : length (f_offsets lay0) = functions (signature b).
Hypothesis Hlenp : length (p_offsets lay0) = predicates (signature b).
Hypothesis Hfitf : blocksFit (deletedFunction b) (functionBlockExp b) n (functionSymbols b).
Hypothesis Hfitp : blocksFit (deletedPredicate b) (predicateBlockExp b) n (predicateSymbols b).
Hypothesis Hreset : reset b lay0 n = (true, lay).

Lemma literal_inRange isF s tuple pol :
  inBounds b n isF s tuple -> addressed (totalVars b n) (getSATLiteral lay s tuple pol isF n).
Proof.
  apply (reset_variable_range b lay0 lay n (proj1 Hn) Hlenf Hlenp Hfitf Hfitp Hreset).
Qed.

Lemma addGroundClauses_addresses buf :
  (forall c, In c (groundClauses b) ->
     Forall (fun lit => liveSymbol b false (functor lit)) (literals c)) ->
  addresses (totalVars b n) buf -> addresses (totalVars b n) (addGroundClauses b lay buf).
Proof.
  intros Hwf. unfold addGroundClauses. apply fold_left_addresses.
  intros buf' c Hc Hbuf. apply (addSATClause_addresses b _ Hrdl); [exact Hbuf|].
  apply Forall_map. eapply Forall_impl; [exact (Hwf c Hc)|].
  intros lit Hlive. unfold compose. cbn beta. rewrite getSATLiteral_nil. cbn [lit_var].
  apply (reset_variable_range b lay0 lay n (proj1 Hn) Hlenf Hlenp Hfitf Hfitp Hreset).
  exact Hlive.
Qed.

Lemma translateLiteral_inRange c g lit sl :
  withinBounds g (instanceMins b n c) ->
  length g = varCnt c ->
  wellFormedLiteral b (varCnt c) lit ->
  translateLiteral lay n g lit = Some sl -> addressed (totalVars b n) sl.
Proof.
  intros Hw Hlen Hwf Htr.
  assert (Hval : forall v, (v < varCnt c)%nat -> 1 <= valueOf g v <= n).
  { intros v Hv. apply (withinBounds_lookup g (instanceMins b n c)); [assumption| |lia].
    apply instanceMins_le. }
  assert (Hvals : forall vs, Forall (fun v => (v < varCnt c)%nat) vs ->
            Forall (fun d => 1 <= d <= n) (map (valueOf g) vs)).
  { intros vs Hvs. apply Forall_map. eapply Forall_impl; [exact Hvs|].
    intros v Hv. simpl. now apply Hval. }
  destruct lit as [pol x y|pol f args y|pol p args]; simpl in Htr; [discriminate| |];
    injection Htr as <-.
  - destruct Hwf as (Hlive & Hargs & Hy & Hvs). apply literal_inRange.
    split; [exact Hlive|]. split.
    + rewrite length_app, length_map. simpl. lia.
    + apply Forall_app. split; [now apply Hvals|]. constructor; [now apply Hval|constructor].
  - destruct Hwf as (Hlive & Hargs & Hvs). apply literal_inRange.
    split; [exact Hlive|]. split; [now rewrite length_map|now apply Hvals].
Qed.

Lemma addNewInstances_addresses buf :
  (forall c, In c (clauses b) ->
     varCnt c <> O /\ Forall (fun bound => 1 <= bound) (clauseBounds b c)
     /\ Forall (wellFormedLiteral b (varCnt c)) (literals c)) ->
  addresses (totalVars b n) buf -> addresses (totalVars b n) (addNewInstances b lay n buf).
Proof.
  intros Hwf. unfold addNewInstances. apply fold_left_addresses.
  intros buf' c Hc Hbuf'. destruct (Hwf c Hc) as (Hvars & Hbounds & Hlits).
  destruct (instanceMins_valid b n c Hn Hvars Hbounds) as [Hvalid Hne].
  revert buf' Hbuf'. apply fold_left_addresses. intros buf'' g Hg Hbuf''.
  apply groundings_sound in Hg; [|assumption|assumption].
  assert (Hlen : length g = varCnt c).
  { rewrite (withinBounds_length _ _ Hg). unfold instanceMins.
    now rewrite length_map, clauseBounds_length. }
  unfold addInstance. rewrite groundLiterals_spec.
  destruct (existsb (triviallyTrue g) (literals c)); [exact Hbuf''|].
  apply (addSATClause_addresses b _ Hrdl); [exact Hbuf''|].
  apply Forall_forall. intros sl Hsl. apply list_elem_of_omap in Hsl.
  destruct Hsl as (lit & Hlit & Htr).
  rewrite Forall_forall in Hlits.
  exact (translateLiteral_inRange c g lit sl Hg Hlen (Hlits lit Hlit) Htr).
Qed.

Hypothesis Hbounds :
  forall f, (f < functions (signature b))%nat -> deletedFunction b f = false ->
    forall i, (i <= functionArity (signature b) f)%nat -> 1 <= fbound (sortedSignature b) f i.

Lemma image_inRange f args e pol :
  (f < functions (signature b))%nat -> deletedFunction b f = false ->
  withinBounds args (totalityMins b n f) ->
  1 <= e <= n ->
  addressed (totalVars b n) (getSATLiteral lay f (args ++ [e]) pol true n).
Proof.
  intros Hf Hlive Hargs He. apply literal_inRange. split; [now split|]. split.
  - rewrite length_app, (withinBounds_length _ _ Hargs), totalityMins_length. simpl. lia.
  - apply Forall_app. split; [|constructor; [exact He|constructor]].
    apply (withinBounds_range args (totalityMins b n f)); [assumption|apply totalityMins_le].
Qed.

Lemma addNewFunctionalDefs_addresses buf :
  addresses (totalVars b n) buf -> addresses (totalVars b n) (addNewFunctionalDefs b lay n buf).
Proof.
  unfold addNewFunctionalDefs. apply fold_left_addresses.
  intros buf' f Hf Hbuf'. apply functionSymbols_In in Hf.
  destruct (deletedFunction b f) eqn:Hlive; [exact Hbuf'|].
  destruct (functionalMins_valid b n f Hn (Hbounds f Hf Hlive)) as [Hvalid _].
  revert buf' Hbuf'. apply fold_left_addresses. intros buf'' g Hg Hbuf''.
  apply groundings_sound in Hg; [|assumption|discriminate].
  rewrite functionalMins_eq in Hg.
  inversion Hg as [|e1 ? rest ? He1 Hrest]; subst.
  inversion Hrest as [|e2 ? args ? He2 Hargs]; subst.
  unfold addFunctionalDef.
  change ((e1 :: e2 :: args) !!! O) with e1.
  change ((e1 :: e2 :: args) !!! 1%nat) with e2.
  change (drop 2 (e1 :: e2 :: args)) with args.
  destruct (e2 <=? e1); [exact Hbuf''|].
  apply (addSATClause_addresses b _ Hrdl); [exact Hbuf''|].
  constructor; [apply image_inRange; try assumption; lia|].
  constructor; [apply image_inRange; try assumption; lia|constructor].
Qed.

Lemma totalityClause_inRange f args :
  (f < functions (signature b))%nat -> deletedFunction b f = false ->
  withinBounds args (totalityMins b n f) ->
  Forall (addressed (totalVars b n)) (totalityClause b lay n f args).
Proof.
  intros Hf Hlive Hargs. unfold totalityClause. apply Forall_map, Forall_forall.
  intros e He. apply list_elem_of_In, upTo_In in He. simpl.
  apply image_inRange; try assumption. lia.
Qed.

Lemma addNewTotalityDefs_addresses buf :
  addresses (totalVars b n) buf -> addresses (totalVars b n) (addNewTotalityDefs b lay n buf).
Proof.
  unfold addNewTotalityDefs. apply fold_left_addresses.
  intros buf' f Hf Hbuf'. apply functionSymbols_In in Hf.
  destruct (deletedFunction b f) eqn:Hlive; [exact Hbuf'|].
  pose proof (totalityMins_length b n f) as Hlen.
  destruct (Nat.eqb_spec (functionArity (signature b) f) 0) as [Har|Har].
  - apply (addSATClause_addresses b _ Hrdl); [exact Hbuf'|].
    apply totalityClause_inRange; try assumption.
    rewrite Har in Hlen. destruct (totalityMins b n f); [constructor|discriminate].
  - destruct (functionalMins_valid b n f Hn (Hbounds f Hf Hlive)) as [_ Hvalid].
    revert buf' Hbuf'. apply fold_left_addresses. intros buf'' g Hg Hbuf''.
    apply groundings_sound in Hg; [|assumption|].
    + apply (addSATClause_addresses b _ Hrdl); [exact Hbuf''|].
      now apply totalityClause_inRange.
    + destruct (totalityMins b n f); [simpl in Hlen; congruence|discriminate].
Qed.
End WithinRange.

(** X19. The encoder stays within the variables that [reset] has laid out.
    After a successful [reset(n)], every literal that [addGroundClauses],
    [addNewInstances], [addNewFunctionalDefs] and [addNewTotalityDefs] add
    has its variable in [1 .. last offset - 1], below the count handed to
    the solver, for clauses over the live symbols and positive bounds. *)
Theorem encoder_within_layout :
  forall (b : Builder) (lay0 lay : Layout) (n : Z) (buf : list SATClause),
    keepsLiterals (removeDuplicateLiterals b) ->
    1 <= n < UINT_MAX ->
    length (f_offsets lay0) = functions (signature b) ->
    length (p_offsets lay0) = predicates (signature b) ->
    blocksFit (deletedFunction b) (functionBlockExp b) n (functionSymbols b) ->
    blocksFit (deletedPredicate b) (predicateBlockExp b) n (predicateSymbols b) ->
    reset b lay0 n = (true, lay) ->
    (forall f, (f < functions (signature b))%nat -> deletedFunction b f = false ->
       forall i, (i <= functionArity (signature b) f)%nat ->
                 1 <= fbound (sortedSignature b) f i) ->
    (forall c, In c (groundClauses b) ->
       Forall (fun lit => liveSymbol b false (functor lit)) (literals c)) ->
    (forall c, In c (clauses b) ->
       varCnt c <> O /\ Forall (fun bound => 1 <= bound) (clauseBounds b c)
       /\ Forall (wellFormedLiteral b (varCnt c)) (literals c)) ->
    addresses (totalVars b n) buf ->
    totalVars b n <= UINT_MAX
    /\ solverVarCount lay = Some (wrap (totalVars b n + 1))
    /\ addresses (totalVars b n) (addGroundClauses b lay buf)
    /\ addresses (totalVars b n) (addNewInstances b lay n buf)
    /\ addresses (totalVars b n) (addNewFunctionalDefs b lay n buf)
    /\ addresses (totalVars b n) (addNewTotalityDefs b lay n buf).
Proof.
  intros b lay0 lay n buf Hrdl Hbelow Hlenf Hlenp Hfitf Hfitp Hreset Hbounds Hground Hcls Hbuf.
  assert (Hn : 1 <= n <= UINT_MAX) by lia.
  destruct (reset_offsets b lay0 n lay (proj1 Hn) Hlenf Hlenp Hfitf Hfitp Hreset)
    as (_ & Htotal & Hsolver).
  split; [exact Htotal|]. split; [exact Hsolver|]. split; [|split; [|split]].
  - now apply (addGroundClauses_addresses b lay0 lay n).
  - now apply (addNewInstances_addresses b lay0 lay n).
  - now apply (addNewFunctionalDefs_addresses b lay0 lay n).
  - now apply (addNewTotalityDefs_addresses b lay0 lay n).
Qed.

(** ** The further properties on small problems *)

Lemma groundings_nested_loops_witness :
  groundings [2; 3] = tuples [2; 3]
  /\ NoDup (groundings [2; 3])
  /\ (forall t, In t (groundings [2; 3]) <-> withinBounds t [2; 3])
  /\ Z.of_nat (length (groundings [2; 3])) = product [2; 3]
  /\ (forall extra : nat,
        groundingsFrom (length (tuples [2; 3]) + extra) [2; 3]
          (initialGrounding (length [2; 3]))
        = tuples [2; 3]).
Proof.
  apply (groundings_nested_loops [2; 3]).
  - repeat constructor; unfold UINT_MAX; lia.
  - discriminate.
Defined.

Lemma oneSort_clauses c :
  In c (clauses oneSort) ->
  varCnt c <> O /\ Forall (fun bound => 1 <= bound) (clauseBounds oneSort c)
  /\ Forall (wellFormedLiteral oneSort (varCnt c)) (literals c).
Proof.
  intros [<-|[]]. split; [discriminate|]. split.
  - assert (E : clauseBounds oneSort
                  {| varCnt := 2;
                     literals := [FunctionEquality true 1 [O] 1%nat;
                                  PredicateAtom false 1 [1%nat];
                                  TwoVarEquality false 0 1] |}
                = [UINT_MAX; UINT_MAX]) by reflexivity.
    rewrite E. repeat constructor; unfold UINT_MAX; lia.
  - simpl. repeat constructor; simpl; lia.
Qed.

Lemma oneSort_bounds f :
  (f < functions (signature oneSort))%nat -> deletedFunction oneSort f = false ->
  forall i, (i <= functionArity (signature oneSort) f)%nat ->
            1 <= fbound (sortedSignature oneSort) f i.
Proof.
  intros Hf _ i Hi. change (functions (signature oneSort)) with 2%nat in Hf.
  destruct f as [|[|f]]; [| |lia].
  - change (functionArity (signature oneSort) 0) with O in Hi.
    destruct i; [vm_compute; discriminate|lia].
  - change (functionArity (signature oneSort) 1) with 1%nat in Hi.
    destruct i as [|[|i]]; [vm_compute; discriminate|vm_compute; discriminate|lia].
Qed.

Lemma oneSort_fits :
  blocksFit (deletedFunction oneSort) (functionBlockExp oneSort) 2 (functionSymbols oneSort)
  /\ blocksFit (deletedPredicate oneSort) (predicateBlockExp oneSort) 2
       (predicateSymbols oneSort).
Proof.
  split; intros s Hs _; simpl in Hs.
  - destruct Hs as [<-|[<-|[]]]; vm_compute; discriminate.
  - destruct Hs as [<-|[]]; vm_compute; discriminate.
Qed.

Lemma addNewInstances_satisfied_witness :
  evalCNF (trueAt [1; 5; 6]) (addNewInstances oneSort oneSortLayout 2 []) = true
  <-> evalCNF (trueAt [1; 5; 6]) [] = true
      /\ forall c, In c (clauses oneSort) ->
         forall grounding,
           withinBounds grounding (instanceMins oneSort 2 c) ->
           instanceHolds (trueAt [1; 5; 6]) oneSortLayout 2 c grounding = true.
Proof.
  apply (addNewInstances_satisfied oneSort (trueAt [1; 5; 6]) oneSortLayout 2 []).
  - apply removeDuplicateLiterals_ref_keepsLiterals.
  - unfold UINT_MAX. lia.
  - intros c Hc. destruct (oneSort_clauses c Hc) as (H1 & H2 & _). now split.
Defined.

Lemma addGroundClauses_satisfied_witness :
  let lay := snd (reset propositional (initialLayout propositional) 1) in
  (forall lit,
     getSATLiteral lay (functor lit) [] (polarity lit) false 0
     = mkSATLiteral (p_offsets lay !!! functor lit) (polarity lit))
  /\ (evalCNF (trueAt [1]) (addGroundClauses propositional lay []) = true
      <-> evalCNF (trueAt [1]) [] = true
          /\ forall c, In c (groundClauses propositional) ->
             exists lit, In lit (literals c)
                         /\ trueAt [1] (p_offsets lay !!! functor lit) = polarity lit).
Proof.
  intros lay.
  apply (addGroundClauses_satisfied propositional (trueAt [1]) lay []).
  apply removeDuplicateLiterals_ref_keepsLiterals.
Defined.

Lemma clauseBounds_of_variable_witness :
  let c := {| varCnt := 2;
              literals := [FunctionEquality true 1 [O] 1%nat; PredicateAtom false 1 [1%nat];
                           TwoVarEquality false 0 1] |} in
  let positions := flat_map (positionBounds (sortedSignature oneSort) 1) (literals c) in
  length (clauseBounds oneSort c) = varCnt c
  /\ clauseBounds oneSort c !!! 1%nat = firstNonZero positions
  /\ (positions = [] -> clauseBounds oneSort c !!! 1%nat = 0)
  /\ (forall bound, positions <> [] -> Forall (fun x => x = bound) positions ->
        clauseBounds oneSort c !!! 1%nat = bound).
Proof.
  intros c. apply (clauseBounds_of_variable oneSort c 1%nat). simpl. lia.
Defined.

Lemma reset_grounded_terms_witness :
  length (sortedGroundedTerms oneSortLayout) = sorts (sortedSignature oneSort)
  /\ forall s, (s < sorts (sortedSignature oneSort))%nat ->
       2 + Z.of_nat (length (nth s (sortedFunctions (sortedSignature oneSort)) [])) <= UINT_MAX ->
       let G := nth s (sortedGroundedTerms oneSortLayout) [] in
       let constants := nth s (sortedConstants (sortedSignature oneSort)) [] in
       take (length constants) G = map (fun c => mkGroundedTerm c 0) constants
       /\ forall gt,
            In gt (drop (length constants) G)
            <-> In (gt_f gt) (nth s (sortedFunctions (sortedSignature oneSort)) [])
                /\ 1 <= gt_grounding gt <= 2
                /\ respectsBounds oneSort 2 gt.
Proof.
  apply (reset_grounded_terms oneSort (initialLayout oneSort) oneSortLayout 2).
  - unfold UINT_MAX. lia.
  - reflexivity.
Defined.

Lemma widget_orders_permute_witness :
  let b := twoUnary 1 in
  let b' := withWidgetOrder DIAGONAL (twoUnary 1) in
  let k := length (nth 0 (sortedConstants (sortedSignature b)) []) in
  take k (groundedTermsOfSort b 3 0) = take k (groundedTermsOfSort b' 3 0)
  /\ drop k (groundedTermsOfSort b 3 0) ≡ₚ drop k (groundedTermsOfSort b' 3 0)
  /\ length (groundedTermsOfSort b 3 0) = length (groundedTermsOfSort b' 3 0).
Proof.
  intros b b'. apply (widget_orders_permute b b' 3 0%nat).
  - reflexivity.
  - reflexivity.
  - unfold UINT_MAX. lia.
  - vm_compute. discriminate.
Defined.

Lemma reset_fails_on_overflow_witness :
  let b := twoConstants 50000 1 PROOF_ON in
  (fst (reset b (initialLayout b) 50000) = false <-> UINT_MAX < totalVars b 50000)
  /\ (fst (reset b (initialLayout b) 50000) = false ->
      solverVarCount (snd (reset b (initialLayout b) 50000)) = solverVarCount (initialLayout b)
      /\ sortedGroundedTerms (snd (reset b (initialLayout b) 50000))
         = sortedGroundedTerms (initialLayout b))
  /\ (forall lay1 n',
        50000 <= n' < UINT_MAX ->
        blocksFit (deletedFunction b) (functionBlockExp b) n' (functionSymbols b) ->
        blocksFit (deletedPredicate b) (predicateBlockExp b) n' (predicateSymbols b) ->
        fst (reset b (initialLayout b) 50000) = false -> fst (reset b lay1 n') = false).
Proof.
  intros b. apply (reset_fails_on_overflow b (initialLayout b) 50000).
  - unfold UINT_MAX. lia.
  - intros s Hs _. simpl in Hs. destruct Hs as [<-|[<-|[]]]; vm_compute; discriminate.
  - intros s Hs _. simpl in Hs. destruct Hs.
Defined.

Lemma symmetry_ordering_redundant_witness :
  let a := trueAt [1; 5; 6] in
  let G := groundedTermsOfSort oneSort 2 0 in
  addNewSymmetryOrderingAxioms oneSort oneSortLayout 2 G []
  = (if Z.of_nat (length G) <? 2 then []
     else addSATClause oneSort
            (map (fun i => termLiteral oneSortLayout (signature oneSort) 2
                             (nth (Z.to_nat (2 - 1)) G dummyGroundedTerm) i true)
               (upTo 2))
            [])
  /\ (evalCNF a (addNewTotalityDefs oneSort oneSortLayout 2 []) = true ->
      evalCNF a (addNewSymmetryOrderingAxioms oneSort oneSortLayout 2 G []) = evalCNF a []).
Proof.
  intros a G.
  apply (symmetry_ordering_redundant oneSort a oneSortLayout 2 0%nat [] []).
  - apply removeDuplicateLiterals_ref_keepsLiterals.
  - unfold UINT_MAX. lia.
  - vm_compute. discriminate.
  - intros f Hf. simpl in Hf. destruct Hf as [<-|[]]. reflexivity.
  - intros f Hf. simpl in Hf. destruct Hf as [[<-|[]]|[<-|[]]]; split; vm_compute; lia.
Defined.

Lemma recordModel_predicates_witness :
  let holds := evalLit (trueAt [1; 5; 6]) in
  let M := recordModel oneSort holds oneSortLayout 2 in
  let value p args :=
    match nth p (trivialPredicates oneSort) None with
    | Some res => res
    | None => holds (getSATLiteral oneSortLayout p args true false 2)
    end in
  (forall p v,
     In (p, v) (fm_propositions M)
     <-> (1 <= p < predicates (signature oneSort))%nat
         /\ predicateArity (signature oneSort) p = O
         /\ recordedPredicate oneSort p = true
         /\ v = value p [])
  /\ (forall p args v,
        In (p, args, v) (fm_predicates M)
        <-> (1 <= p < predicates (signature oneSort))%nat
            /\ predicateArity (signature oneSort) p <> O
            /\ recordedPredicate oneSort p = true
            /\ length args = predicateArity (signature oneSort) p
            /\ Forall (fun d => 1 <= d <= 2) args
            /\ v = value p args)
  /\ NoDup (fm_propositions M)
  /\ NoDup (fm_predicates M).
Proof.
  intros holds. apply (recordModel_predicates oneSort holds oneSortLayout 2).
  unfold UINT_MAX. lia.
Defined.

Lemma recordModel_functions_witness :
  let holds := evalLit (trueAt [1; 5; 6]) in
  let M := recordModel oneSort holds oneSortLayout 2 in
  (forall f c,
     In (f, c) (fm_constants M)
     <-> (f < functions (signature oneSort))%nat
         /\ functionArity (signature oneSort) f = O
         /\ recordedFunction oneSort f = true
         /\ 1 <= c <= 2
         /\ holds (getSATLiteral oneSortLayout f [c] true true 2) = true)
  /\ (forall f args c,
        In (f, args, c) (fm_functions M)
        <-> (f < functions (signature oneSort))%nat
            /\ functionArity (signature oneSort) f <> O
            /\ recordedFunction oneSort f = true
            /\ length args = functionArity (signature oneSort) f
            /\ Forall (fun d => 1 <= d <= 2) args
            /\ 1 <= c <= 2
            /\ holds (getSATLiteral oneSortLayout f (args ++ [c]) true true 2) = true)
  /\ NoDup (fm_constants M)
  /\ NoDup (fm_functions M).
Proof.
  intros holds. apply (recordModel_functions oneSort holds oneSortLayout 2).
  unfold UINT_MAX. lia.
Defined.

Lemma function_definitions_exact_witness :
  let a := trueAt [1; 5; 6] in
  evalCNF a (addNewTotalityDefs oneSort oneSortLayout 2
               (addNewFunctionalDefs oneSort oneSortLayout 2 [])) = true
  <-> evalCNF a [] = true
      /\ forall f, (f < functions (signature oneSort))%nat ->
         deletedFunction oneSort f = false ->
         forall args, withinBounds args (totalityMins oneSort 2 f) ->
           oneImage oneSort a oneSortLayout 2 f args.
Proof.
  intros a. apply (function_definitions_exact oneSort a oneSortLayout 2 []).
  - apply removeDuplicateLiterals_ref_keepsLiterals.
  - unfold UINT_MAX. lia.
  - apply oneSort_bounds.
Defined.

Lemma recordModel_total_functions_witness :
  let a := trueAt [1; 5; 6] in
  let M := recordModel oneSort (evalLit a) oneSortLayout 2 in
  (functionArity (signature oneSort) 1 = O ->
   exists c, 1 <= c <= 2 /\ forall c', In (1%nat, c') (fm_constants M) <-> c' = c)
  /\ (functionArity (signature oneSort) 1 <> O ->
      forall args,
        length args = functionArity (signature oneSort) 1 ->
        Forall (fun d => 1 <= d <= 2) args ->
        exists c, 1 <= c <= 2 /\ forall c', In (1%nat, args, c') (fm_functions M) <-> c' = c).
Proof.
  intros a. apply (recordModel_total_functions oneSort a oneSortLayout 2 1%nat [] []).
  - apply removeDuplicateLiterals_ref_keepsLiterals.
  - unfold UINT_MAX. lia.
  - vm_compute. reflexivity.
  - vm_compute. reflexivity.
  - vm_compute. lia.
  - reflexivity.
  - intros i Hi. change (functionArity (signature oneSort) 1) with 1%nat in Hi.
    destruct i as [|[|i]]; [vm_compute; discriminate|vm_compute; discriminate|lia].
Defined.

Lemma equality_clause_unbounded_witness :
  let c := {| varCnt := 2; literals := [TwoVarEquality true 0 1] |} in
  let lay := snd (reset allEqual (initialLayout allEqual) 1) in
  clauseBounds allEqual c = [0; 0]
  /\ instanceMins allEqual 1 c = [0; 0]
  /\ In [2; 1] (groundings (instanceMins allEqual 1 c))
  /\ addInstance allEqual lay 1 c [] [2; 1] = [] ++ [[]]
  /\ evalCNF (trueAt [1]) (addNewInstances allEqual lay 1 []) = false.
Proof.
  intros c lay. apply (equality_clause_unbounded allEqual (trueAt [1]) lay 1 [] c).
  - apply removeDuplicateLiterals_ref_keepsLiterals.
  - lia.
  - now left.
  - split; [reflexivity|]. repeat constructor.
Defined.

Lemma addUseModelSize_satisfied_witness :
  let a := trueAt [1; 5; 6] in
  ((1 < maxArity oneSort)%nat -> addUseModelSize oneSort oneSortLayout 2 [] = [])
  /\ ((maxArity oneSort <= 1)%nat ->
      Forall (fun arity => (arity <= 1)%nat) (functionArities (signature oneSort))
      /\ (evalCNF a (addUseModelSize oneSort oneSortLayout 2 []) = true
          <-> evalCNF a [] = true
              /\ exists s gt,
                   (s < sorts (sortedSignature oneSort))%nat
                   /\ In gt (nth s (sortedGroundedTerms oneSortLayout) [])
                   /\ if (functionArity (signature oneSort) (gt_f gt) =? 0)%nat
                      then a (imageVar oneSortLayout 2 (gt_f gt) [] 2) = true
                      else exists m, 1 <= m <= 2
                                     /\ a (imageVar oneSortLayout 2 (gt_f gt) [m] 2) = true)).
Proof.
  intros a. apply (addUseModelSize_satisfied oneSort a oneSortLayout 2 []).
  - apply removeDuplicateLiterals_ref_keepsLiterals.
  - unfold UINT_MAX. lia.
Defined.

Lemma encoder_within_layout_witness :
  totalVars oneSort 2 <= UINT_MAX
  /\ solverVarCount oneSortLayout = Some (wrap (totalVars oneSort 2 + 1))
  /\ addresses (totalVars oneSort 2) (addGroundClauses oneSort oneSortLayout [])
  /\ addresses (totalVars oneSort 2) (addNewInstances oneSort oneSortLayout 2 [])
  /\ addresses (totalVars oneSort 2) (addNewFunctionalDefs oneSort oneSortLayout 2 [])
  /\ addresses (totalVars oneSort 2) (addNewTotalityDefs oneSort oneSortLayout 2 []).
Proof.
  apply (encoder_within_layout oneSort (initialLayout oneSort) oneSortLayout 2 []).
  - apply removeDuplicateLiterals_ref_keepsLiterals.
  - unfold UINT_MAX. lia.
  - reflexivity.
  - reflexivity.
  - apply oneSort_fits.
  - apply oneSort_fits.
  - reflexivity.
  - apply oneSort_bounds.
  - intros c Hc. destruct Hc.
  - apply oneSort_clauses.
  - constructor.
Defined.

